(** * Perlin-noise terrain: a shallow embedding of [main.cpp]

    The development embeds the noise generator of [main.cpp]
    ([permutationTable], [lerp], [fade], [gradientDotDistance],
    [noiseValue], lines 260-345) and the octave composition in the
    render loop of [main] (lines 228-236), and proves the properties
    stated about them.  It then embeds the rest of [main.cpp] that
    computes: the construction of the mesh (lines 79-111), the update
    of the heights (lines 224-238), the clamp of the camera's pitch
    (lines 210-211) and [checkErrors] (lines 40-48).

    The code computes on C++ [int] and [float].  Integers are modelled
    as [Z] with the 32-bit two's-complement encoding written out where
    the code uses a bit operation.  Floating-point code is written once
    over an interface of operations ([FloatOps]) and instantiated
    - at the reals, where every operation is the exact one followed by
      a rounding function, [rnd] for [float] and [rndD] for [double]
      ([Rounded rnd rndD]; [Exact] rounds nothing);
    - at IEEE-754 binary32, with binary64 for [double], both with
      round-to-nearest-even ([binary32], from the Standard Library's
      [SpecFloat]), which evaluates.

    What C++ leaves undefined is [None]: a float that does not fit in
    [int] under the cast, an array index out of bounds, a [switch] that
    falls off the end of a non-void function. *)

From Stdlib Require Import ZArith List Lia Reals Lra Psatz Ranalysis1.
From Stdlib Require Import Ranalysis_reg MVT.
From Stdlib Require Import Floats.SpecFloat.
From stdpp Require Import base option list.

Local Open Scope Z_scope.

(** ** The C++ [int] *)

Module Int.

Definition bits : Z := 32.
Definition modulus : Z := 2 ^ bits.
Definition min_int : Z := - 2 ^ (bits - 1).
Definition max_int : Z := 2 ^ (bits - 1) - 1.

(** The values an [int] holds. *)
Definition in_range (n : Z) : bool := (min_int <=? n) && (n <=? max_int).

(** Two's-complement encoding of an [int] and its inverse. *)
Definition unsigned (n : Z) : Z := n mod modulus.
Definition signed (u : Z) : Z := if u <? 2 ^ (bits - 1) then u else u - modulus.

(** [a & b] on [int]: the bitwise and of the two encodings. *)
Definition land (a b : Z) : Z := signed (Z.land (unsigned a) (unsigned b)).

End Int.

(** ** The permutation table (lines 260-291) *)

Definition permutationTable : list Z :=
  [
   151; 160; 137; 91; 90; 15; 131; 13; 201; 95; 96; 53; 194; 233; 7;
   225; 140; 36; 103; 30; 69; 142; 8; 99; 37; 240; 21; 10; 23; 190; 6; 148; 247;
   120; 234; 75; 0; 26; 197; 62; 94; 252; 219; 203; 117; 35; 11; 32; 57; 177; 33;
   88; 237; 149; 56; 87; 174; 20; 125; 136; 171; 168; 68; 175; 74; 165; 71; 134;
   139; 48; 27; 166; 77; 146; 158; 231; 83; 111; 229; 122; 60; 211; 133; 230; 220;
   105; 92; 41; 55; 46; 245; 40; 244; 102; 143; 54; 65; 25; 63; 161; 1; 216; 80;
   73; 209; 76; 132; 187; 208; 89; 18; 169; 200; 196; 135; 130; 116; 188; 159; 86;
   164; 100; 109; 198; 173; 186; 3; 64; 52; 217; 226; 250; 124; 123; 5; 202; 38;
   147; 118; 126; 255; 82; 85; 212; 207; 206; 59; 227; 47; 16; 58; 17; 182; 189;
   28; 42; 223; 183; 170; 213; 119; 248; 152; 2; 44; 154; 163; 70; 221; 153; 101;
   155; 167; 43; 172; 9; 129; 22; 39; 253; 19; 98; 108; 110; 79; 113; 224; 232;
   178; 185; 112; 104; 218; 246; 97; 228; 251; 34; 242; 193; 238; 210; 144; 12;
   191; 179; 162; 241; 81; 51; 145; 235; 249; 14; 239; 107; 49; 192; 214; 31; 181;
   199; 106; 157; 184; 84; 204; 176; 115; 121; 50; 45; 127; 4; 150; 254; 138; 236;
   205; 93; 222; 114; 67; 29; 24; 72; 243; 141; 128; 195; 78; 66; 215; 61; 156; 180;
   151; 160; 137; 91; 90; 15; 131; 13; 201; 95; 96; 53; 194; 233; 7;
   225; 140; 36; 103; 30; 69; 142; 8; 99; 37; 240; 21; 10; 23; 190; 6; 148; 247;
   120; 234; 75; 0; 26; 197; 62; 94; 252; 219; 203; 117; 35; 11; 32; 57; 177; 33;
   88; 237; 149; 56; 87; 174; 20; 125; 136; 171; 168; 68; 175; 74; 165; 71; 134;
   139; 48; 27; 166; 77; 146; 158; 231; 83; 111; 229; 122; 60; 211; 133; 230; 220;
   105; 92; 41; 55; 46; 245; 40; 244; 102; 143; 54; 65; 25; 63; 161; 1; 216; 80;
   73; 209; 76; 132; 187; 208; 89; 18; 169; 200; 196; 135; 130; 116; 188; 159; 86;
   164; 100; 109; 198; 173; 186; 3; 64; 52; 217; 226; 250; 124; 123; 5; 202; 38;
   147; 118; 126; 255; 82; 85; 212; 207; 206; 59; 227; 47; 16; 58; 17; 182; 189;
   28; 42; 223; 183; 170; 213; 119; 248; 152; 2; 44; 154; 163; 70; 221; 153; 101;
   155; 167; 43; 172; 9; 129; 22; 39; 253; 19; 98; 108; 110; 79; 113; 224; 232;
   178; 185; 112; 104; 218; 246; 97; 228; 251; 34; 242; 193; 238; 210; 144; 12;
   191; 179; 162; 241; 81; 51; 145; 235; 249; 14; 239; 107; 49; 192; 214; 31; 181;
   199; 106; 157; 184; 84; 204; 176; 115; 121; 50; 45; 127; 4; 150; 254; 138; 236;
   205; 93; 222; 114; 67; 29; 24; 72; 243; 141; 128; 195; 78; 66; 215; 61; 156; 180
  ].

(** [permutationTable[i]]; an index outside the array is undefined. *)
Definition table_at (i : Z) : option Z :=
  if 0 <=? i then permutationTable !! Z.to_nat i else None.

(** ** Floating-point operations *)

(** The operations the code applies to [float] values.  [of_int] is the
    conversion of an [int] (the literals [6], [15], [256], ... and
    [1.0f] are converted integers); [trunc] is the integer a finite
    value truncates to, and is undefined on NaN and the infinities.
    [floor] is taken at its [float] overload; the C library's
    function on [double] returns the same integer, and the difference
    [x - floor(x)], once stored in the [float] [x], is the same float.

    Two expressions of the code are evaluated in [double]: the last
    line of [noiseValue], because its literal [0.5] is a [double]
    (line 344), and the height (line 236), because the unqualified
    [pow] is the C library's [double pow(double, double)] (with g++
    and the GNU C library no header of the file brings the overloads
    of [std::pow] into the global namespace).  The operations on
    [double] they use, the conversion
    [to_double] of a [float] operand and the conversion [of_double]
    of a [double] to the [float] returned or stored come last. *)
Class FloatOps (F : Type) := {
  of_int : Z -> F;
  fadd : F -> F -> F;
  fsub : F -> F -> F;
  fmul : F -> F -> F;
  fdiv : F -> F -> F;
  fopp : F -> F;
  ffloor : F -> F;
  trunc : F -> option Z;
  double : Type;
  to_double : F -> double;
  of_double : double -> F;
  dof_int : Z -> double;
  dadd : double -> double -> double;
  dsub : double -> double -> double;
  dmul : double -> double -> double;
  ddiv : double -> double -> double
}.

Declare Scope float_scope.
Delimit Scope float_scope with fl.
Notation "x + y" := (fadd x y) : float_scope.
Notation "x - y" := (fsub x y) : float_scope.
Notation "x * y" := (fmul x y) : float_scope.
Notation "x / y" := (fdiv x y) : float_scope.
Notation "- x" := (fopp x) : float_scope.

(** ** The noise generator, over any [FloatOps] *)

Section Noise.

Context {F : Type} {ops : FloatOps F}.

(** The literals [0.5f], [1.2f] and, in [double], [0.5]: the quotients
    of two converted integers.  A correctly rounded quotient of [12] by
    [10] is the float nearest to [1.2], which is what the literal
    denotes. *)
Definition one_half : F := (of_int 1 / of_int 2)%fl.
Definition one_point_two : F := (of_int 12 / of_int 10)%fl.
Definition one_half_d : double := ddiv (dof_int 1) (dof_int 2).

(** [(int)x]: defined when the truncated value fits in [int]. *)
Definition to_int (x : F) : option Z :=
  n ← trunc x; if Int.in_range n then Some n else None.

(** Lines 293-295. *)
Definition lerp (w a b : F) : F :=
  (a * (of_int 1 - w) + b * w)%fl.

(** Lines 297-300. *)
Definition fade (t : F) : F :=
  (t * t * t * (t * (t * of_int 6 - of_int 15) + of_int 10))%fl.

(** Lines 302-323.  No [case] matches a [hash] outside 0..7 and the
    function then ends without a [return]. *)
Definition gradientDotDistance (hash : Z) (xOffset zOffset : F) : option F :=
  match hash with
  | 0 => Some (xOffset + zOffset)%fl
  | 1 => Some (- xOffset + zOffset)%fl
  | 2 => Some (xOffset - zOffset)%fl
  | 3 => Some (- xOffset - zOffset)%fl
  | 4 => Some xOffset
  | 5 => Some zOffset
  | 6 => Some (- xOffset)%fl
  | 7 => Some (- zOffset)%fl
  | _ => None
  end.

(** Line 344, [return 0.5 * value + 0.5f]: the product and the sum
    are those of [double], where [value] and [0.5f] are converted
    exactly, and the [double] obtained is converted to the [float]
    returned. *)
Definition rescale (value : F) : F :=
  of_double (dadd (dmul one_half_d (to_double value)) (to_double one_half)).

(** Lines 327-328: [(int)floor(x) & 255]. *)
Definition gridIndex (x : F) : option Z :=
  i ← to_int (ffloor x); Some (Int.land i 255).

(** Lines 331-344: the noise of the cell [(gridX, gridZ)] at the
    offsets [x], [z] into it.  The sums of indices stay below 512 and
    are plain additions. *)
Definition noiseCell (gridX gridZ : Z) (x z : F) : option F :=
  let u := fade x in
  let v := fade z in
  gradientBottomLeft ← (p ← table_at gridX; table_at (p + gridZ));
  gradientBottomRight ← (p ← table_at (gridX + 1); table_at (p + gridZ));
  gradientTopLeft ← (p ← table_at gridX; table_at (p + gridZ + 1));
  gradientTopRight ← (p ← table_at (gridX + 1); table_at (p + gridZ + 1));
  dotBottomLeft ← gradientDotDistance (Int.land gradientBottomLeft 7) x z;
  dotBottomRight ←
    gradientDotDistance (Int.land gradientBottomRight 7) (x - of_int 1)%fl z;
  dotTopLeft ←
    gradientDotDistance (Int.land gradientTopLeft 7) x (z - of_int 1)%fl;
  dotTopRight ←
    gradientDotDistance (Int.land gradientTopRight 7)
      (x - of_int 1)%fl (z - of_int 1)%fl;
  Some (rescale (lerp v (lerp u dotBottomLeft dotBottomRight)
                       (lerp u dotTopLeft dotTopRight))).

(** Lines 325-345. *)
Definition noiseValue (x z : F) : option F :=
  gridX ← gridIndex x;
  gridZ ← gridIndex z;
  let x := (x - ffloor x)%fl in
  let z := (z - ffloor z)%fl in
  noiseCell gridX gridZ x z.

(** Lines 228-236 of [main]: the height written to a vertex at
    [(xPosition, zPosition)].  [pow] is the math library's function on
    [double]: the sum of the octaves, a [float], and [1.2f] are
    converted to [double], [140] is subtracted in [double], and the
    store to the [float] [y] converts the difference. *)
Definition heightAt (pow : double -> double -> double)
    (xPosition zPosition : F) : option F :=
  n0 ← noiseValue (xPosition / of_int 256)%fl (zPosition / of_int 256)%fl;
  let overtone := (of_int 64 * n0)%fl in
  n1 ← noiseValue (xPosition / of_int 64)%fl (zPosition / of_int 64)%fl;
  let octave1 := (of_int 32 * n1)%fl in
  n2 ← noiseValue (xPosition / of_int 32)%fl (zPosition / of_int 32)%fl;
  let octave2 := (of_int 16 * n2)%fl in
  n3 ← noiseValue (xPosition / of_int 16)%fl (zPosition / of_int 16)%fl;
  let octave3 := (of_int 8 * n3)%fl in
  n4 ← noiseValue (xPosition / of_int 8)%fl (zPosition / of_int 8)%fl;
  let octave4 := (of_int 4 * n4)%fl in
  n5 ← noiseValue (xPosition / of_int 4)%fl (zPosition / of_int 4)%fl;
  let octave5 := (of_int 2 * n5)%fl in
  Some (of_double
          (dsub (pow (to_double (overtone + octave1 + octave2 + octave3 +
                                 octave4 + octave5)%fl)
                     (to_double one_point_two))
                (dof_int 140))).

End Noise.

(** ** Real arithmetic with a rounding function *)

(** Every IEEE-754 operation returns the exact result rounded, as long
    as that is finite.  [Rounded rnd rndD] is the code on real numbers
    with [rnd] applied after each operation on [float] that rounds and
    [rndD] after each operation on [double]; negation, [floor] and the
    conversion of a [float] to [double] are exact in IEEE-754
    arithmetic and are not rounded. *)
Module RealModel.

(** The integer a real truncates to (rounding toward zero). *)
Definition Rtrunc (x : R) : Z :=
  if Rle_dec 0 x then Zfloor x else - Zfloor (- x).

Definition Rounded (rnd rndD : R -> R) : FloatOps R := {|
  of_int n := rnd (IZR n);
  fadd x y := rnd (x + y)%R;
  fsub x y := rnd (x - y)%R;
  fmul x y := rnd (x * y)%R;
  fdiv x y := rnd (x / y)%R;
  fopp x := (- x)%R;
  ffloor x := IZR (Zfloor x);
  trunc x := Some (Rtrunc x);
  double := R;
  to_double x := x;
  of_double x := rnd x;
  dof_int n := rndD (IZR n);
  dadd x y := rndD (x + y)%R;
  dsub x y := rndD (x - y)%R;
  dmul x y := rndD (x * y)%R;
  ddiv x y := rndD (x / y)%R
|}.

(** Exact arithmetic: nothing is rounded. *)
Definition Exact : FloatOps R := Rounded (fun x => x) (fun x => x).

End RealModel.

(** ** IEEE-754 binary32 *)

Module Binary32.

Definition prec : Z := 24.
Definition emax : Z := 128.

(** The float nearest to the integer [n]. *)
Definition of_Z (n : Z) : spec_float := binary_normalize prec emax n 0 false.

(** The float nearest to [n / d], which is what a decimal literal such
    as [0.3f] denotes. *)
Definition ratio (n d : Z) : spec_float := SFdiv prec emax (of_Z n) (of_Z d).

(** The integer part of a finite float, toward zero. *)
Definition b32_trunc (x : spec_float) : option Z :=
  match x with
  | S754_zero _ => Some 0
  | S754_finite s m e => Some (cond_Zopp s (Z.shiftl (Z.pos m) e))
  | S754_infinity _ | S754_nan => None
  end.

(** [floor]: a float with a non-negative exponent is an integer;
    otherwise the mantissa is shifted right, which rounds toward
    minus infinity, and the integer obtained is a float. *)
Definition b32_floor (x : spec_float) : spec_float :=
  match x with
  | S754_finite s m e =>
      if 0 <=? e then x
      else binary_normalize prec emax (Z.shiftl (cond_Zopp s (Z.pos m)) e) 0 s
  | _ => x
  end.

(** The format of [double], binary64. *)
Definition dprec : Z := 53.
Definition demax : Z := 1024.

(** The conversion of a float to the format of precision [p]: the
    nearest float of that format.  From [float] to [double] it is
    exact. *)
Definition convert (p em : Z) (x : spec_float) : spec_float :=
  match x with
  | S754_finite s m e => binary_normalize p em (cond_Zopp s (Z.pos m)) e s
  | _ => x
  end.

Definition binary32 : FloatOps spec_float := {|
  of_int := of_Z;
  fadd := SFadd prec emax;
  fsub := SFsub prec emax;
  fmul := SFmul prec emax;
  fdiv := SFdiv prec emax;
  fopp := SFopp;
  ffloor := b32_floor;
  trunc := b32_trunc;
  double := spec_float;
  to_double := convert dprec demax;
  of_double := convert prec emax;
  dof_int n := binary_normalize dprec demax n 0 false;
  dadd := SFadd dprec demax;
  dsub := SFsub dprec demax;
  dmul := SFmul dprec demax;
  ddiv := SFdiv dprec demax
|}.

(** The floor of the value [(-1)^s * m * 2^e] of a finite float, as an
    integer. *)
Definition floor_value (x : spec_float) : option Z :=
  match x with
  | S754_zero _ => Some 0
  | S754_finite s m e => Some (Z.shiftl (cond_Zopp s (Z.pos m)) e)
  | S754_infinity _ | S754_nan => None
  end.

(** A finite float: neither NaN nor an infinity. *)
Definition is_finite (x : spec_float) : bool :=
  match x with
  | S754_zero _ | S754_finite _ _ _ => true
  | S754_infinity _ | S754_nan => false
  end.

(** A float whose value is an integer: its exponent is not negative,
    or its mantissa is a multiple of [2^(-e)]. *)
Definition is_integer (x : spec_float) : bool :=
  match x with
  | S754_zero _ => true
  | S754_finite _ m e => (0 <=? e) || (Z.pos m mod 2 ^ (- e) =? 0)
  | S754_infinity _ | S754_nan => false
  end.

(** The exponent of a finite float; 0 for a zero. *)
Definition exponent (x : spec_float) : Z :=
  match x with
  | S754_finite _ _ e => e
  | _ => 0
  end.

(** The value of a finite float in units of [2^E], an integer when [E]
    is at most the exponent: the value is [scaled E x * 2^E]. *)
Definition scaled (E : Z) (x : spec_float) : Z :=
  match x with
  | S754_finite s m e => cond_Zopp s (Z.pos m) * 2 ^ (e - E)
  | _ => 0
  end.

(** The value of a finite float, [(-1)^s * m * 2^e], as a real. *)
Definition B2R (x : spec_float) : R :=
  match x with
  | S754_finite s m e => (IZR (cond_Zopp s (Z.pos m)) * powerRZ 2 e)%R
  | _ => 0%R
  end.

(** A float of the format of precision [p]: finite and in canonical
    form. *)
Definition good_in (p em : Z) (x : spec_float) : Prop :=
  valid_binary p em x = true /\ is_finite x = true.

(** Half a unit in the last place of the floats of precision [p]
    below 32. *)
Definition half_ulp (p : Z) : R := powerRZ 2 (5 - p).

(** In binary32 that is [2^-19]. *)
Definition delta : R := (/ 524288)%R.

Definition good (x : spec_float) : Prop := good_in prec emax x.

(** [x] is a float of the format whose value is within [e] of the
    real [r]. *)
Definition near (x : spec_float) (r e : R) : Prop :=
  good x /\ (Rabs (B2R x - r) <= e)%R.

(** The value of [x'] is the value of [x] plus 256, exactly. *)
Definition shifted_256 (x x' : spec_float) : bool :=
  let E := Z.min (Z.min (exponent x) (exponent x')) 0 in
  is_finite x && is_finite x' &&
  (scaled E x' =? scaled E x + 256 * 2 ^ (- E)).

End Binary32.


(** ** The specification's formulations *)

(** Two operations are specified by a table rather than, as in the
    code, case by case.  The definitions below follow the
    specification's wording; the theorems compare them with the code. *)
Section Specification.

Context {F : Type} {ops : FloatOps F}.

(** The eight gradient directions, index 0..7. *)
Definition gradient_directions : list (Z * Z) :=
  [(1, 1); (-1, 1); (1, -1); (-1, -1); (1, 0); (0, 1); (-1, 0); (0, -1)].

(** The dot product of the direction of index [h] with the offset
    [(fx, fz)]. *)
Definition gradient_dot_spec (h : Z) (fx fz : F) : option F :=
  if 0 <=? h then
    d ← gradient_directions !! Z.to_nat h;
    Some (of_int d.1 * fx + of_int d.2 * fz)%fl
  else None.

(** The eight formulas, index 0..7. *)
Definition gradient_formulas (fx fz : F) : list F :=
  [ (fx + fz)%fl; (- fx + fz)%fl; (fx - fz)%fl; (- fx - fz)%fl;
    fx; fz; (- fx)%fl; (- fz)%fl ].

(** The six octaves: (wavelength, amplitude). *)
Definition octaves : list (Z * Z) :=
  [(256, 64); (64, 32); (32, 16); (16, 8); (8, 4); (4, 2)].

(** One octave: [amplitude * sample(x / wavelength, z / wavelength)]. *)
Definition octave_term (x z : F) (o : Z * Z) : option F :=
  n ← noiseValue (x / of_int o.1)%fl (z / of_int o.1)%fl;
  Some (of_int o.2 * n)%fl.

(** The sum of the octaves, in their order, raised to the power 1.2,
    minus 140: the power and the difference in [double], as in the
    code. *)
Definition heightAt_spec (pow : double -> double -> double) (x z : F)
    : option F :=
  terms ← mapM (octave_term x z) octaves;
  match terms with
  | [] => None
  | t :: ts =>
      Some (of_double
              (dsub (pow (to_double (foldl fadd t ts))
                         (to_double one_point_two))
                    (dof_int 140)))
  end.

(** The last lines of [noiseCell] (339-344) as a function of the four
    masked hashes, to enumerate them. *)
Definition corner_blend (h00 h10 h01 h11 : Z) (x z : F) : option F :=
  d00 ← gradientDotDistance h00 x z;
  d10 ← gradientDotDistance h10 (x - of_int 1)%fl z;
  d01 ← gradientDotDistance h01 x (z - of_int 1)%fl;
  d11 ← gradientDotDistance h11 (x - of_int 1)%fl (z - of_int 1)%fl;
  Some (rescale (lerp (fade z) (lerp (fade x) d00 d10)
                                (lerp (fade x) d01 d11))).

End Specification.

(** A rounding that flushes to zero what is at most 1/100 in
    magnitude, as an underflow does, and keeps the rest: under it
    [fade] vanishes away from 0. *)
Definition flush (t : R) : R :=
  if Rle_dec (Rabs t) (1 / 100) then 0%R else t.

(** Equality of floats is decidable. *)
#[global] Instance spec_float_eq_dec : EqDecision spec_float.
Proof. solve_decision. Defined.

(** ** Tactics *)

(** Case analysis on a hash known to be in 0..7. *)
Ltac hash_cases h :=
  let Hc := fresh "Hc" in
  assert (Hc : h = 0 \/ h = 1 \/ h = 2 \/ h = 3 \/
               h = 4 \/ h = 5 \/ h = 6 \/ h = 7) by lia;
  repeat (destruct Hc as [-> | Hc]); try subst h.

(** Unfolds the operations of the real model. *)
Ltac real_ops :=
  unfold RealModel.Exact in *;
  cbn [of_int fadd fsub fmul fdiv fopp ffloor trunc double to_double
       of_double dof_int dadd dsub dmul ddiv RealModel.Rounded] in *.

(** Closes a numeric side condition of an error bound. *)
Ltac near_side :=
  try apply Rabs_le;
  first [lra | nra | split; nra].

(** * The rest of [main.cpp] *)

(** ** The C++ [unsigned int] *)

(** [mapSize] is an [unsigned int], so the index expressions built from
    it and the loop counters are computed modulo [2^32]. *)
Module UInt.

Definition modulus : Z := 2 ^ 32.
Definition wrap (n : Z) : Z := n mod modulus.
Definition add (a b : Z) : Z := wrap (a + b).
Definition sub (a b : Z) : Z := wrap (a - b).
Definition mul (a b : Z) : Z := wrap (a * b).

(** The conversion of an [int] operand. *)
Definition of_int (i : Z) : Z := wrap i.

End UInt.

(** Line 17. *)
Definition mapSize : Z := 512.

(** ** The mesh (lines 27-30, 79-111) *)

Module Vertex.

(** Lines 27-30. *)
Record t (F : Type) : Type := make { x : F; y : F; z : F }.

Arguments make {F} _ _ _.
Arguments x {F} _.
Arguments y {F} _.
Arguments z {F} _.

End Vertex.

(** A counted loop: the body runs once for each element, in order, and
    the loop is undefined as soon as one run is. *)
Fixpoint for_each {A S : Type} (body : A -> S -> option S) (l : list A)
    (s : S) : option S :=
  match l with
  | [] => Some s
  | a :: l => s' ← body a s; for_each body l s'
  end.

(** [a[k] = v]: undefined outside the array. *)
Definition store {A : Type} (a : list A) (k : Z) (v : A) : option (list A) :=
  if bool_decide (0 <= k < Z.of_nat (length a))
  then Some (<[Z.to_nat k := v]> a) else None.

(** How [glDrawElements(GL_TRIANGLES, ...)] reads an index buffer:
    three indices for each triangle; an incomplete last triple is not
    drawn. *)
Fixpoint triangles (indices : list Z) : list (Z * Z * Z) :=
  match indices with
  | a :: b :: c :: rest => (a, b, c) :: triangles rest
  | _ => []
  end.

(** Twice the signed area, seen from above, of the triangle of three
    vertices of the grid, the vertex of index [k] being at
    [(k / size, k mod size)]. *)
Definition winding (size : Z) (t : Z * Z * Z) : Z :=
  let '(a, b, c) := t in
  (b / size - a / size) * (c mod size - a mod size) -
  (b mod size - a mod size) * (c / size - a / size).

Section Mesh.

Context {F : Type} {ops : FloatOps F}.

(** Lines 88-109, the body of the two loops, for the counters [i] and
    [j]: the vertices written so far and the indices pushed so far. *)
Definition meshBody (size i j : Z) (st : list (Vertex.t F) * list Z)
    : option (list (Vertex.t F) * list Z) :=
  let here := UInt.add (UInt.mul size (UInt.of_int i)) (UInt.of_int j) in
  let below :=
    UInt.add (UInt.mul size (UInt.of_int (i + 1))) (UInt.of_int j) in
  vertices ← store st.1 here (Vertex.make (of_int i) (of_int 0) (of_int j));
  if (UInt.of_int i <? UInt.sub size 1) && (UInt.of_int j <? UInt.sub size 1)
  then Some (vertices,
             st.2 ++ [here; UInt.add here 1; below;
                      below; UInt.add here 1; UInt.add below 1])
  else Some (vertices, st.2).

(** Lines 79-111.  [fresh] is what [new Vertex[vertexCount]] returns,
    an array of [vertexCount] vertices of any content; the counters run
    over [0 .. size - 1]. *)
Definition buildMesh (size : Z) (fresh : list (Vertex.t F))
    : option (list (Vertex.t F) * list Z) :=
  for_each (fun i => for_each (fun j => meshBody size i j) (seqZ 0 size))
    (seqZ 0 size) (fresh, []).

(** [v.y = h]. *)
Definition set_y (v : Vertex.t F) (h : F) : Vertex.t F :=
  Vertex.make (Vertex.x v) h (Vertex.z v).

(** [a[k].y = h]: undefined outside the array. *)
Definition store_y (a : list (Vertex.t F)) (k : Z) (h : F)
    : option (list (Vertex.t F)) :=
  v ← (if bool_decide (0 <= k) then a !! Z.to_nat k else None);
  Some (<[Z.to_nat k := set_y v h]> a).

(** Lines 228-236, the body of the two loops. *)
Definition heightBody (pow : double -> double -> double) (size : Z)
    (xOffset zOffset : F)
    (i j : Z) (vertices : list (Vertex.t F)) : option (list (Vertex.t F)) :=
  let xPosition := (of_int i + xOffset)%fl in
  let zPosition := (of_int j + zOffset)%fl in
  h ← heightAt pow xPosition zPosition;
  store_y vertices (UInt.add (UInt.mul (UInt.of_int i) size) (UInt.of_int j)) h.

(** Lines 224-238. *)
Definition updateHeights (pow : double -> double -> double) (size : Z)
    (xOffset zOffset : F)
    (vertices : list (Vertex.t F)) : option (list (Vertex.t F)) :=
  for_each
    (fun i => for_each (fun j => heightBody pow size xOffset zOffset i j)
                (seqZ 0 size))
    (seqZ 0 size) vertices.

(** The height computed for the vertex [(i, j)] (lines 228-236). *)
Definition vertexHeight (pow : double -> double -> double)
    (xOffset zOffset : F) (i j : Z)
    : option F :=
  heightAt pow (of_int i + xOffset)%fl (of_int j + zOffset)%fl.

(** The grid of vertices and the two triangles of each of its squares,
    row by row. *)
Definition grid_vertex (i j : Z) : Vertex.t F :=
  Vertex.make (of_int i) (of_int 0) (of_int j).

Definition grid_vertices (size : Z) : list (Vertex.t F) :=
  i ← seqZ 0 size; grid_vertex i <$> seqZ 0 size.

Definition square_indices (size i j : Z) : list Z :=
  [size * i + j; size * i + j + 1; size * (i + 1) + j;
   size * (i + 1) + j; size * i + j + 1; size * (i + 1) + j + 1].

Definition grid_indices (size : Z) : list Z :=
  i ← seqZ 0 (size - 1); j ← seqZ 0 (size - 1); square_indices size i j.

Definition square_triangles (size i j : Z) : list (Z * Z * Z) :=
  [(size * i + j, size * i + j + 1, size * (i + 1) + j);
   (size * (i + 1) + j, size * i + j + 1, size * (i + 1) + j + 1)].

Definition grid_triangles (size : Z) : list (Z * Z * Z) :=
  i ← seqZ 0 (size - 1); j ← seqZ 0 (size - 1); square_triangles size i j.

End Mesh.

(** ** The camera's pitch (lines 210-211) *)

(** The comparison [x < y] of two floats. *)
Class FloatOrder (F : Type) := { flt : F -> F -> bool }.

Section Camera.

Context {F : Type} {ops : FloatOps F} {ord : FloatOrder F}.

(** The literal [89.9f]. *)
Definition pitchLimit : F := (of_int 899 / of_int 10)%fl.

(** Lines 210-211. *)
Definition clampPitch (pitch : F) : F :=
  let pitch := if flt pitch (- pitchLimit)%fl then (- pitchLimit)%fl else pitch in
  if flt pitchLimit pitch then pitchLimit else pitch.

End Camera.

#[global] Instance binary32_order : FloatOrder spec_float :=
  {| flt := SFltb |}.

(** ** [checkErrors] (lines 40-48) *)

(** [glGetError] belongs to the environment: [errors n] is what its
    call number [n] returns.  The loop runs as long as the value read
    is not [GL_NO_ERROR], which is 0; [fuel] bounds the number of its
    iterations, and the result is what was printed and the number of
    calls made. *)
Fixpoint checkErrors_loop (fuel : nat) (errors : nat -> Z) (calls : nat)
    (error : Z) (printed : list Z) : option (list Z * nat) :=
  if error =? 0 then Some (printed, calls)
  else match fuel with
       | O => None
       | S fuel =>
           checkErrors_loop fuel errors (S calls) (errors calls)
             (printed ++ [error])
       end.

Definition checkErrors (fuel : nat) (errors : nat -> Z)
    : option (list Z * nat) :=
  checkErrors_loop fuel errors 1 (errors O) [].

(** ** The hash of a corner (lines 334 and 339) *)

(** [permutationTable[permutationTable[gridX] + gridZ] & 7]: the
    direction given to the corner [(gridX, gridZ)]. *)
Definition gradientHash (gridX gridZ : Z) : option Z :=
  p ← table_at gridX; g ← table_at (p + gridZ); Some (Int.land g 7).

(** ** The noise in exact arithmetic, as real functions *)

Section ExactFunctions.

Import RealModel.
Local Open Scope R_scope.

(** The direction of a masked hash. *)
Definition direction (h : Z) : Z * Z :=
  default (0%Z, 0%Z) (gradient_directions !! Z.to_nat h).

(** The dot product of the direction of [h] with an offset. *)
Definition dot (h : Z) (x z : R) : R :=
  IZR (direction h).1 * x + IZR (direction h).2 * z.

(** The noise of a cell whose corners have the masked hashes [h00],
    [h10], [h01], [h11], at the offset [(x, z)] into it. *)
Definition blend (h00 h10 h01 h11 : Z) (x z : R) : R :=
  let u := fade (ops := Exact) x in
  let v := fade (ops := Exact) z in
  1 / 2 *
  ((dot h00 x z * (1 - u) + dot h10 (x - 1) z * u) * (1 - v) +
   (dot h01 x (z - 1) * (1 - u) + dot h11 (x - 1) (z - 1) * u) * v) +
  1 / 2.

(** The masked hash of the corner [(cornerX, cornerZ)] of the lattice,
    for any two integers. *)
Definition cornerHash (cornerX cornerZ : Z) : Z :=
  let p := default 0%Z (table_at (cornerX mod 256)) in
  Int.land (default 0%Z (table_at (p + cornerZ mod 256))) 7.

(** The noise as a function: what [noiseValue] returns where it is
    defined. *)
Definition exactNoise (x z : R) : R :=
  default 0 (noiseValue (ops := Exact) x z).

End ExactFunctions.
(** * Properties *)

(** ** Bit masks on [int] *)

Section IntMask.

(** Masking with [2^k - 1], [k < 31], is the non-negative remainder
    modulo [2^k], whatever the sign of the operand: the encoding of a
    negative [int] has the low bits of its remainder. *)
Lemma land_ones_mod (n k : Z) :
  0 <= k < Int.bits - 1 ->
  Int.land n (Z.ones k) = n mod 2 ^ k.
Proof.
  intros Hk. unfold Int.land, Int.unsigned, Int.signed, Int.modulus, Int.bits in *.
  assert (Hpk : 0 < 2 ^ k) by (apply Z.pow_pos_nonneg; lia).
  assert (Hlt : 2 ^ k < 2 ^ 31) by (apply Z.pow_lt_mono_r; lia).
  assert (Hones : Z.ones k mod 2 ^ 32 = Z.ones k).
  { apply Z.mod_small. rewrite Z.ones_equiv. change (2 ^ 32) with 4294967296.
    change (2 ^ 31) with 2147483648 in Hlt. lia. }
  rewrite Hones, Z.land_ones by lia.
  assert (Hmm : (n mod 2 ^ 32) mod 2 ^ k = n mod 2 ^ k).
  { replace 32 with ((32 - k) + k) by lia.
    rewrite Z.pow_add_r by lia.
    rewrite Z.mul_comm, Z.rem_mul_r by lia.
    rewrite Z.mul_comm, Z.mod_add by lia.
    apply Z.mod_mod; lia. }
  rewrite Hmm.
  pose proof (Z.mod_pos_bound n (2 ^ k) Hpk) as Hb.
  change (32 - 1) with 31.
  destruct (Z.ltb_spec (n mod 2 ^ k) (2 ^ 31)); lia.
Qed.

Lemma land_255 (n : Z) : Int.land n 255 = n mod 256.
Proof. apply (land_ones_mod n 8). unfold Int.bits. lia. Qed.

Lemma land_7 (n : Z) : Int.land n 7 = n mod 8.
Proof. apply (land_ones_mod n 3). unfold Int.bits. lia. Qed.

Lemma land_255_range (n : Z) : 0 <= Int.land n 255 <= 255.
Proof. rewrite land_255. pose proof (Z.mod_pos_bound n 256). lia. Qed.

Lemma land_7_range (n : Z) : 0 <= Int.land n 7 <= 7.
Proof. rewrite land_7. pose proof (Z.mod_pos_bound n 8). lia. Qed.

Lemma in_range_spec (n : Z) :
  Int.in_range n = true <-> -2147483648 <= n <= 2147483647.
Proof.
  unfold Int.in_range, Int.min_int, Int.max_int, Int.bits.
  change (- 2 ^ (32 - 1)) with (-2147483648).
  change (2 ^ (32 - 1) - 1) with 2147483647.
  rewrite andb_true_iff, Z.leb_le, Z.leb_le. tauto.
Qed.

End IntMask.

(** ** The permutation table *)

Section Table.

Lemma table_length : length permutationTable = 512%nat.
Proof. reflexivity. Qed.

Lemma table_values : Forall (fun v => 0 <= v <= 255) permutationTable.
Proof.
  apply Forall_forall. intros v Hv.
  assert (Hb : forallb (fun v => (0 <=? v) && (v <=? 255)) permutationTable = true)
    by (vm_compute; reflexivity).
  rewrite forallb_forall in Hb. apply list_elem_of_In in Hv.
  specialize (Hb v Hv). apply andb_true_iff in Hb. lia.
Qed.

(** An index in [0, 511] is inside the array and reads a value in
    [0, 255]. *)
Lemma table_at_defined (i : Z) :
  0 <= i <= 511 -> exists v, table_at i = Some v /\ 0 <= v <= 255.
Proof.
  intros Hi. unfold table_at.
  destruct (Z.leb_spec 0 i); [|lia].
  destruct (permutationTable !! Z.to_nat i) as [v|] eqn:Hl.
  - exists v. split; [reflexivity|].
    pose proof table_values as Hall. rewrite Forall_lookup in Hall.
    exact (Hall _ _ Hl).
  - apply lookup_ge_None in Hl. rewrite table_length in Hl. lia.
Qed.

(** Any other index is outside it. *)
Lemma table_at_outside (i : Z) : i < 0 \/ 512 <= i -> table_at i = None.
Proof.
  intros Hi. unfold table_at.
  destruct (Z.leb_spec 0 i); [|reflexivity].
  apply lookup_ge_None. rewrite table_length. lia.
Qed.

(** [permutationTable[permutationTable[a] + b]] for [a] in [0, 256]
    and [b] in [0, 256]: both reads are inside the array. *)
Lemma double_lookup_defined (a b : Z) :
  0 <= a <= 256 -> 0 <= b <= 256 ->
  exists p g, table_at a = Some p /\ 0 <= p + b <= 511 /\
              table_at (p + b) = Some g /\ 0 <= g <= 255.
Proof.
  intros Ha Hb.
  destruct (table_at_defined a) as (p & Hp & Hpr); [lia|].
  destruct (table_at_defined (p + b)) as (g & Hg & Hgr); [lia|].
  exists p, g. repeat split; auto; lia.
Qed.

End Table.

(** ** The shape of the table *)

Section TableShape.

Lemma table_first_half_NoDup : NoDup (take 256 permutationTable).
Proof.
  apply (bool_decide_unpack _). vm_compute. exact I.
Qed.

Lemma table_first_half_perm : take 256 permutationTable ≡ₚ seqZ 0 256.
Proof.
  apply NoDup_Permutation.
  - exact table_first_half_NoDup.
  - apply NoDup_seqZ.
  - intros v. rewrite elem_of_seqZ. split.
    + intros Hv. apply list_elem_of_In in Hv.
      assert (Hb : forallb (fun v => (0 <=? v) && (v <? 256))
                     (take 256 permutationTable) = true)
        by (vm_compute; reflexivity).
      rewrite forallb_forall in Hb. specialize (Hb v Hv).
      apply andb_true_iff in Hb. lia.
    + intros Hv.
      assert (Hb : forallb (fun v => bool_decide (v ∈ take 256 permutationTable))
                     (seqZ 0 256) = true)
        by (vm_compute; reflexivity).
      rewrite forallb_forall in Hb.
      eapply bool_decide_eq_true_1, Hb, list_elem_of_In, elem_of_seqZ. lia.
Qed.

Lemma table_count (v : Z) :
  0 <= v <= 255 -> count_occ Z.eq_dec permutationTable v = 2%nat.
Proof.
  intros Hv.
  assert (Hb : forallb (fun v => Nat.eqb (count_occ Z.eq_dec permutationTable v) 2)
                 (seqZ 0 256) = true)
    by (vm_compute; reflexivity).
  rewrite forallb_forall in Hb.
  apply Nat.eqb_eq, Hb, list_elem_of_In, elem_of_seqZ. lia.
Qed.

End TableShape.

(** ** Where the noise is defined *)

Section Defined.

Context {F : Type} {ops : FloatOps F}.

(** The [switch] covers exactly the hashes 0..7. *)
Lemma gradientDotDistance_defined (hash : Z) (x z : F) :
  0 <= hash <= 7 -> is_Some (gradientDotDistance hash x z).
Proof.
  intros Hh. hash_cases hash; simpl; eauto.
Qed.

Lemma gradientDotDistance_fall_through (hash : Z) (x z : F) :
  hash < 0 \/ 7 < hash -> gradientDotDistance hash x z = None.
Proof.
  intros Hh. unfold gradientDotDistance.
  destruct hash as [|p|p]; [lia| |reflexivity].
  do 3 (destruct p as [p|p|]; try reflexivity; try lia).
Qed.

Lemma masked_hash_defined (g : Z) (x z : F) :
  is_Some (gradientDotDistance (Int.land g 7) x z).
Proof. apply gradientDotDistance_defined, land_7_range. Qed.

(** With both cell indices in [0, 255] every step of [noiseCell] is
    defined. *)
Lemma noiseCell_defined (gridX gridZ : Z) (x z : F) :
  0 <= gridX <= 255 -> 0 <= gridZ <= 255 ->
  is_Some (noiseCell gridX gridZ x z).
Proof.
  intros HX HZ. unfold noiseCell.
  destruct (table_at_defined gridX) as (p0 & Hp0 & Hr0); [lia|].
  destruct (table_at_defined (gridX + 1)) as (p1 & Hp1 & Hr1); [lia|].
  destruct (table_at_defined (p0 + gridZ)) as (g00 & Hg00 & _); [lia|].
  destruct (table_at_defined (p1 + gridZ)) as (g10 & Hg10 & _); [lia|].
  destruct (table_at_defined (p0 + gridZ + 1)) as (g01 & Hg01 & _); [lia|].
  destruct (table_at_defined (p1 + gridZ + 1)) as (g11 & Hg11 & _); [lia|].
  rewrite Hp0, Hp1. cbn [mbind option_bind].
  rewrite Hg00, Hg10, Hg01, Hg11. cbn [mbind option_bind].
  destruct (masked_hash_defined g00 x z) as [d00 ->].
  destruct (masked_hash_defined g10 (x - of_int 1)%fl z) as [d10 ->].
  destruct (masked_hash_defined g01 x (z - of_int 1)%fl) as [d01 ->].
  destruct (masked_hash_defined g11 (x - of_int 1)%fl (z - of_int 1)%fl)
    as [d11 ->].
  cbn [mbind option_bind]. eauto.
Qed.

Lemma to_int_Some (x : F) (n : Z) :
  to_int x = Some n <-> trunc x = Some n /\ Int.in_range n = true.
Proof.
  unfold to_int. destruct (trunc x) as [m|]; cbn [mbind option_bind].
  - destruct (Int.in_range m) eqn:Hm; split.
    + intros [= ->]. auto.
    + intros [[= ->] _]. reflexivity.
    + discriminate.
    + intros [[= ->] Hn]. congruence.
  - split; [discriminate|]. intros [? _]. discriminate.
Qed.

(** A float whose integer part is outside [int] has no cell index. *)
Lemma to_int_out_of_range (x : F) (n : Z) :
  trunc x = Some n -> Int.in_range n = false -> to_int x = None.
Proof.
  intros Ht Hn. unfold to_int. rewrite Ht. cbn [mbind option_bind].
  rewrite Hn. reflexivity.
Qed.

Lemma gridIndex_Some (x : F) (g : Z) :
  gridIndex x = Some g <->
  exists n, trunc (ffloor x) = Some n /\ Int.in_range n = true /\ g = n mod 256.
Proof.
  unfold gridIndex. split.
  - destruct (to_int (ffloor x)) as [n|] eqn:Hn; cbn [mbind option_bind];
      [|discriminate].
    intros [= <-]. apply to_int_Some in Hn as [Ht Hr].
    exists n. rewrite land_255. auto.
  - intros (n & Ht & Hr & ->).
    assert (Hn : to_int (ffloor x) = Some n) by (apply to_int_Some; auto).
    rewrite Hn. cbn [mbind option_bind]. rewrite land_255. reflexivity.
Qed.

Lemma gridIndex_range (x : F) (g : Z) :
  gridIndex x = Some g -> 0 <= g <= 255.
Proof.
  intros (n & _ & _ & ->)%gridIndex_Some.
  pose proof (Z.mod_pos_bound n 256). lia.
Qed.

(** [noiseValue] is defined exactly when both casts are. *)
Lemma noiseValue_defined_iff (x z : F) :
  is_Some (noiseValue x z) <->
  is_Some (to_int (ffloor x)) /\ is_Some (to_int (ffloor z)).
Proof.
  unfold noiseValue, gridIndex.
  destruct (to_int (ffloor x)) as [nx|]; cbn [mbind option_bind].
  2:{ split; [intros [? [=]] | intros [[? [=]] _]]. }
  destruct (to_int (ffloor z)) as [nz|]; cbn [mbind option_bind].
  2:{ split; [intros [? [=]] | intros [_ [? [=]]]]. }
  split; [eauto|]. intros _.
  apply noiseCell_defined; apply land_255_range.
Qed.

End Defined.

(** ** The real model: cell indices *)

Section RealIndices.

Import RealModel.
Local Open Scope R_scope.

Variables rnd rndD : R -> R.

Lemma Zfloor_IZR (n : Z) : Zfloor (IZR n) = n.
Proof. apply Zfloor_eq. lra. Qed.

Lemma Rtrunc_IZR (n : Z) : Rtrunc (IZR n) = n.
Proof.
  unfold Rtrunc. destruct (Rle_dec 0 (IZR n)).
  - apply Zfloor_IZR.
  - rewrite <- opp_IZR, Zfloor_IZR. lia.
Qed.

(** Below zero and off the integers, truncation is one above the
    floor. *)
Lemma Rtrunc_negative (x : R) :
  x < 0 -> IZR (Zfloor x) <> x -> Rtrunc x = (Zfloor x + 1)%Z.
Proof.
  intros Hneg Hni. unfold Rtrunc.
  destruct (Rle_dec 0 x) as [Hle | _]; [lra|].
  pose proof (Zfloor_bound x) as Hb.
  assert (Hf : Zfloor (- x) = (- Zfloor x - 1)%Z).
  { apply Zfloor_eq. rewrite minus_IZR, opp_IZR. lra. }
  rewrite Hf. lia.
Qed.

Lemma to_int_floor_real (x : R) :
  to_int (ops := Rounded rnd rndD) (ffloor (FloatOps := Rounded rnd rndD) x) =
  if Int.in_range (Zfloor x) then Some (Zfloor x) else None.
Proof.
  unfold to_int. cbn [trunc ffloor Rounded mbind option_bind].
  rewrite Rtrunc_IZR. reflexivity.
Qed.

Lemma gridIndex_real (x : R) :
  gridIndex (ops := Rounded rnd rndD) x =
  if Int.in_range (Zfloor x) then Some (Zfloor x mod 256)%Z else None.
Proof.
  unfold gridIndex. rewrite to_int_floor_real.
  destruct (Int.in_range (Zfloor x)); cbn [mbind option_bind];
    [rewrite land_255|]; reflexivity.
Qed.

(** [noiseValue] in the real model: the noise of the cell of the two
    floors at the rounded fractional parts. *)
Lemma noiseValue_real (x z : R) :
  noiseValue (ops := Rounded rnd rndD) x z =
  if Int.in_range (Zfloor x) && Int.in_range (Zfloor z) then
    noiseCell (ops := Rounded rnd rndD)
      (Zfloor x mod 256) (Zfloor z mod 256)
      (rnd (x - IZR (Zfloor x))) (rnd (z - IZR (Zfloor z)))
  else None.
Proof.
  unfold noiseValue. rewrite !gridIndex_real.
  destruct (Int.in_range (Zfloor x)); cbn [mbind option_bind andb];
    [|reflexivity].
  destruct (Int.in_range (Zfloor z)); cbn [mbind option_bind];
    reflexivity.
Qed.

(** Moving [x] by 256 moves its floor by 256 and leaves the cell
    index and the fractional part where they were. *)
Lemma shift_256 (x : R) :
  Zfloor (x + 256) = (Zfloor x + 256)%Z /\
  (Zfloor (x + 256) mod 256 = Zfloor x mod 256)%Z /\
  x + 256 - IZR (Zfloor (x + 256)) = x - IZR (Zfloor x).
Proof.
  assert (Hf : Zfloor (x + 256) = (Zfloor x + 256)%Z)
    by (change 256 with (IZR 256); apply Zfloor_addz).
  rewrite Hf. split; [reflexivity|]. split.
  - replace (Zfloor x + 256)%Z with (Zfloor x + 1 * 256)%Z by lia.
    apply Z.mod_add. lia.
  - rewrite plus_IZR. lra.
Qed.

Lemma noiseValue_shift_x (x z : R) :
  Int.in_range (Zfloor x) = true ->
  Int.in_range (Zfloor x + 256) = true ->
  noiseValue (ops := Rounded rnd rndD) (x + 256) z =
  noiseValue (ops := Rounded rnd rndD) x z.
Proof.
  intros Hx Hx'. rewrite !noiseValue_real.
  destruct (shift_256 x) as (Hf & Hm & Hfrac).
  rewrite Hm, Hfrac, Hf, Hx, Hx'. reflexivity.
Qed.

Lemma noiseValue_shift_z (x z : R) :
  Int.in_range (Zfloor z) = true ->
  Int.in_range (Zfloor z + 256) = true ->
  noiseValue (ops := Rounded rnd rndD) x (z + 256) =
  noiseValue (ops := Rounded rnd rndD) x z.
Proof.
  intros Hz Hz'. rewrite !noiseValue_real.
  destruct (shift_256 z) as (Hf & Hm & Hfrac).
  rewrite Hm, Hfrac, Hf, Hz, Hz'. reflexivity.
Qed.

End RealIndices.

(** ** Exact arithmetic: the curve, the interpolation, the range *)

Section ExactNoise.

Import RealModel.
Local Open Scope R_scope.

Lemma fade_exact (t : R) :
  fade (ops := Exact) t = t * t * t * (t * (t * 6 - 15) + 10).
Proof. reflexivity. Qed.

Lemma lerp_exact (w a b : R) :
  lerp (ops := Exact) w a b = a * (1 - w) + b * w.
Proof. reflexivity. Qed.

Lemma rescale_exact (v : R) : rescale (ops := Exact) v = 1 / 2 * v + 1 / 2.
Proof. reflexivity. Qed.

(** On [0, 1] the curve stays in [0, 1]:
    [fade t = t^3 (6t^2 - 15t + 10)] and
    [1 - fade t = (1 - t)^3 (6t^2 + 3t + 1)]. *)
Lemma fade_range (t : R) :
  0 <= t <= 1 -> 0 <= fade (ops := Exact) t <= 1.
Proof.
  intros [H0 H1]. rewrite fade_exact. split.
  - apply Rmult_le_pos; [repeat apply Rmult_le_pos; assumption|].
    nra.
  - assert (Hc : 1 - t * t * t * (t * (t * 6 - 15) + 10) =
                 (1 - t) * (1 - t) * (1 - t) * (6 * t * t + 3 * t + 1))
      by ring.
    assert (Hp : 0 <= (1 - t) * (1 - t) * (1 - t) * (6 * t * t + 3 * t + 1)).
    { apply Rmult_le_pos; [repeat apply Rmult_le_pos; lra|]. nra. }
    lra.
Qed.

(** A weight in [0, 1] interpolates between the two ends. *)
Lemma lerp_between (w a b lo hi : R) :
  0 <= w <= 1 -> lo <= a <= hi -> lo <= b <= hi ->
  lo <= lerp (ops := Exact) w a b <= hi.
Proof.
  intros Hw Ha Hb. rewrite lerp_exact. split; nra.
Qed.

(** A dot product with one of the eight directions is at most the sum
    of the two offsets in magnitude. *)
Lemma gradientDotDistance_bound (hash : Z) (x z d : R) :
  gradientDotDistance (ops := Exact) hash x z = Some d ->
  -1 <= x <= 1 -> -1 <= z <= 1 -> -2 <= d <= 2.
Proof.
  intros Hd Hx Hz.
  destruct (decide (0 <= hash <= 7)%Z) as [Hin | Hout].
  - hash_cases hash; injection Hd as <-; cbn; lra.
  - rewrite gradientDotDistance_fall_through in Hd by lia. discriminate.
Qed.

Lemma noiseCell_range (gridX gridZ : Z) (x z r : R) :
  0 <= x < 1 -> 0 <= z < 1 ->
  noiseCell (ops := Exact) gridX gridZ x z = Some r ->
  -1 / 2 <= r <= 3 / 2.
Proof.
  intros Hx Hz. unfold noiseCell.
  destruct (table_at gridX) as [p0|]; cbn [mbind option_bind]; [|discriminate].
  destruct (table_at (p0 + gridZ)) as [g00|]; cbn [mbind option_bind];
    [|discriminate].
  destruct (table_at (gridX + 1)) as [p1|]; cbn [mbind option_bind];
    [|discriminate].
  destruct (table_at (p1 + gridZ)) as [g10|]; cbn [mbind option_bind];
    [|discriminate].
  destruct (table_at (p0 + gridZ + 1)) as [g01|]; cbn [mbind option_bind];
    [|discriminate].
  destruct (table_at (p1 + gridZ + 1)) as [g11|]; cbn [mbind option_bind];
    [|discriminate].
  destruct (gradientDotDistance _ x z) as [d00|] eqn:H00;
    cbn [mbind option_bind]; [|discriminate].
  destruct (gradientDotDistance _ (x - of_int 1)%fl z) as [d10|] eqn:H10;
    cbn [mbind option_bind]; [|discriminate].
  destruct (gradientDotDistance _ x (z - of_int 1)%fl) as [d01|] eqn:H01;
    cbn [mbind option_bind]; [|discriminate].
  destruct (gradientDotDistance _ (x - of_int 1)%fl (z - of_int 1)%fl)
    as [d11|] eqn:H11; cbn [mbind option_bind]; [|discriminate].
  intros [= <-].
  real_ops.
  apply gradientDotDistance_bound in H00; [|lra..].
  apply gradientDotDistance_bound in H10; [|lra..].
  apply gradientDotDistance_bound in H01; [|lra..].
  apply gradientDotDistance_bound in H11; [|lra..].
  pose proof (fade_range x ltac:(lra)) as Hu.
  pose proof (fade_range z ltac:(lra)) as Hv.
  pose proof (lerp_between _ _ _ (-2) 2 Hu H00 H10) as Hb.
  pose proof (lerp_between _ _ _ (-2) 2 Hu H01 H11) as Ht.
  pose proof (lerp_between _ _ _ (-2) 2 Hv Hb Ht) as Hr.
  rewrite !lerp_exact, !fade_exact in Hr.
  lra.
Qed.

Lemma noiseValue_range (x z r : R) :
  noiseValue (ops := Exact) x z = Some r -> -1 / 2 <= r <= 3 / 2.
Proof.
  unfold Exact. rewrite noiseValue_real.
  destruct (_ && _); [|discriminate].
  pose proof (Zfloor_bound x). pose proof (Zfloor_bound z).
  apply noiseCell_range; lra.
Qed.

(** The curve is on the side of [1/2] where its argument is:
    [fade t - 1/2 = (t - 1/2) (6t^2 (t-1)^2 + 2t (1-t) + 1)].  So the
    average distance to the two ends of an axis, weighted by the
    curve, is at most [1/2]. *)
Lemma fade_half (t : R) :
  0 <= t <= 1 ->
  t * (1 - fade (ops := Exact) t) + (1 - t) * fade (ops := Exact) t <= 1 / 2.
Proof.
  intros [H0 H1]. rewrite fade_exact.
  set (Q := 6 * (t * t) * ((t - 1) * (t - 1)) + 2 * t * (1 - t) + 1).
  assert (HQ : 0 <= Q).
  { unfold Q. pose proof (Rle_0_sqr t) as Ht. pose proof (Rle_0_sqr (t - 1)) as Ht1.
    unfold Rsqr in *.
    assert (0 <= 6 * (t * t) * ((t - 1) * (t - 1)))
      by (apply Rmult_le_pos; [lra|assumption]).
    assert (0 <= 2 * t * (1 - t)) by (apply Rmult_le_pos; lra).
    lra. }
  assert (Hid : 1 / 2 -
                (t * (1 - t * t * t * (t * (t * 6 - 15) + 10)) +
                 (1 - t) * (t * t * t * (t * (t * 6 - 15) + 10))) =
                2 * ((t - 1 / 2) * (t - 1 / 2)) * Q)
    by (unfold Q; field).
  assert (Hp : 0 <= 2 * ((t - 1 / 2) * (t - 1 / 2)) * Q).
  { apply Rmult_le_pos; [|exact HQ].
    pose proof (Rle_0_sqr (t - 1 / 2)) as Hs. unfold Rsqr in Hs. lra. }
  lra.
Qed.

(** A dot product with one of the eight directions is at most the sum
    of the magnitudes of the offsets. *)
Lemma gradientDotDistance_sum (hash : Z) (x z d X Z : R) :
  gradientDotDistance (ops := Exact) hash x z = Some d ->
  - X <= x <= X -> - Z <= z <= Z -> - (X + Z) <= d <= X + Z.
Proof.
  intros Hd Hx Hz.
  destruct (decide (0 <= hash <= 7)%Z) as [Hin | Hout].
  - hash_cases hash; injection Hd as <-; cbn; lra.
  - rewrite gradientDotDistance_fall_through in Hd by lia. discriminate.
Qed.

(** The interpolation of four corner values bounded by the distances
    to the corners is at most 1 in magnitude. *)
Lemma blend_bound (a b u v d00 d10 d01 d11 : R) :
  0 <= a <= 1 -> 0 <= b <= 1 -> 0 <= u <= 1 -> 0 <= v <= 1 ->
  a * (1 - u) + (1 - a) * u <= 1 / 2 ->
  b * (1 - v) + (1 - b) * v <= 1 / 2 ->
  - (a + b) <= d00 <= a + b ->
  - (1 - a + b) <= d10 <= 1 - a + b ->
  - (a + (1 - b)) <= d01 <= a + (1 - b) ->
  - (1 - a + (1 - b)) <= d11 <= 1 - a + (1 - b) ->
  -1 <= (d00 * (1 - u) + d10 * u) * (1 - v) +
        (d01 * (1 - u) + d11 * u) * v <= 1.
Proof.
  intros Ha Hb Hu Hv Hga Hgb H00 H10 H01 H11.
  set (L1 := d00 * (1 - u) + d10 * u).
  set (L2 := d01 * (1 - u) + d11 * u).
  set (ga := a * (1 - u) + (1 - a) * u) in *.
  assert (HL1 : - (b + ga) <= L1 <= b + ga).
  { unfold L1, ga.
    assert (- (a + b) * (1 - u) <= d00 * (1 - u) <= (a + b) * (1 - u))
      by (split; apply Rmult_le_compat_r; lra).
    assert (- (1 - a + b) * u <= d10 * u <= (1 - a + b) * u)
      by (split; apply Rmult_le_compat_r; lra).
    split; lra. }
  assert (HL2 : - (1 - b + ga) <= L2 <= 1 - b + ga).
  { unfold L2, ga.
    assert (- (a + (1 - b)) * (1 - u) <= d01 * (1 - u) <= (a + (1 - b)) * (1 - u))
      by (split; apply Rmult_le_compat_r; lra).
    assert (- (1 - a + (1 - b)) * u <= d11 * u <= (1 - a + (1 - b)) * u)
      by (split; apply Rmult_le_compat_r; lra).
    split; lra. }
  clearbody L1 L2 ga.
  assert (- (b + ga) * (1 - v) <= L1 * (1 - v) <= (b + ga) * (1 - v))
    by (split; apply Rmult_le_compat_r; lra).
  assert (- (1 - b + ga) * v <= L2 * v <= (1 - b + ga) * v)
    by (split; apply Rmult_le_compat_r; lra).
  split; lra.
Qed.

(** With offsets in [[0, 1]] the noise of a cell is in [[0, 1]]. *)
Lemma noiseCell_unit (gridX gridZ : Z) (x z r : R) :
  0 <= x <= 1 -> 0 <= z <= 1 ->
  noiseCell (ops := Exact) gridX gridZ x z = Some r ->
  0 <= r <= 1.
Proof.
  intros Hx Hz. unfold noiseCell.
  destruct (table_at gridX) as [p0|]; cbn [mbind option_bind]; [|discriminate].
  destruct (table_at (p0 + gridZ)) as [g00|]; cbn [mbind option_bind];
    [|discriminate].
  destruct (table_at (gridX + 1)) as [p1|]; cbn [mbind option_bind];
    [|discriminate].
  destruct (table_at (p1 + gridZ)) as [g10|]; cbn [mbind option_bind];
    [|discriminate].
  destruct (table_at (p0 + gridZ + 1)) as [g01|]; cbn [mbind option_bind];
    [|discriminate].
  destruct (table_at (p1 + gridZ + 1)) as [g11|]; cbn [mbind option_bind];
    [|discriminate].
  destruct (gradientDotDistance _ x z) as [d00|] eqn:H00;
    cbn [mbind option_bind]; [|discriminate].
  destruct (gradientDotDistance _ (x - of_int 1)%fl z) as [d10|] eqn:H10;
    cbn [mbind option_bind]; [|discriminate].
  destruct (gradientDotDistance _ x (z - of_int 1)%fl) as [d01|] eqn:H01;
    cbn [mbind option_bind]; [|discriminate].
  destruct (gradientDotDistance _ (x - of_int 1)%fl (z - of_int 1)%fl)
    as [d11|] eqn:H11; cbn [mbind option_bind]; [|discriminate].
  intros [= <-].
  real_ops.
  apply (gradientDotDistance_sum _ _ _ _ x z) in H00; [|lra..].
  apply (gradientDotDistance_sum _ _ _ _ (1 - x) z) in H10; [|lra..].
  apply (gradientDotDistance_sum _ _ _ _ x (1 - z)) in H01; [|lra..].
  apply (gradientDotDistance_sum _ _ _ _ (1 - x) (1 - z)) in H11; [|lra..].
  pose proof (fade_range x Hx) as Hu.
  pose proof (fade_range z Hz) as Hv.
  pose proof (fade_half x Hx) as Hgx.
  pose proof (fade_half z Hz) as Hgz.
  pose proof (blend_bound x z _ _ d00 d10 d01 d11 Hx Hz Hu Hv Hgx Hgz
                H00 H10 H01 H11) as Hb.
  rewrite !fade_exact in Hb.
  lra.
Qed.

End ExactNoise.

(** ** Lattice points, under any roundings that keep 0, 1/2, 1 and 2 *)

Section Lattice.

Import RealModel.
Local Open Scope R_scope.

Variables rnd rndD : R -> R.
Hypothesis rnd_0 : rnd 0 = 0.
Hypothesis rnd_half : rnd (1 / 2) = 1 / 2.
Hypothesis rnd_1 : rnd 1 = 1.
Hypothesis rnd_2 : rnd 2 = 2.
Hypothesis rndD_0 : rndD 0 = 0.
Hypothesis rndD_half : rndD (1 / 2) = 1 / 2.
Hypothesis rndD_1 : rndD 1 = 1.
Hypothesis rndD_2 : rndD 2 = 2.

Lemma one_half_rounded : one_half (ops := Rounded rnd rndD) = 1 / 2.
Proof.
  unfold one_half. real_ops. rewrite rnd_1, rnd_2. exact rnd_half.
Qed.

Lemma fade_zero : fade (ops := Rounded rnd rndD) 0 = 0.
Proof.
  unfold fade. real_ops.
  rewrite (Rmult_0_l (rnd 6)), rnd_0.
  rewrite (Rmult_0_l (rnd (0 - rnd 15))), rnd_0.
  rewrite (Rmult_0_l 0), rnd_0, (Rmult_0_l 0), rnd_0.
  rewrite Rmult_0_l. exact rnd_0.
Qed.

(** The rescaling of 0 is [0.5]. *)
Lemma rescale_zero : rescale (ops := Rounded rnd rndD) 0 = 1 / 2.
Proof.
  unfold rescale, one_half_d. rewrite one_half_rounded. real_ops.
  rewrite rndD_1, rndD_2, rndD_half, Rmult_0_r, rndD_0, Rplus_0_l, rndD_half.
  exact rnd_half.
Qed.

(** With weight zero the second end does not contribute. *)
Lemma lerp_zero_weight (a b : R) :
  lerp (ops := Rounded rnd rndD) 0 a b = rnd (rnd a).
Proof.
  unfold lerp. real_ops.
  rewrite Rmult_0_r, rnd_0, Rplus_0_r, rnd_1, Rminus_0_r, rnd_1, Rmult_1_r.
  reflexivity.
Qed.

Lemma lerp_zero_weight_exact (a b : R) :
  rnd a = a -> lerp (ops := Rounded rnd rndD) 0 a b = a.
Proof. intros Ha. rewrite lerp_zero_weight, Ha, Ha. reflexivity. Qed.

(** At the corner itself the offset is (0, 0) and every direction
    gives the dot product 0. *)
Lemma gradientDotDistance_zero (hash : Z) :
  (0 <= hash <= 7)%Z ->
  gradientDotDistance (ops := Rounded rnd rndD) hash 0 0 = Some 0.
Proof.
  intros Hh. hash_cases hash; cbn [gradientDotDistance]; real_ops;
    rewrite ?Ropp_0, ?Rplus_0_r, ?Rminus_0_r, ?rnd_0; reflexivity.
Qed.

Lemma noiseCell_corner (gridX gridZ : Z) :
  (0 <= gridX <= 255)%Z -> (0 <= gridZ <= 255)%Z ->
  noiseCell (ops := Rounded rnd rndD) gridX gridZ 0 0 = Some (1 / 2).
Proof.
  intros HX HZ. unfold noiseCell.
  destruct (table_at_defined gridX) as (p0 & Hp0 & Hr0); [lia|].
  destruct (table_at_defined (gridX + 1)) as (p1 & Hp1 & Hr1); [lia|].
  destruct (table_at_defined (p0 + gridZ)) as (g00 & Hg00 & _); [lia|].
  destruct (table_at_defined (p1 + gridZ)) as (g10 & Hg10 & _); [lia|].
  destruct (table_at_defined (p0 + gridZ + 1)) as (g01 & Hg01 & _); [lia|].
  destruct (table_at_defined (p1 + gridZ + 1)) as (g11 & Hg11 & _); [lia|].
  rewrite Hp0, Hp1. cbn [mbind option_bind].
  rewrite Hg00, Hg10, Hg01, Hg11. cbn [mbind option_bind].
  rewrite (gradientDotDistance_zero _ (land_7_range g00)).
  repeat match goal with
    | |- context [gradientDotDistance (Int.land ?g 7) ?a ?b] =>
        destruct (masked_hash_defined (ops := Rounded rnd rndD) g a b) as [? ->];
        cbn [mbind option_bind]
    end.
  cbn [mbind option_bind]. f_equal.
  rewrite fade_zero, !lerp_zero_weight, !rnd_0.
  exact rescale_zero.
Qed.

(** With both weights zero the noise of a cell is the rescaled dot
    product at its first corner, whatever the three others give. *)
Lemma noiseCell_zero_weights (gridX gridZ p g00 : Z) (x z d : R) :
  (0 <= gridX <= 255)%Z -> (0 <= gridZ <= 255)%Z ->
  table_at gridX = Some p -> table_at (p + gridZ) = Some g00 ->
  fade (ops := Rounded rnd rndD) x = 0 ->
  fade (ops := Rounded rnd rndD) z = 0 ->
  gradientDotDistance (ops := Rounded rnd rndD) (Int.land g00 7) x z =
    Some d ->
  rnd d = d ->
  noiseCell (ops := Rounded rnd rndD) gridX gridZ x z =
  Some (rescale (ops := Rounded rnd rndD) d).
Proof.
  intros HX HZ Hp Hg Hu Hv Hd Hrd. unfold noiseCell. cbv zeta.
  destruct (table_at_defined gridX) as (p0 & Hp0 & Hr0); [lia|].
  rewrite Hp in Hp0. injection Hp0 as <-.
  destruct (table_at_defined (gridX + 1)) as (p1 & Hp1 & Hr1); [lia|].
  destruct (table_at_defined (p1 + gridZ)) as (g10 & Hg10 & _); [lia|].
  destruct (table_at_defined (p + gridZ + 1)) as (g01 & Hg01 & _); [lia|].
  destruct (table_at_defined (p1 + gridZ + 1)) as (g11 & Hg11 & _); [lia|].
  rewrite Hp, Hp1. cbn [mbind option_bind].
  rewrite Hg, Hg10, Hg01, Hg11. cbn [mbind option_bind].
  rewrite Hd. cbn [mbind option_bind].
  repeat match goal with
    | |- context [gradientDotDistance (Int.land ?g 7) ?a ?b] =>
        destruct (masked_hash_defined (ops := Rounded rnd rndD) g a b) as [? ->];
        cbn [mbind option_bind]
    end.
  f_equal. rewrite Hu, Hv, !lerp_zero_weight, !Hrd. reflexivity.
Qed.

Lemma noiseValue_lattice (i j : Z) :
  Int.in_range i = true -> Int.in_range j = true ->
  noiseValue (ops := Rounded rnd rndD) (IZR i) (IZR j) = Some (1 / 2).
Proof.
  intros Hi Hj. rewrite noiseValue_real, !Zfloor_IZR, Hi, Hj.
  cbn [andb]. rewrite !Rminus_diag, rnd_0.
  apply noiseCell_corner; rewrite <- land_255; apply land_255_range.
Qed.

End Lattice.

(** ** The gradient selection and the octave sum against their tables *)

Section AgainstSpecification.

Context {F : Type} {ops : FloatOps F}.

Lemma gradientDotDistance_formulas (h : Z) (fx fz : F) :
  0 <= h <= 7 ->
  gradientDotDistance h fx fz = gradient_formulas fx fz !! Z.to_nat h.
Proof. intros Hh. hash_cases h; reflexivity. Qed.

Lemma heightAt_octaves (pow : double -> double -> double) (x z : F) :
  heightAt pow x z = heightAt_spec pow x z.
Proof.
  unfold heightAt, heightAt_spec, octaves, octave_term.
  cbn [mapM fst snd].
  repeat match goal with
    | |- context [noiseValue ?a ?b] =>
        destruct (noiseValue a b); cbn [mbind option_bind mret option_ret];
        try reflexivity
    end.
Qed.

End AgainstSpecification.

Section ExactGradient.

Import RealModel.
Local Open Scope R_scope.

Lemma gradientDotDistance_dot (h : Z) (fx fz : R) :
  (0 <= h <= 7)%Z ->
  gradientDotDistance (ops := Exact) h fx fz =
  gradient_dot_spec (ops := Exact) h fx fz.
Proof.
  intros Hh.
  hash_cases h; cbn [gradientDotDistance];
    unfold gradient_dot_spec;
    simpl (0 <=? _)%Z; cbv iota;
    match goal with
    | |- context [gradient_directions !! ?n] =>
        let v := eval vm_compute in (gradient_directions !! n) in
        change (gradient_directions !! n) with v
    end;
    cbn [mbind option_bind fst snd]; real_ops; f_equal; ring.
Qed.

End ExactGradient.

(** ** The derivative of the curve *)

Section FadeDerivative.

Import RealModel.
Local Open Scope R_scope.

Lemma fade_polynomial (t : R) :
  fade (ops := Exact) t = 6 * t ^ 5 - 15 * t ^ 4 + 10 * t ^ 3.
Proof. rewrite fade_exact. ring. Qed.

(** The derivative of [fade] at [t] is [30 t^2 (t - 1)^2]. *)
Lemma fade_derivative (t : R) :
  derivable_pt_lim (fade (ops := Exact)) t (30 * t ^ 2 * (t - 1) ^ 2).
Proof.
  evar (l : R).
  assert (Hd : derivable_pt_lim
                 ((id * id * id) *
                  (id * (id * fct_cte 6 - fct_cte 15) + fct_cte 10))%F t l).
  { unfold l.
    repeat first
      [ apply derivable_pt_lim_const
      | apply derivable_pt_lim_id
      | apply derivable_pt_lim_minus
      | apply derivable_pt_lim_plus
      | apply derivable_pt_lim_mult ]. }
  replace (30 * t ^ 2 * (t - 1) ^ 2) with l.
  - exact Hd.
  - unfold l, mult_fct, plus_fct, minus_fct, fct_cte, id. ring.
Qed.

End FadeDerivative.

(** ** binary32: integers are floats *)

Section Binary32Integers.

Import Binary32.

Lemma iter_xO_pos (p k : positive) :
  Z.pos (Pos.iter xO p k) = Z.pos p * 2 ^ Z.pos k.
Proof.
  induction k as [|k IH] using Pos.peano_ind.
  - cbn [Pos.iter]. change (2 ^ 1) with 2. lia.
  - rewrite Pos.iter_succ, Pos2Z.inj_succ, Z.pow_succ_r by lia.
    change (Z.pos (Pos.iter xO p k)~0) with (2 * Z.pos (Pos.iter xO p k)).
    rewrite IH. ring.
Qed.

Lemma iter_xO_digits (p k : positive) :
  Z.pos (digits2_pos (Pos.iter xO p k)) = Z.pos (digits2_pos p) + Z.pos k.
Proof.
  induction k as [|k IH] using Pos.peano_ind.
  - cbn [Pos.iter digits2_pos]. lia.
  - rewrite Pos.iter_succ. cbn [digits2_pos]. lia.
Qed.

(** The number of binary digits bounds the number. *)
Lemma digits2_pos_bound (p : positive) :
  2 ^ (Z.pos (digits2_pos p) - 1) <= Z.pos p < 2 ^ Z.pos (digits2_pos p).
Proof.
  induction p as [p IH | p IH |]; cbn [digits2_pos].
  - rewrite Pos2Z.inj_succ, Z.pow_succ_r by lia.
    replace (Z.succ (Z.pos (digits2_pos p)) - 1)
      with (Z.succ (Z.pos (digits2_pos p) - 1)) by lia.
    rewrite Z.pow_succ_r by lia. lia.
  - rewrite Pos2Z.inj_succ, Z.pow_succ_r by lia.
    replace (Z.succ (Z.pos (digits2_pos p)) - 1)
      with (Z.succ (Z.pos (digits2_pos p) - 1)) by lia.
    rewrite Z.pow_succ_r by lia. lia.
  - cbn. lia.
Qed.

(** A mantissa already in canonical form is left as it is, in any
    format. *)
Lemma binary_round_aux_canonical (p em : Z) (s : bool) (m : positive) (e : Z) :
  canonical_mantissa p em m e = true -> e <= em - p ->
  binary_round_aux p em s (Z.pos m) e loc_Exact = S754_finite s m e.
Proof.
  unfold canonical_mantissa. intros Hc He. apply Z.eqb_eq in Hc.
  unfold binary_round_aux, shr_fexp. cbn [Zdigits2 shr_record_of_loc].
  rewrite Hc, Z.sub_diag. cbn [shr shr_m loc_of_shr_record round_nearest_even].
  cbn [Zdigits2]. rewrite Hc, Z.sub_diag. cbn [shr shr_m].
  apply Z.leb_le in He. rewrite He. reflexivity.
Qed.

(** The float of a positive integer of at most 24 digits: the integer
    shifted left to 24 digits. *)
Lemma binary_round_small (s : bool) (p : positive) :
  Z.pos (digits2_pos p) <= 24 ->
  exists (m : positive) (k : Z),
    binary_round prec emax s p 0 = S754_finite s m (- k) /\
    0 <= k <= 23 /\ Z.pos m = Z.pos p * 2 ^ k.
Proof.
  intros Hd. unfold binary_round, shl_align.
  assert (Hf : fexp prec emax (Z.pos (digits2_pos p) + 0) =
               Z.pos (digits2_pos p) - 24).
  { unfold fexp, emin, prec, emax. lia. }
  rewrite Hf.
  destruct (Z.pos (digits2_pos p) - 24 - 0) as [|q|q] eqn:Hq; [|lia|].
  - exists p, 0. rewrite Z.pow_0_r, Z.mul_1_r. split; [|split; [lia|reflexivity]].
    apply binary_round_aux_canonical; [|unfold prec, emax; lia].
    unfold canonical_mantissa. apply Z.eqb_eq.
    unfold fexp, emin, prec, emax. lia.
  - exists (Pos.iter xO p q), (Z.pos q).
    split; [|split; [lia|apply iter_xO_pos]].
    replace (- Z.pos q) with (Z.pos (digits2_pos p) - 24) by lia.
    apply binary_round_aux_canonical; [|unfold prec, emax; lia].
    unfold canonical_mantissa. apply Z.eqb_eq. rewrite iter_xO_digits.
    unfold fexp, emin, prec, emax. lia.
Qed.

Lemma digits_of_small (p : positive) :
  Z.pos p < 2 ^ 24 -> Z.pos (digits2_pos p) <= 24.
Proof.
  intros Hp. pose proof (digits2_pos_bound p) as [Hlo _].
  destruct (Z_le_gt_dec (Z.pos (digits2_pos p)) 24) as [|Hgt]; [assumption|].
  assert (2 ^ 24 <= 2 ^ (Z.pos (digits2_pos p) - 1))
    by (apply Z.pow_le_mono_r; lia).
  lia.
Qed.

(** An integer below [2^24] in magnitude is a float: its conversion
    has its sign, and a mantissa and exponent that give it back. *)
Lemma of_Z_small (n : Z) :
  0 < Z.abs n < 2 ^ 24 ->
  exists (m : positive) (k : Z),
    of_Z n = S754_finite (n <? 0) m (- k) /\
    0 <= k <= 23 /\ Z.pos m = Z.abs n * 2 ^ k.
Proof.
  intros Hn. unfold of_Z, binary_normalize.
  destruct n as [|p|p]; [lia| |].
  - apply binary_round_small, digits_of_small. lia.
  - apply binary_round_small, digits_of_small. lia.
Qed.

Lemma shiftl_neg_exact (a k : Z) : 0 <= k -> Z.shiftl (a * 2 ^ k) (- k) = a.
Proof.
  intros Hk. rewrite Z.shiftl_opp_r, Z.shiftr_div_pow2 by lia.
  apply Z.div_mul. apply Z.pow_nonzero; lia.
Qed.

Lemma cond_Zopp_abs (n : Z) : cond_Zopp (n <? 0) (Z.abs n) = n.
Proof. unfold cond_Zopp. destruct (Z.ltb_spec n 0); lia. Qed.

(** Such an integer is the integer part of its float... *)
Lemma b32_trunc_of_Z (n : Z) :
  Z.abs n < 2 ^ 24 -> b32_trunc (of_Z n) = Some n.
Proof.
  intros Hn. destruct (Z.eq_dec n 0) as [-> | Hnz]; [reflexivity|].
  destruct (of_Z_small n) as (m & k & -> & Hk & Hm); [lia|].
  cbn [b32_trunc]. rewrite Hm, shiftl_neg_exact by lia.
  rewrite cond_Zopp_abs. reflexivity.
Qed.

(** ... and that float is its own floor. *)
Lemma b32_floor_of_Z (n : Z) :
  Z.abs n < 2 ^ 24 -> b32_floor (of_Z n) = of_Z n.
Proof.
  intros Hn. destruct (Z.eq_dec n 0) as [-> | Hnz]; [reflexivity|].
  destruct (of_Z_small n) as (m & k & Hof & Hk & Hm); [lia|].
  rewrite Hof. cbn [b32_floor].
  destruct (Z.leb_spec 0 (- k)) as [|Hneg]; [reflexivity|].
  rewrite <- Hof.
  assert (Hs : Z.shiftl (cond_Zopp (n <? 0) (Z.pos m)) (- k) = n).
  { rewrite Hm. replace (cond_Zopp (n <? 0) (Z.abs n * 2 ^ k))
      with (cond_Zopp (n <? 0) (Z.abs n) * 2 ^ k)
      by (unfold cond_Zopp; destruct (n <? 0); ring).
    rewrite shiftl_neg_exact by lia. apply cond_Zopp_abs. }
  rewrite Hs. unfold of_Z, binary_normalize.
  destruct n; [contradiction|reflexivity..].
Qed.

(** A finite float minus itself is [+0]. *)
Lemma SFsub_diag (x : spec_float) :
  is_finite x = true -> SFsub prec emax x x = S754_zero false.
Proof.
  destruct x as [s | s | | s m e]; try discriminate; intros _.
  - destruct s; reflexivity.
  - cbn [SFsub]. rewrite Z.min_id. unfold shl_align.
    rewrite Z.sub_diag. reflexivity.
Qed.

(** A float in canonical form has a mantissa below [2^24]. *)
Lemma valid_mantissa (s : bool) (m : positive) (e : Z) :
  valid_binary prec emax (S754_finite s m e) = true -> Z.pos m < 2 ^ 24.
Proof.
  cbn [valid_binary]. unfold bounded, canonical_mantissa.
  intros [Hc _]%andb_true_iff. apply Z.eqb_eq in Hc.
  pose proof (digits2_pos_bound m) as [_ Hhi].
  assert (Hd : Z.pos (digits2_pos m) <= 24)
    by (unfold fexp, emin, prec, emax in Hc; lia).
  assert (2 ^ Z.pos (digits2_pos m) <= 2 ^ 24)
    by (apply Z.pow_le_mono_r; lia).
  lia.
Qed.

(** [floor_value] is the floor: with a negative exponent it is the
    integer [n] with [n * 2^(-e) <= ± m < (n + 1) * 2^(-e)]; otherwise
    the value [± m * 2^e] itself. *)
Lemma floor_value_spec (s : bool) (m : positive) (e n : Z) :
  floor_value (S754_finite s m e) = Some n ->
  (e < 0 -> n * 2 ^ (- e) <= cond_Zopp s (Z.pos m) < (n + 1) * 2 ^ (- e)) /\
  (0 <= e -> n = cond_Zopp s (Z.pos m) * 2 ^ e).
Proof.
  cbn [floor_value]. intros [= <-]. split; intros He.
  - replace e with (- - e) at 1 3 by lia.
    rewrite Z.shiftl_opp_r, Z.shiftr_div_pow2 by lia.
    assert (Hp : 0 < 2 ^ (- e)) by (apply Z.pow_pos_nonneg; lia).
    pose proof (Z.div_mod (cond_Zopp s (Z.pos m)) (2 ^ (- e)) ltac:(lia)).
    pose proof (Z.mod_pos_bound (cond_Zopp s (Z.pos m)) (2 ^ (- e)) Hp).
    nia.
  - apply Z.shiftl_mul_pow2. assumption.
Qed.

(** The integer part of [floor x] is the floor of the value of [x]. *)
Lemma b32_trunc_floor (x : spec_float) :
  valid_binary prec emax x = true ->
  b32_trunc (b32_floor x) = floor_value x.
Proof.
  destruct x as [s | s | | s m e]; try reflexivity. intros Hv.
  pose proof (valid_mantissa s m e Hv) as Hm.
  cbn [b32_floor floor_value].
  destruct (Z.leb_spec 0 e) as [He | He].
  - cbn [b32_trunc]. rewrite !Z.shiftl_mul_pow2 by lia.
    f_equal. unfold cond_Zopp. destruct s; [ring|reflexivity].
  - set (n := Z.shiftl (cond_Zopp s (Z.pos m)) e).
    assert (Hn : Z.abs n < 2 ^ 24).
    { destruct (floor_value_spec s m e n eq_refl) as [Hb _].
      specialize (Hb He).
      assert (Hp : 2 <= 2 ^ (- e)).
      { change 2 with (2 ^ 1) at 1. apply Z.pow_le_mono_r; lia. }
      unfold cond_Zopp in Hb. destruct s; nia. }
    destruct (Z.eq_dec n 0) as [Hz | Hnz].
    + rewrite Hz. reflexivity.
    + replace (binary_normalize prec emax n 0 s) with (of_Z n)
        by (unfold of_Z, binary_normalize; destruct n; [contradiction|reflexivity..]).
      apply b32_trunc_of_Z, Hn.
Qed.

End Binary32Integers.

(** ** binary32: cell indices and lattice points *)

Section Binary32Noise.

Import Binary32.
Local Existing Instance binary32.

Lemma noiseCell_corner_blend {F : Type} {ops : FloatOps F}
    (gridX gridZ : Z) (x z : F) :
  noiseCell gridX gridZ x z =
  g00 ← (p ← table_at gridX; table_at (p + gridZ));
  g10 ← (p ← table_at (gridX + 1); table_at (p + gridZ));
  g01 ← (p ← table_at gridX; table_at (p + gridZ + 1));
  g11 ← (p ← table_at (gridX + 1); table_at (p + gridZ + 1));
  corner_blend (Int.land g00 7) (Int.land g10 7)
               (Int.land g01 7) (Int.land g11 7) x z.
Proof. reflexivity. Qed.

(** At the offsets [(+0, +0)] every choice of the four hashes gives
    0.5: all 4096 are evaluated. *)
Lemma b32_corner_blend_all :
  forallb (fun a => forallb (fun b => forallb (fun c => forallb (fun d =>
    bool_decide (corner_blend a b c d (S754_zero false) (S754_zero false) =
                 Some one_half))
    (seqZ 0 8)) (seqZ 0 8)) (seqZ 0 8)) (seqZ 0 8) = true.
Proof. vm_compute. reflexivity. Qed.

Lemma b32_corner_blend_zero (h00 h10 h01 h11 : Z) :
  0 <= h00 <= 7 -> 0 <= h10 <= 7 -> 0 <= h01 <= 7 -> 0 <= h11 <= 7 ->
  corner_blend h00 h10 h01 h11 (S754_zero false) (S754_zero false) =
  Some one_half.
Proof.
  intros Ha Hb Hc Hd.
  assert (Hin : forall h, 0 <= h <= 7 -> In h (seqZ 0 8))
    by (intros h Hh; apply list_elem_of_In, elem_of_seqZ; lia).
  pose proof b32_corner_blend_all as Hall.
  rewrite forallb_forall in Hall. specialize (Hall h00 (Hin _ Ha)).
  rewrite forallb_forall in Hall. specialize (Hall h10 (Hin _ Hb)).
  rewrite forallb_forall in Hall. specialize (Hall h01 (Hin _ Hc)).
  rewrite forallb_forall in Hall. specialize (Hall h11 (Hin _ Hd)).
  exact (bool_decide_eq_true_1 _ Hall).
Qed.

Lemma b32_noiseCell_corner (gridX gridZ : Z) :
  0 <= gridX <= 255 -> 0 <= gridZ <= 255 ->
  noiseCell gridX gridZ (S754_zero false) (S754_zero false) = Some one_half.
Proof.
  intros HX HZ. rewrite noiseCell_corner_blend.
  destruct (table_at_defined gridX) as (p0 & Hp0 & Hr0); [lia|].
  destruct (table_at_defined (gridX + 1)) as (p1 & Hp1 & Hr1); [lia|].
  destruct (table_at_defined (p0 + gridZ)) as (g00 & Hg00 & _); [lia|].
  destruct (table_at_defined (p1 + gridZ)) as (g10 & Hg10 & _); [lia|].
  destruct (table_at_defined (p0 + gridZ + 1)) as (g01 & Hg01 & _); [lia|].
  destruct (table_at_defined (p1 + gridZ + 1)) as (g11 & Hg11 & _); [lia|].
  rewrite Hp0, Hp1. cbn [mbind option_bind].
  rewrite Hg00, Hg10, Hg01, Hg11. cbn [mbind option_bind].
  apply b32_corner_blend_zero; apply land_7_range.
Qed.

(** The cast of [floor x], for a float in canonical form. *)
Lemma b32_to_int_floor (x : spec_float) :
  valid_binary prec emax x = true ->
  to_int (b32_floor x) =
  n ← floor_value x; if Int.in_range n then Some n else None.
Proof.
  intros Hv. unfold to_int. cbn [trunc binary32].
  rewrite (b32_trunc_floor x Hv). reflexivity.
Qed.

Lemma b32_gridIndex (x : spec_float) :
  valid_binary prec emax x = true ->
  gridIndex x =
  n ← floor_value x; if Int.in_range n then Some (n mod 256) else None.
Proof.
  intros Hv. unfold gridIndex. cbn [ffloor binary32].
  rewrite (b32_to_int_floor x Hv).
  destruct (floor_value x) as [n|]; cbn [mbind option_bind]; [|reflexivity].
  destruct (Int.in_range n); cbn [mbind option_bind]; [|reflexivity].
  rewrite land_255. reflexivity.
Qed.

(** At integers below [2^24] in magnitude, which are floats, the noise
    is 0.5. *)
Lemma b32_noiseValue_lattice (i j : Z) :
  Z.abs i < 2 ^ 24 -> Z.abs j < 2 ^ 24 ->
  noiseValue (of_Z i) (of_Z j) = Some one_half.
Proof.
  intros Hi Hj. unfold noiseValue, gridIndex, to_int.
  cbn [ffloor trunc fsub binary32].
  rewrite !b32_floor_of_Z, !b32_trunc_of_Z by assumption.
  cbn [mbind option_bind].
  assert (Hri : Int.in_range i = true)
    by (apply in_range_spec; change (2 ^ 24) with 16777216 in Hi; lia).
  assert (Hrj : Int.in_range j = true)
    by (apply in_range_spec; change (2 ^ 24) with 16777216 in Hj; lia).
  rewrite Hri, Hrj. cbn [mbind option_bind].
  assert (Hfin : forall n, Z.abs n < 2 ^ 24 -> is_finite (of_Z n) = true).
  { intros n Hn. destruct (Z.eq_dec n 0) as [-> | Hnz]; [reflexivity|].
    destruct (of_Z_small n) as (m & k & -> & _); [lia|reflexivity]. }
  rewrite !SFsub_diag by (apply Hfin; assumption).
  apply b32_noiseCell_corner; apply land_255_range.
Qed.

End Binary32Noise.

(** ** binary32: rounding depends on the value only *)

Section Binary32Rounding.

Import Binary32.

Lemma iter_pos_iter {A : Type} (f : A -> A) (n : positive) (x : A) :
  SpecFloat.iter_pos f n x = Pos.iter f x n.
Proof.
  revert x. induction n as [n IH | n IH |]; intros x; cbn [SpecFloat.iter_pos Pos.iter].
  - rewrite !IH. rewrite <- !Pos.iter_swap. reflexivity.
  - rewrite !IH. reflexivity.
  - reflexivity.
Qed.

Lemma iter_pos_succ {A : Type} (f : A -> A) (n : positive) (x : A) :
  SpecFloat.iter_pos f (Pos.succ n) x = SpecFloat.iter_pos f n (f x).
Proof. rewrite !iter_pos_iter. apply Pos.iter_succ_r. Qed.

(** One more trailing zero on the mantissa and one less in the
    exponent: the same rounding, when the mantissa is to be shifted
    right or left as it is. *)
Lemma binary_round_aux_double (s : bool) (p : positive) (e : Z) :
  0 <= fexp prec emax (Z.pos (digits2_pos p) + e) - e ->
  binary_round_aux prec emax s (Z.pos p~0) (e - 1) loc_Exact =
  binary_round_aux prec emax s (Z.pos p) e loc_Exact.
Proof.
  intros Hn. unfold binary_round_aux.
  assert (Hs : shr_fexp prec emax (Z.pos p~0) (e - 1) loc_Exact =
               shr_fexp prec emax (Z.pos p) e loc_Exact).
  { unfold shr_fexp. cbn [Zdigits2 digits2_pos shr_record_of_loc].
    replace (Z.pos (Pos.succ (digits2_pos p)) + (e - 1))
      with (Z.pos (digits2_pos p) + e) by lia.
    set (t := fexp prec emax (Z.pos (digits2_pos p) + e)) in *.
    replace (t - (e - 1)) with (t - e + 1) by lia.
    destruct (t - e) as [|q|q] eqn:Hq; [| |lia].
    - change (0 + 1) with 1. cbn [shr SpecFloat.iter_pos shr_1 orb].
      f_equal. lia.
    - replace (Z.pos q + 1) with (Z.pos (Pos.succ q)) by lia.
      cbn [shr]. rewrite iter_pos_succ. cbn [shr_1 orb]. f_equal. lia. }
  rewrite Hs. reflexivity.
Qed.

Lemma binary_round_double (s : bool) (p : positive) (e : Z) :
  binary_round prec emax s p~0 (e - 1) = binary_round prec emax s p e.
Proof.
  unfold binary_round. cbn [digits2_pos].
  replace (Z.pos (Pos.succ (digits2_pos p)) + (e - 1))
    with (Z.pos (digits2_pos p) + e) by lia.
  pose proof (binary_round_aux_double s p e) as Haux.
  set (t := fexp prec emax (Z.pos (digits2_pos p) + e)) in *.
  unfold shl_align.
  replace (t - (e - 1)) with (t - e + 1) by lia.
  destruct (t - e) as [|q|q] eqn:Hq.
  - change (0 + 1) with 1. cbv iota. apply Haux. lia.
  - replace (Z.pos q + 1) with (Z.pos (Pos.succ q)) by lia.
    apply Haux. lia.
  - destruct (Pos.eq_dec q 1%positive) as [-> | Hq1].
    + change (-1 + 1) with 0. cbv iota. cbn [Pos.iter].
      replace (e - 1) with t by lia. reflexivity.
    + replace (Z.neg q + 1) with (Z.neg (Pos.pred q)) by lia.
      replace q with (Pos.succ (Pos.pred q)) at 2
        by (apply Pos.succ_pred; assumption).
      rewrite Pos.iter_succ_r. reflexivity.
Qed.

(** The float nearest to [v * 2^e]. *)
Lemma binary_normalize_double (v e : Z) (sz : bool) :
  binary_normalize prec emax (2 * v) (e - 1) sz =
  binary_normalize prec emax v e sz.
Proof.
  destruct v as [|p|p]; [reflexivity|..]; apply binary_round_double.
Qed.

Lemma binary_normalize_shift (v e k : Z) (sz : bool) :
  0 <= k ->
  binary_normalize prec emax (v * 2 ^ k) (e - k) sz =
  binary_normalize prec emax v e sz.
Proof.
  intros Hk. revert v e. pattern k. apply natlike_ind; [| |exact Hk].
  - intros v e. rewrite Z.pow_0_r, Z.mul_1_r, Z.sub_0_r. reflexivity.
  - intros j Hj IH v e. rewrite Z.pow_succ_r by assumption.
    replace (v * (2 * 2 ^ j)) with (2 * (v * 2 ^ j)) by ring.
    replace (e - Z.succ j) with (e - j - 1) by lia.
    rewrite binary_normalize_double. apply IH.
Qed.

(** A float in canonical form is the float nearest to its own value. *)
Lemma binary_normalize_valid (s : bool) (m : positive) (e : Z) (sz : bool) :
  valid_binary prec emax (S754_finite s m e) = true ->
  binary_normalize prec emax (cond_Zopp s (Z.pos m)) e sz = S754_finite s m e.
Proof.
  cbn [valid_binary]. unfold bounded.
  intros [Hc He]%andb_true_iff. apply Z.leb_le in He.
  assert (Hr : binary_round prec emax s m e = S754_finite s m e).
  { unfold binary_round, shl_align.
    pose proof Hc as Hc'. unfold canonical_mantissa in Hc'.
    apply Z.eqb_eq in Hc'. rewrite Hc', Z.sub_diag.
    apply binary_round_aux_canonical; assumption. }
  destruct s; exact Hr.
Qed.

End Binary32Rounding.

(** ** binary32: the fractional part and the shift by 256 *)

Section Binary32Shift.

Import Binary32.
Local Existing Instance binary32.

Lemma shl_align_fst (m : positive) (e ez : Z) :
  ez <= e -> Z.pos (fst (shl_align m e ez)) = Z.pos m * 2 ^ (e - ez).
Proof.
  intros Hle. unfold shl_align.
  destruct (ez - e) as [|q|q] eqn:Hq; [|lia|]; cbn [fst].
  - replace (e - ez) with 0 by lia. rewrite Z.pow_0_r. lia.
  - rewrite iter_xO_pos. f_equal. f_equal. lia.
Qed.

(** The subtraction of two finite floats rounds the difference of
    their values, in any format. *)
Lemma SFsub_finite (p em : Z) (s1 s2 : bool) (m1 m2 : positive) (e1 e2 : Z) :
  SFsub p em (S754_finite s1 m1 e1) (S754_finite s2 m2 e2) =
  binary_normalize p em
    (scaled (Z.min e1 e2) (S754_finite s1 m1 e1) -
     scaled (Z.min e1 e2) (S754_finite s2 m2 e2)) (Z.min e1 e2) false.
Proof.
  cbn [SFsub scaled]. f_equal.
  rewrite !shl_align_fst by lia.
  unfold cond_Zopp. destruct s1, s2; ring.
Qed.

(** The same value at a smaller unit. *)
Lemma scaled_rescale (x : spec_float) (E E' : Z) :
  E' <= E -> E <= exponent x ->
  scaled E' x = scaled E x * 2 ^ (E - E').
Proof.
  intros H1 H2. destruct x as [| | |s m e]; cbn [scaled exponent] in *;
    try reflexivity.
  replace (e - E') with ((e - E) + (E - E')) by lia.
  rewrite Z.pow_add_r by lia. ring.
Qed.

(** The floor of the value, from the value in units of [2^E]. *)
Lemma floor_value_scaled (x : spec_float) (E : Z) :
  is_finite x = true -> E <= exponent x -> E <= 0 ->
  floor_value x = Some (scaled E x / 2 ^ (- E)).
Proof.
  intros Hf HE H0. destruct x as [s| | |s m e]; try discriminate;
    cbn [floor_value scaled exponent] in *.
  - rewrite Z.div_0_l; [reflexivity|]. apply Z.pow_nonzero; lia.
  - f_equal. set (a := cond_Zopp s (Z.pos m)).
    destruct (Z.leb_spec 0 e) as [He | He].
    + rewrite Z.shiftl_mul_pow2 by lia.
      replace (e - E) with (e + - E) by lia.
      rewrite Z.pow_add_r, Z.mul_assoc by lia.
      symmetry. apply Z.div_mul. apply Z.pow_nonzero; lia.
    + replace e with (- - e) at 1 by lia.
      rewrite Z.shiftl_opp_r, Z.shiftr_div_pow2 by lia.
      replace (- E) with (- e + (e - E)) by lia.
      rewrite Z.pow_add_r by lia.
      symmetry. apply Z.div_mul_cancel_r; apply Z.pow_nonzero; lia.
Qed.

(** The fractional part as the code computes it, [x - floor(x)], is
    the float nearest to the fractional part of the value. *)
Lemma b32_fraction (x : spec_float) (n E : Z) :
  valid_binary prec emax x = true -> floor_value x = Some n ->
  E <= exponent x -> E <= 0 ->
  SFsub prec emax x (b32_floor x) =
  binary_normalize prec emax (scaled E x - n * 2 ^ (- E)) E false.
Proof.
  intros Hv Hn HE H0.
  destruct x as [s| | |s m e]; try discriminate.
  { injection Hn as <-. cbn [b32_floor scaled]. destruct s; reflexivity. }
  pose proof (valid_mantissa s m e Hv) as Hm.
  cbn [exponent] in HE.
  (* the difference at any two units below the exponent and zero *)
  assert (Hunit : forall E1 E2, E1 <= E2 -> E2 <= e -> E2 <= 0 ->
            binary_normalize prec emax
              (scaled E1 (S754_finite s m e) - n * 2 ^ (- E1)) E1 false =
            binary_normalize prec emax
              (scaled E2 (S754_finite s m e) - n * 2 ^ (- E2)) E2 false).
  { intros E1 E2 H12 H2e H20.
    rewrite (scaled_rescale _ E2 E1) by (cbn [exponent]; lia).
    replace (- E1) with (- E2 + (E2 - E1)) by lia.
    rewrite Z.pow_add_r, Z.mul_assoc, <- Z.mul_sub_distr_r by lia.
    replace E1 with (E2 - (E2 - E1)) at 2 by lia.
    apply binary_normalize_shift. lia. }
  cbn [b32_floor]. destruct (Z.leb_spec 0 e) as [He | He].
  - (* an integer already *)
    rewrite SFsub_diag by reflexivity.
    injection Hn as <-. cbn [scaled].
    rewrite Z.shiftl_mul_pow2 by lia.
    replace (e - E) with (e + - E) by lia.
    rewrite Z.pow_add_r, Z.mul_assoc, Z.sub_diag by lia. reflexivity.
  - cbn [floor_value] in Hn. injection Hn as Hn. rewrite Hn.
    assert (Habs : Z.abs n < 2 ^ 24).
    { destruct (floor_value_spec s m e n) as [Hb _];
        [cbn [floor_value]; congruence|]. specialize (Hb He).
      assert (Hp : 2 <= 2 ^ (- e)).
      { change 2 with (2 ^ 1) at 1. apply Z.pow_le_mono_r; lia. }
      unfold cond_Zopp in Hb. destruct s; nia. }
    destruct (Z.eq_dec n 0) as [-> | Hnz].
    + (* the floor is zero and the float is its own fractional part *)
      rewrite (Hunit E e) by lia.
      rewrite Z.mul_0_l, Z.sub_0_r. cbn [scaled].
      change (binary_normalize prec emax 0 0 s) with (S754_zero s).
      cbn [SFsub].
      rewrite Z.sub_diag, Z.pow_0_r, Z.mul_1_r.
      symmetry. apply binary_normalize_valid, Hv.
    + replace (binary_normalize prec emax n 0 s) with (of_Z n)
        by (unfold of_Z, binary_normalize; destruct n;
            [contradiction|reflexivity..]).
      destruct (of_Z_small n) as (mn & k & -> & Hk & Hmn); [lia|].
      rewrite SFsub_finite.
      set (ez := Z.min e (- k)).
      assert (Hsc : scaled ez (S754_finite (n <? 0) mn (- k)) =
                    n * 2 ^ (- ez)).
      { cbn [scaled]. rewrite Hmn.
        replace (cond_Zopp (n <? 0) (Z.abs n * 2 ^ k))
          with (cond_Zopp (n <? 0) (Z.abs n) * 2 ^ k)
          by (unfold cond_Zopp; destruct (n <? 0); ring).
        rewrite cond_Zopp_abs, <- Z.mul_assoc, <- Z.pow_add_r by lia.
        f_equal. f_equal. lia. }
      rewrite Hsc.
      rewrite <- (Hunit (Z.min ez E) ez) by lia.
      apply Hunit; lia.
Qed.

(** A float 256 above another has its floor 256 above and the same
    fractional part. *)
Lemma b32_shift_256 (x x' : spec_float) (n : Z) :
  valid_binary prec emax x = true -> valid_binary prec emax x' = true ->
  shifted_256 x x' = true -> floor_value x = Some n ->
  floor_value x' = Some (n + 256) /\
  SFsub prec emax x' (b32_floor x') = SFsub prec emax x (b32_floor x).
Proof.
  intros Hv Hv' Hs Hn. unfold shifted_256 in Hs.
  set (E := Z.min (Z.min (exponent x) (exponent x')) 0) in *.
  apply andb_true_iff in Hs as [[Hf Hf']%andb_true_iff Hs].
  apply Z.eqb_eq in Hs.
  assert (Hp : 2 ^ (- E) <> 0) by (apply Z.pow_nonzero; lia).
  assert (Hn' : floor_value x' = Some (n + 256)).
  { rewrite (floor_value_scaled x' E) by (assumption || lia).
    rewrite (floor_value_scaled x E) in Hn by (assumption || lia).
    injection Hn as <-. rewrite Hs, Z.div_add by assumption. reflexivity. }
  split; [exact Hn'|].
  rewrite (b32_fraction x' (n + 256) E) by (assumption || lia).
  rewrite (b32_fraction x n E) by (assumption || lia).
  f_equal. rewrite Hs. ring.
Qed.

(** Periodicity in binary32, in [x] and in [z]. *)
Lemma b32_noiseValue_shift_x (x x' z : spec_float) (n : Z) :
  valid_binary prec emax x = true -> valid_binary prec emax x' = true ->
  shifted_256 x x' = true -> floor_value x = Some n ->
  Int.in_range n = true -> Int.in_range (n + 256) = true ->
  noiseValue x' z = noiseValue x z.
Proof.
  intros Hv Hv' Hs Hn Hr Hr'.
  destruct (b32_shift_256 x x' n Hv Hv' Hs Hn) as [Hn' Hfrac].
  unfold noiseValue. rewrite (b32_gridIndex x Hv), (b32_gridIndex x' Hv').
  rewrite Hn, Hn'. cbn [mbind option_bind]. rewrite Hr, Hr'.
  cbn [mbind option_bind fsub ffloor binary32].
  rewrite Hfrac.
  replace ((n + 256) mod 256) with (n mod 256)
    by (replace (n + 256) with (n + 1 * 256) by lia;
        symmetry; apply Z.mod_add; lia).
  reflexivity.
Qed.

Lemma b32_noiseValue_shift_z (x z z' : spec_float) (n : Z) :
  valid_binary prec emax z = true -> valid_binary prec emax z' = true ->
  shifted_256 z z' = true -> floor_value z = Some n ->
  Int.in_range n = true -> Int.in_range (n + 256) = true ->
  noiseValue x z' = noiseValue x z.
Proof.
  intros Hv Hv' Hs Hn Hr Hr'.
  destruct (b32_shift_256 z z' n Hv Hv' Hs Hn) as [Hn' Hfrac].
  unfold noiseValue. rewrite (b32_gridIndex z Hv), (b32_gridIndex z' Hv').
  rewrite Hn, Hn'. cbn [mbind option_bind]. rewrite Hr, Hr'.
  cbn [mbind option_bind fsub ffloor binary32].
  rewrite Hfrac.
  replace ((n + 256) mod 256) with (n mod 256)
    by (replace (n + 256) with (n + 1 * 256) by lia;
        symmetry; apply Z.mod_add; lia).
  reflexivity.
Qed.

(** An integer has the fractional part [+0]. *)
Lemma b32_fraction_integer (x : spec_float) :
  valid_binary prec emax x = true -> is_integer x = true ->
  SFsub prec emax x (b32_floor x) = S754_zero false.
Proof.
  intros Hv Hi. destruct x as [s| | |s m e]; try discriminate.
  { destruct s; reflexivity. }
  rewrite (b32_fraction _ (Z.shiftl (cond_Zopp s (Z.pos m)) e) (Z.min e 0) Hv)
    by (reflexivity || cbn [exponent]; lia).
  replace (scaled (Z.min e 0) (S754_finite s m e) -
           Z.shiftl (cond_Zopp s (Z.pos m)) e * 2 ^ (- Z.min e 0)) with 0;
    [reflexivity|].
  cbn [scaled is_integer] in *. set (a := cond_Zopp s (Z.pos m)).
  destruct (Z.leb_spec 0 e) as [He | He].
  - rewrite Z.min_r, Z.shiftl_mul_pow2 by lia. cbn [Z.opp].
    rewrite Z.sub_0_r, Z.pow_0_r. ring.
  - cbn [orb] in Hi. apply Z.eqb_eq in Hi.
    rewrite Z.min_l, Z.sub_diag, Z.pow_0_r by lia.
    replace e with (- - e) at 1 by lia.
    rewrite Z.shiftl_opp_r, Z.shiftr_div_pow2 by lia.
    assert (Hp : 0 < 2 ^ (- e)) by (apply Z.pow_pos_nonneg; lia).
    assert (Ha : a mod 2 ^ (- e) = 0).
    { unfold a, cond_Zopp. destruct s; [|exact Hi].
      apply Z.mod_opp_l_z; [lia | exact Hi]. }
    pose proof (Z.div_mod a (2 ^ (- e)) ltac:(lia)). lia.
Qed.

(** Lattice alignment in binary32: at integer floats whose values are
    values of [int] the noise is 0.5. *)
Lemma b32_noiseValue_integer (x z : spec_float) (nx nz : Z) :
  valid_binary prec emax x = true -> valid_binary prec emax z = true ->
  is_integer x = true -> is_integer z = true ->
  floor_value x = Some nx -> floor_value z = Some nz ->
  Int.in_range nx = true -> Int.in_range nz = true ->
  noiseValue x z = Some one_half.
Proof.
  intros Hvx Hvz Hix Hiz Hnx Hnz Hrx Hrz.
  unfold noiseValue. rewrite (b32_gridIndex x Hvx), (b32_gridIndex z Hvz).
  rewrite Hnx, Hnz. cbn [mbind option_bind]. rewrite Hrx, Hrz.
  cbn [mbind option_bind fsub ffloor binary32].
  rewrite (b32_fraction_integer x Hvx Hix), (b32_fraction_integer z Hvz Hiz).
  apply b32_noiseCell_corner; rewrite <- land_255; apply land_255_range.
Qed.

End Binary32Shift.

(** ** Evaluation in binary32 *)

Section Binary32Evaluation.

Import Binary32.
Local Existing Instance binary32.

(** The literals of the code, as bit patterns: [0.5], [1.2f], and the
    [0.3f] and [0.7f] of the scenarios. *)
Example b32_literals :
  one_half = S754_finite false 8388608 (-24) /\
  one_point_two = S754_finite false 10066330 (-23) /\
  ratio 3 10 = S754_finite false 10066330 (-25) /\
  ratio 7 10 = S754_finite false 11744051 (-24).
Proof. repeat split; vm_compute; reflexivity. Qed.

Example b32_floor_values :
  b32_floor (ratio 27 10) = of_Z 2 /\
  b32_floor (ratio (-27) 10) = of_Z (-3) /\
  b32_floor (ratio (-1) 2) = of_Z (-1) /\
  b32_floor (of_Z (-4)) = of_Z (-4) /\
  b32_floor (ratio 3 10) = S754_zero false.
Proof. repeat split; vm_compute; reflexivity. Qed.

(** Negative inputs get the index of their floor, not of their
    truncation. *)
Example b32_gridIndex_values :
  gridIndex (ratio (-1) 2) = Some 255 /\
  gridIndex (ratio (-27) 10) = Some 253 /\
  gridIndex (of_Z (-256)) = Some 0 /\
  gridIndex (of_Z 257) = Some 1 /\
  gridIndex (of_Z (-2147483648)) = Some 0 /\
  gridIndex (of_Z 2147483648) = None.
Proof. repeat split; vm_compute; reflexivity. Qed.

Example b32_fade_values :
  fade (of_Z 0) = of_Z 0 /\
  fade (of_Z 1) = of_Z 1 /\
  fade one_half = one_half.
Proof. repeat split; vm_compute; reflexivity. Qed.

(** The gradient scenario at (0.3, 0.7): each of the eight cases is
    the dot product with its direction. *)
Example b32_gradient_scenario :
  Forall (fun h =>
            gradientDotDistance h (ratio 3 10) (ratio 7 10) =
            gradient_dot_spec h (ratio 3 10) (ratio 7 10))
         (seqZ 0 8).
Proof. repeat constructor. Qed.

Example b32_lattice_values :
  noiseValue (of_Z 0) (of_Z 0) = Some one_half /\
  noiseValue (of_Z 3) (of_Z (-7)) = Some one_half /\
  noiseValue (of_Z (-256)) (of_Z 511) = Some one_half.
Proof. repeat split; vm_compute; reflexivity. Qed.

Example b32_noise_values :
  noiseValue (ratio 3 10) (ratio 7 10) =
    Some (S754_finite false 11565574 (-25)) /\
  noiseValue (ratio (-1) 2) (ratio (-13) 4) =
    Some (S754_finite false 14897152 (-25)).
Proof. repeat split; vm_compute; reflexivity. Qed.

(** [2^31] is a finite float and is outside [int]. *)
Lemma b32_cast_out_of_range :
  is_finite (of_Z 2147483648) = true /\
  to_int (b32_floor (of_Z 2147483648)) = None /\
  noiseValue (of_Z 2147483648) (of_Z 0) = None.
Proof. repeat split; vm_compute; reflexivity. Qed.

(** The float sum [0.3f + 256] is not the number [0.3f + 256]: its
    fractional part is another float, and the noise differs. *)
Lemma b32_shift_rounds :
  noiseValue (fadd (ratio 3 10) (of_Z 256)) (of_Z 0) =
    Some (S754_finite false 12564950 (-25)) /\
  noiseValue (ratio 3 10) (of_Z 0) =
    Some (S754_finite false 12564860 (-25)).
Proof. split; vm_compute; reflexivity. Qed.

(** [256.5] is 256 above [0.5]; the float sum [0.3f + 256] is not 256
    above [0.3f]. *)
Example b32_shifted_256_values :
  shifted_256 (ratio 1 2) (ratio 513 2) = true /\
  shifted_256 (ratio (-7) 4) (ratio 1017 4) = true /\
  shifted_256 (ratio 3 10) (fadd (ratio 3 10) (of_Z 256)) = false /\
  noiseValue (ratio 513 2) (ratio 1 4) = noiseValue (ratio 1 2) (ratio 1 4).
Proof. repeat split; vm_compute; reflexivity. Qed.

(** The largest float below [2^31] is in [int]; 256 above it is not. *)
Lemma b32_shift_leaves_int :
  noiseValue (of_Z 2147483520) (of_Z 0) = Some one_half /\
  noiseValue (fadd (of_Z 2147483520) (of_Z 256)) (of_Z 0) = None.
Proof. split; vm_compute; reflexivity. Qed.

Lemma b32_heightAt_origin (pow : spec_float -> spec_float -> spec_float) :
  heightAt pow (of_Z 0) (of_Z 0) =
  Some (of_double
          (dsub (pow (to_double (of_Z 63)) (to_double one_point_two))
                (dof_int 140))).
Proof.
  unfold heightAt.
  repeat match goal with
    | |- context [noiseValue ?a ?b] =>
        replace (noiseValue a b) with (Some (one_half (ops := binary32)))
          by (vm_compute; reflexivity);
        cbn [mbind option_bind]
    end.
  match goal with
  | |- context [pow (to_double ?s) _] =>
      replace s with (of_Z 63) by (vm_compute; reflexivity)
  end.
  reflexivity.
Qed.

(** [pow(63, 1.2f)] is [144.28086758631957] in [double] (the mantissa
    [5076431730456568] at the exponent [-45]); the height stored is
    then the float [4.2808676], [8977630 * 2^-21]. *)
Lemma b32_heightAt_origin_value
    (pow : spec_float -> spec_float -> spec_float) :
  pow (to_double (of_Z 63)) (to_double one_point_two) =
    S754_finite false 5076431730456568 (-45) ->
  heightAt pow (of_Z 0) (of_Z 0) = Some (S754_finite false 8977630 (-21)).
Proof.
  intros Hpow. rewrite b32_heightAt_origin, Hpow. vm_compute. reflexivity.
Qed.

End Binary32Evaluation.

(** ** The error of a rounding, in any format *)

Section RoundingError.

(** The format: [prec] digits, exponents below [emax]. *)
Variables prec emax : Z.
Hypothesis Hprec : 2 <= prec.
Hypothesis Hemax : prec + 7 <= emax.

(** One step of the right shift: the mantissa is halved, the bit
    shifted out is kept, and the bits shifted out before are
    remembered as one. *)
Lemma shr_1_spec (m : Z) (r s : bool) :
  0 <= m ->
  shr_1 {| shr_m := m; shr_r := r; shr_s := s |} =
  {| shr_m := m / 2; shr_r := Z.odd m; shr_s := r || s |}.
Proof.
  intros Hm. destruct m as [|p|p]; [reflexivity| |lia].
  destruct p as [p|p|]; cbn [shr_1 Z.odd].
  - f_equal. rewrite Pos2Z.inj_xI. symmetry.
    rewrite Z.add_comm, Z.mul_comm. rewrite Z.div_add by lia. reflexivity.
  - f_equal. rewrite Pos2Z.inj_xO, Z.mul_comm. symmetry.
    apply Z.div_mul. lia.
  - reflexivity.
Qed.

(** [k] steps from an exact mantissa. *)
Lemma shr_iter_spec (m : Z) (k : positive) :
  0 <= m ->
  SpecFloat.iter_pos shr_1 k {| shr_m := m; shr_r := false; shr_s := false |} =
  {| shr_m := m / 2 ^ Z.pos k;
     shr_r := Z.odd (m / 2 ^ (Z.pos k - 1));
     shr_s := negb (m mod 2 ^ (Z.pos k - 1) =? 0) |}.
Proof.
  intros Hm. rewrite iter_pos_iter.
  induction k as [|k IH] using Pos.peano_ind.
  - cbn [Pos.iter]. rewrite shr_1_spec by assumption.
    change (Z.pos 1 - 1) with 0. rewrite Z.pow_0_r, Z.div_1_r, Z.mod_1_r.
    reflexivity.
  - rewrite Pos.iter_succ, IH.
    assert (Hq : 0 <= m / 2 ^ Z.pos k)
      by (apply Z.div_pos; [assumption | apply Z.pow_pos_nonneg; lia]).
    rewrite shr_1_spec by assumption.
    rewrite Pos2Z.inj_succ.
    replace (Z.succ (Z.pos k) - 1) with (Z.pos k) by lia.
    f_equal.
    + rewrite Z.pow_succ_r, (Z.mul_comm 2) by lia.
      apply Z.div_div; [apply Z.pow_nonzero; lia | lia].
    + (* the bits below position [k] vanish iff those below [k - 1] do
         and bit [k - 1] is clear *)
      set (j := Z.pos k - 1). assert (Hj : 0 <= j) by lia.
      replace (Z.pos k) with (j + 1) by lia.
      rewrite Z.pow_add_r, Z.pow_1_r by lia.
      assert (Hp : 0 < 2 ^ j) by (apply Z.pow_pos_nonneg; lia).
      rewrite Z.rem_mul_r by lia.
      pose proof (Z.mod_pos_bound m (2 ^ j) Hp) as Hb.
      pose proof (Z.mod_pos_bound (m / 2 ^ j) 2 ltac:(lia)) as Hb2.
      pose proof (Zmod_odd (m / 2 ^ j)) as Ho.
      destruct (Z.odd (m / 2 ^ j));
        destruct (Z.eqb_spec (m mod 2 ^ j) 0) as [H0 | H0];
        cbn [orb negb];
        match goal with
        | |- ?b = negb (?x =? 0) =>
            destruct (Z.eqb_spec x 0) as [He | He]; cbn [negb];
            try reflexivity; exfalso; nia
        end.
Qed.

(** Rounding to nearest after [k] steps: the mantissa kept is the
    quotient or its successor, and is within half a unit of the
    mantissa shifted. *)
Lemma round_shift (m : Z) (k : positive) :
  0 <= m ->
  let mrs :=
    SpecFloat.iter_pos shr_1 k {| shr_m := m; shr_r := false; shr_s := false |} in
  let q := round_nearest_even (shr_m mrs) (loc_of_shr_record mrs) in
  m / 2 ^ Z.pos k <= q <= m / 2 ^ Z.pos k + 1 /\
  2 * Z.abs (q * 2 ^ Z.pos k - m) <= 2 ^ Z.pos k.
Proof.
  intros Hm. cbv zeta. rewrite shr_iter_spec by assumption.
  cbn [shr_m loc_of_shr_record].
  set (j := Z.pos k - 1). assert (Hj : 0 <= j) by lia.
  replace (Z.pos k) with (j + 1) by lia.
  rewrite Z.pow_add_r, Z.pow_1_r by lia.
  assert (Hp : 0 < 2 ^ j) by (apply Z.pow_pos_nonneg; lia).
  set (P := 2 ^ j) in *.
  pose proof (Z.div_mod m P ltac:(lia)) as Hdm.
  pose proof (Z.mod_pos_bound m P Hp) as Hb.
  pose proof (Z.div_mod (m / P) 2 ltac:(lia)) as Hd2.
  pose proof (Zmod_odd (m / P)) as Ho.
  assert (Hqq : m / (P * 2) = m / P / 2)
    by (symmetry; apply Z.div_div; lia).
  rewrite Hqq.
  set (q := m / P / 2) in *. set (a := m / P) in *. set (c := m mod P) in *.
  destruct (Z.odd a); destruct (Z.eqb_spec c 0) as [Hc | Hc];
    cbn [negb round_nearest_even].
  - destruct (Z.even q); split; lia.
  - split; lia.
  - split; lia.
  - split; lia.
Qed.

(** A positive number with [a] binary digits. *)
Lemma digits2_pos_unique (p : positive) (a : Z) :
  2 ^ (a - 1) <= Z.pos p < 2 ^ a -> Z.pos (digits2_pos p) = a.
Proof.
  intros [Hlo Hhi]. pose proof (digits2_pos_bound p) as [Hlo' Hhi'].
  set (d := Z.pos (digits2_pos p)) in *.
  assert (Hd : 0 < d) by (unfold d; lia).
  destruct (Z.lt_trichotomy d a) as [Hlt | [Heq | Hgt]]; [|assumption|].
  - assert (2 ^ d <= 2 ^ (a - 1)) by (apply Z.pow_le_mono_r; lia). lia.
  - assert (Ha : 0 <= a).
    { destruct (Z.le_gt_cases 0 a); [assumption|].
      rewrite (Z.pow_neg_r 2 a) in Hhi by lia. lia. }
    assert (2 ^ a <= 2 ^ (d - 1)) by (apply Z.pow_le_mono_r; lia). lia.
Qed.

(** The second alignment of [binary_round_aux]: a rounded mantissa of
    at most [2^prec] at the exponent [T] is kept, or halved when it is
    [2^prec]. *)
Lemma realign (s : bool) (q T : Z) :
  0 <= q <= 2 ^ prec -> emin prec emax <= T -> T + 1 <= emax - prec ->
  (emin prec emax < T -> 2 ^ (prec - 1) <= q) ->
  let '(mrs, e) := shr_fexp prec emax q T loc_Exact in
  let r := match shr_m mrs with
           | 0 => S754_zero s
           | Z.pos m => if e <=? emax - prec then S754_finite s m e
                        else S754_infinity s
           | Z.neg _ => S754_nan
           end in
  (q = 0 /\ r = S754_zero s) \/
  (exists (m : positive) (e' : Z),
      r = S754_finite s m e' /\ valid_binary prec emax r = true /\
      T <= e' /\ Z.pos m * 2 ^ (e' - T) = q).
Proof.
  intros Hq HT Hmax Hnorm. unfold shr_fexp.
  destruct q as [|p|p]; [| |lia].
  - (* zero *)
    cbn [Zdigits2 shr_record_of_loc].
    assert (Hn : fexp prec emax (0 + T) - T <= 0)
      by (unfold fexp, emin in *; lia).
    destruct (fexp prec emax (0 + T) - T) as [|n|n]; [|lia|];
      cbn [shr shr_m]; left; split; reflexivity.
  - cbn [Zdigits2 shr_record_of_loc].
    pose proof (digits2_pos_bound p) as [Hlo Hhi].
    set (d := Z.pos (digits2_pos p)) in *.
    assert (Hd : 0 < d) by (unfold d; lia).
    destruct (Z.eq_dec (Z.pos p) (2 ^ prec)) as [Hc | Hc].
    + (* the carry: 2^prec becomes 2^(prec-1) one exponent up *)
      assert (Hdc : d = prec + 1).
      { unfold d. apply digits2_pos_unique. rewrite Hc.
        replace (prec + 1 - 1) with prec by lia. split; [lia|].
        apply Z.pow_lt_mono_r; lia. }
      assert (Hf : fexp prec emax (d + T) - T = 1)
        by (unfold fexp, emin in *; lia).
      rewrite Hf. cbn [shr SpecFloat.iter_pos].
      rewrite shr_1_spec by lia. cbn [shr_m]. rewrite Hc.
      assert (Hhalf : 2 ^ prec / 2 = 2 ^ (prec - 1)).
      { replace prec with (prec - 1 + 1) at 1 by lia.
        rewrite Z.pow_add_r, Z.pow_1_r by lia. apply Z.div_mul. lia. }
      rewrite Hhalf.
      assert (Hdbl : 2 ^ prec = 2 * 2 ^ (prec - 1)).
      { replace prec with (prec - 1 + 1) at 1 by lia.
        rewrite Z.pow_add_r, Z.pow_1_r by lia. ring. }
      pose proof (Z.pow_pos_nonneg 2 (prec - 1) ltac:(lia) ltac:(lia)) as Hpos.
      destruct (2 ^ (prec - 1)) as [|h|h] eqn:Hh; [lia| |lia].
      assert (He : (T + 1 <=? emax - prec) = true) by (apply Z.leb_le; lia).
      rewrite He. right. exists h, (T + 1).
      split; [reflexivity|]. split; [|split; [lia|]].
      * cbn [valid_binary]. unfold bounded, canonical_mantissa.
        rewrite He, andb_true_r. apply Z.eqb_eq.
        assert (Hdh : Z.pos (digits2_pos h) = prec).
        { apply digits2_pos_unique.
          assert (2 ^ (prec - 1) < 2 ^ prec) by (apply Z.pow_lt_mono_r; lia).
          lia. }
        rewrite Hdh. unfold fexp, emin in *. lia.
      * replace (T + 1 - T) with 1 by lia. rewrite Z.pow_1_r. lia.
    + assert (Hdp : d <= prec).
      { destruct (Z.le_gt_cases d prec); [assumption|].
        assert (2 ^ prec <= 2 ^ (d - 1)) by (apply Z.pow_le_mono_r; lia).
        lia. }
      assert (Hn : fexp prec emax (d + T) - T <= 0)
        by (unfold fexp, emin in *; lia).
      assert (Hr : shr {| shr_m := Z.pos p; shr_r := false; shr_s := false |}
                     T (fexp prec emax (d + T) - T) =
                   ({| shr_m := Z.pos p; shr_r := false; shr_s := false |}, T)).
      { destruct (fexp prec emax (d + T) - T) as [|n|n]; [|lia|]; reflexivity. }
      rewrite Hr. cbn [shr_m].
      assert (He : (T <=? emax - prec) = true) by (apply Z.leb_le; lia).
      rewrite He. right. exists p, T.
      split; [reflexivity|]. split; [|split; [lia|]].
      * cbn [valid_binary]. unfold bounded, canonical_mantissa.
        rewrite He, andb_true_r. apply Z.eqb_eq. fold d.
        destruct (Z.eq_dec T (emin prec emax)) as [HT' | HT'].
        -- unfold fexp, emin in *. lia.
        -- assert (Hqn : 2 ^ (prec - 1) <= Z.pos p) by (apply Hnorm; lia).
           assert (Hdp' : prec <= d).
           { destruct (Z.le_gt_cases prec d); [assumption|].
             assert (2 ^ d <= 2 ^ (prec - 1)) by (apply Z.pow_le_mono_r; lia).
             lia. }
           unfold fexp, emin in *. lia.
      * rewrite Z.sub_diag, Z.pow_0_r. lia.
Qed.

(** The rounding of [m * 2^e], a mantissa that is to be shifted right
    ([e] at most the exponent [T] of the result): the result is a
    float in canonical form, or zero, within half a unit [2^T] of it. *)
Lemma binary_round_aux_error (s : bool) (m : positive) (e : Z) :
  let T := fexp prec emax (Z.pos (digits2_pos m) + e) in
  e <= T -> T + 1 <= emax - prec ->
  let r := binary_round_aux prec emax s (Z.pos m) e loc_Exact in
  (r = S754_zero s /\ 2 * Z.pos m <= 2 ^ (T - e)) \/
  (exists (m' : positive) (e' : Z),
      r = S754_finite s m' e' /\ valid_binary prec emax r = true /\
      T <= e' /\
      2 * Z.abs (Z.pos m' * 2 ^ (e' - e) - Z.pos m) <= 2 ^ (T - e)).
Proof.
  intros T HeT Hmax r. subst r. unfold binary_round_aux.
  pose proof (digits2_pos_bound m) as [Hlo Hhi].
  set (d := Z.pos (digits2_pos m)) in *.
  assert (Hd : 0 < d) by (unfold d; lia).
  assert (HTmin : emin prec emax <= T) by (unfold T, fexp, emin; lia).
  assert (HTd : d + e - prec <= T) by (unfold T, fexp, emin; lia).
  assert (HTn : emin prec emax < T -> T = d + e - prec)
    by (unfold T, fexp, emin; lia).
  (* the mantissa after the first shift, rounded *)
  assert (Hfirst : exists q : Z,
             (let '(mrs, e1) := shr_fexp prec emax (Z.pos m) e loc_Exact in
              (round_nearest_even (shr_m mrs) (loc_of_shr_record mrs), e1)) =
             (q, T) /\
             0 <= q <= 2 ^ prec /\
             (emin prec emax < T -> 2 ^ (prec - 1) <= q) /\
             2 * Z.abs (q * 2 ^ (T - e) - Z.pos m) <= 2 ^ (T - e)).
  { unfold shr_fexp. cbn [Zdigits2 shr_record_of_loc]. fold d. fold T.
    destruct (T - e) as [|k|k] eqn:Hk; [| |lia].
    - (* no shift *)
      exists (Z.pos m). cbn [shr shr_m loc_of_shr_record round_nearest_even].
      assert (Hdp : d <= prec) by lia.
      assert (H2d : 2 ^ d <= 2 ^ prec) by (apply Z.pow_le_mono_r; lia).
      split; [f_equal; lia|]. split; [lia|]. split.
      + intros Hn. specialize (HTn Hn).
        replace (prec - 1) with (d - 1) by lia. exact Hlo.
      + rewrite Z.pow_0_r, Z.mul_1_r, Z.sub_diag. cbn. lia.
    - cbn [shr].
      pose proof (round_shift (Z.pos m) k ltac:(lia)) as Hrs. cbv zeta in Hrs.
      set (mrs := SpecFloat.iter_pos shr_1 k
                    {| shr_m := Z.pos m; shr_r := false; shr_s := false |}) in *.
      set (q := round_nearest_even (shr_m mrs) (loc_of_shr_record mrs)) in *.
      destruct Hrs as [[Hq1 Hq2] Herr].
      exists q. split; [f_equal; lia|].
      assert (Hpk : 0 < 2 ^ Z.pos k) by (apply Z.pow_pos_nonneg; lia).
      assert (Hdiv0 : 0 <= Z.pos m / 2 ^ Z.pos k)
        by (apply Z.div_pos; lia).
      assert (Hup : Z.pos m / 2 ^ Z.pos k < 2 ^ prec).
      { apply Z.div_lt_upper_bound; [lia|].
        rewrite <- Z.pow_add_r by lia.
        assert (2 ^ d <= 2 ^ (Z.pos k + prec)) by (apply Z.pow_le_mono_r; lia).
        lia. }
      split; [lia|]. split; [|exact Herr].
      intros Hn. specialize (HTn Hn).
      assert (Hlow : 2 ^ (prec - 1) <= Z.pos m / 2 ^ Z.pos k).
      { apply Z.div_le_lower_bound; [lia|].
        rewrite <- Z.pow_add_r by lia.
        replace (Z.pos k + (prec - 1)) with (d - 1) by lia. exact Hlo. }
      lia. }
  destruct Hfirst as (q & Hq & Hqr & Hqn & Herr).
  destruct (shr_fexp prec emax (Z.pos m) e loc_Exact) as [mrs1 e1].
  injection Hq as Hq1 Hq2. rewrite Hq1, Hq2.
  pose proof (realign s q T Hqr HTmin Hmax Hqn) as Hre.
  destruct (shr_fexp prec emax q T loc_Exact) as [mrs2 e2]. cbv zeta in Hre.
  destruct Hre as [[Hq0 Hz] | (m' & e' & Hr & Hv & HTe & Hval)].
  - left. split; [exact Hz|]. rewrite Hq0 in Herr. lia.
  - right. exists m', e'. rewrite Hr in *.
    split; [reflexivity|]. split; [exact Hv|]. split; [exact HTe|].
    replace (e' - e) with ((e' - T) + (T - e)) by lia.
    rewrite Z.pow_add_r, Z.mul_assoc, Hval by lia. exact Herr.
Qed.

End RoundingError.

(** ** The values of floats, as reals *)

Section FloatValues.

Import Binary32.
Local Open Scope R_scope.

Lemma pow2_add (a b : Z) : powerRZ 2 (a + b) = powerRZ 2 a * powerRZ 2 b.
Proof. apply powerRZ_add. lra. Qed.

Lemma pow2_pos (a : Z) : 0 < powerRZ 2 a.
Proof. apply powerRZ_lt. lra. Qed.

Lemma pow2_IZR (n : Z) : (0 <= n)%Z -> IZR (2 ^ n) = powerRZ 2 n.
Proof.
  intros Hn. rewrite <- (Z2Nat.id n Hn) at 1 2.
  rewrite <- pow_IZR, <- pow_powerRZ. reflexivity.
Qed.

Lemma pow2_ge_1 (n : Z) : (0 <= n)%Z -> 1 <= powerRZ 2 n.
Proof.
  intros Hn. rewrite <- pow2_IZR by assumption.
  apply IZR_le. pose proof (Z.pow_pos_nonneg 2 n ltac:(lia) Hn). lia.
Qed.

Lemma pow2_le (a b : Z) : (a <= b)%Z -> powerRZ 2 a <= powerRZ 2 b.
Proof.
  intros Hab. replace b with (a + (b - a))%Z by lia. rewrite pow2_add.
  pose proof (pow2_pos a). pose proof (pow2_ge_1 (b - a) ltac:(lia)). nra.
Qed.

Lemma pow2_lt_inv (a b : Z) : powerRZ 2 a < powerRZ 2 b -> (a < b)%Z.
Proof.
  intros Hlt. destruct (Z.lt_ge_cases a b) as [|Hge]; [assumption|].
  pose proof (pow2_le b a Hge). lra.
Qed.

(** The value in units of [2^E]. *)
Lemma B2R_scaled (x : spec_float) (E : Z) :
  (E <= exponent x)%Z -> B2R x = IZR (scaled E x) * powerRZ 2 E.
Proof.
  intros HE. destruct x as [s|s| |s m e]; cbn [B2R scaled exponent] in *;
    try lra.
  rewrite mult_IZR, pow2_IZR by lia.
  rewrite Rmult_assoc, <- pow2_add. do 2 f_equal. lia.
Qed.

Lemma B2R_opp (x : spec_float) : B2R (SFopp x) = - B2R x.
Proof.
  destruct x as [s|s| |s m e]; cbn [B2R SFopp]; try lra.
  destruct s; cbn [negb cond_Zopp]; rewrite ?opp_IZR; lra.
Qed.

Lemma good_opp (x : spec_float) : good x -> good (SFopp x).
Proof.
  unfold good, good_in. destruct x as [s|s| |s m e]; cbn; tauto.
Qed.

(** The magnitude of a number bounds the exponent of its float. *)
Lemma magnitude_exponent (m : positive) (e : Z) :
  IZR (Z.pos m) * powerRZ 2 e <= 32 ->
  (Z.pos (digits2_pos m) + e <= 6)%Z.
Proof.
  intros Hv. pose proof (digits2_pos_bound m) as [Hlo _].
  set (d := Z.pos (digits2_pos m)) in *.
  assert (Hd : (0 < d)%Z) by (unfold d; lia).
  pose proof (pow2_pos e) as Hpe.
  destruct (Z.le_gt_cases (d + e) 6) as [|Hgt]; [assumption|exfalso].
  assert (H1 : powerRZ 2 6 <= powerRZ 2 (d - 1 + e)) by (apply pow2_le; lia).
  rewrite pow2_add, <- (pow2_IZR (d - 1)) in H1 by lia.
  apply IZR_le in Hlo.
  replace (powerRZ 2 6) with 64 in H1 by (simpl; lra). nra.
Qed.

(** The product of two mantissas has at least the digits of both but
    one. *)
Lemma digits2_pos_mul (m1 m2 : positive) :
  (Z.pos (digits2_pos m1) + Z.pos (digits2_pos m2) - 1 <=
   Z.pos (digits2_pos (m1 * m2)))%Z.
Proof.
  pose proof (digits2_pos_bound m1) as [Hlo1 _].
  pose proof (digits2_pos_bound m2) as [Hlo2 _].
  pose proof (digits2_pos_bound (m1 * m2)) as [_ Hhi].
  set (d1 := Z.pos (digits2_pos m1)) in *.
  set (d2 := Z.pos (digits2_pos m2)) in *.
  set (d := Z.pos (digits2_pos (m1 * m2))) in *.
  assert (H1 : (0 < d1)%Z) by (unfold d1; lia).
  assert (H2 : (0 < d2)%Z) by (unfold d2; lia).
  assert (H0 : (0 < d)%Z) by (unfold d; lia).
  destruct (Z.le_gt_cases (d1 + d2 - 1) d) as [|Hgt]; [assumption|exfalso].
  assert (Hp : (2 ^ d <= 2 ^ (d1 - 1 + (d2 - 1)))%Z)
    by (apply Z.pow_le_mono_r; lia).
  rewrite Z.pow_add_r in Hp by lia.
  rewrite Pos2Z.inj_mul in Hhi.
  assert (Hp1 : (0 < 2 ^ (d1 - 1))%Z) by (apply Z.pow_pos_nonneg; lia).
  assert (Hp2 : (0 < 2 ^ (d2 - 1))%Z) by (apply Z.pow_pos_nonneg; lia).
  nia.
Qed.

Lemma SFadd_finite (p em : Z) (s1 s2 : bool) (m1 m2 : positive) (e1 e2 : Z) :
  SFadd p em (S754_finite s1 m1 e1) (S754_finite s2 m2 e2) =
  binary_normalize p em
    (scaled (Z.min e1 e2) (S754_finite s1 m1 e1) +
     scaled (Z.min e1 e2) (S754_finite s2 m2 e2)) (Z.min e1 e2) false.
Proof.
  cbn [SFadd scaled]. f_equal.
  rewrite !shl_align_fst by lia.
  unfold cond_Zopp. destruct s1, s2; ring.
Qed.

End FloatValues.

(** ** Rounding in any format, on values *)

Section RoundingValues.

Import Binary32.
Local Open Scope R_scope.

Variables prec emax : Z.
Hypothesis Hprec : (2 <= prec)%Z.
Hypothesis Hemax : (prec + 7 <= emax)%Z.

Lemma half_ulp_pos : 0 < half_ulp prec.
Proof. apply pow2_pos. Qed.

Lemma pow2_half_ulp (T : Z) :
  (T <= 6 - prec)%Z -> powerRZ 2 T <= 2 * half_ulp prec.
Proof.
  intros HT. unfold half_ulp.
  replace (2 * powerRZ 2 (5 - prec)) with (powerRZ 2 (1 + (5 - prec)))
    by (rewrite pow2_add; simpl; lra).
  apply pow2_le. lia.
Qed.

(** The rounding of [± m * 2^e], of magnitude at most 32 and with [e]
    at most the exponent of the result: a float of the format, of
    that sign, within half a unit. *)
Lemma binary_round_aux_near (s : bool) (m : positive) (e : Z) :
  IZR (Z.pos m) * powerRZ 2 e <= 32 ->
  (e <= fexp prec emax (Z.pos (digits2_pos m) + e))%Z ->
  let r := binary_round_aux prec emax s (Z.pos m) e loc_Exact in
  good_in prec emax r /\
  Rabs (B2R r - IZR (cond_Zopp s (Z.pos m)) * powerRZ 2 e) <= half_ulp prec /\
  (if s then B2R r <= 0 else 0 <= B2R r).
Proof.
  intros Hv HeT r. subst r.
  pose proof (magnitude_exponent m e Hv) as Hde.
  set (d := Z.pos (digits2_pos m)) in *.
  pose proof (pow2_pos e) as Hpe.
  set (T := fexp prec emax (d + e)) in *.
  assert (HT : (emin prec emax <= T <= 6 - prec)%Z)
    by (unfold T, fexp, emin; lia).
  pose proof (pow2_half_ulp T ltac:(lia)) as HpT.
  pose proof half_ulp_pos as Hdelta.
  pose proof (binary_round_aux_error prec emax Hprec s m e) as Herr.
  cbv zeta in Herr.
  fold d in Herr. fold T in Herr.
  specialize (Herr HeT ltac:(lia)).
  assert (Hunit : powerRZ 2 (T - e) * powerRZ 2 e = powerRZ 2 T)
    by (rewrite <- pow2_add; f_equal; lia).
  pose proof (IZR_lt 0 (Z.pos m) ltac:(lia)) as Hm0.
  destruct Herr as [[-> Hz] | (m' & e' & -> & Hval & HTe & Hz)].
  - split; [split; reflexivity|]. cbn [B2R].
    apply IZR_le in Hz. rewrite mult_IZR, pow2_IZR in Hz by lia.
    split; [|destruct s; lra].
    rewrite Rminus_0_l, Rabs_Ropp.
    destruct s; cbn [cond_Zopp]; rewrite ?opp_IZR;
      rewrite ?Ropp_mult_distr_l_reverse, ?Rabs_Ropp;
      rewrite Rabs_pos_eq by nra; nra.
  - split; [split; [exact Hval|reflexivity]|]. cbn [B2R].
    apply IZR_le in Hz.
    rewrite mult_IZR, abs_IZR, minus_IZR, mult_IZR, !pow2_IZR in Hz by lia.
    assert (Hm' : IZR (Z.pos m') * powerRZ 2 e' =
                  IZR (Z.pos m') * powerRZ 2 (e' - e) * powerRZ 2 e)
      by (rewrite Rmult_assoc, <- pow2_add; do 2 f_equal; lia).
    pose proof (IZR_lt 0 (Z.pos m') ltac:(lia)) as Hm0'.
    pose proof (pow2_pos e') as Hpe'.
    split.
    + replace (IZR (cond_Zopp s (Z.pos m')) * powerRZ 2 e' -
               IZR (cond_Zopp s (Z.pos m)) * powerRZ 2 e)
        with (IZR (cond_Zopp s 1) *
              ((IZR (Z.pos m') * powerRZ 2 (e' - e) - IZR (Z.pos m)) *
               powerRZ 2 e))
        by (rewrite Rmult_minus_distr_r, <- Hm';
            destruct s; cbn [cond_Zopp]; rewrite ?opp_IZR; lra).
      rewrite Rabs_mult, Rabs_mult, (Rabs_pos_eq (powerRZ 2 e)) by lra.
      replace (Rabs (IZR (cond_Zopp s 1))) with 1
        by (destruct s; cbn [cond_Zopp]; rewrite ?opp_IZR, ?Rabs_Ropp;
            symmetry; apply Rabs_pos_eq; lra).
      pose proof (Rabs_pos (IZR (Z.pos m') * powerRZ 2 (e' - e) -
                            IZR (Z.pos m))).
      nra.
    + destruct s; cbn [cond_Zopp]; rewrite ?opp_IZR; nra.
Qed.

(** The same for [binary_round], which first shifts a short mantissa
    left, exactly. *)
Lemma binary_round_near (s : bool) (m : positive) (e : Z) :
  IZR (Z.pos m) * powerRZ 2 e <= 32 ->
  let r := binary_round prec emax s m e in
  good_in prec emax r /\
  Rabs (B2R r - IZR (cond_Zopp s (Z.pos m)) * powerRZ 2 e) <= half_ulp prec /\
  (if s then B2R r <= 0 else 0 <= B2R r).
Proof.
  intros Hv r. subst r.
  pose proof (magnitude_exponent m e Hv) as Hde.
  pose proof (binary_round_aux_near s m e Hv) as Haux. cbv zeta in Haux.
  set (d := Z.pos (digits2_pos m)) in *.
  set (T := fexp prec emax (d + e)) in *.
  assert (HT : (emin prec emax <= T <= 6 - prec)%Z)
    by (unfold T, fexp, emin; lia).
  pose proof half_ulp_pos as Hdelta.
  pose proof (pow2_pos e) as Hpe.
  pose proof (IZR_lt 0 (Z.pos m) ltac:(lia)) as Hm0.
  unfold binary_round, shl_align. fold d. fold T.
  destruct (T - e)%Z as [|k|k] eqn:Hk.
  - apply Haux. lia.
  - apply Haux. lia.
  - (* shifted left, exactly *)
    rewrite binary_round_aux_canonical;
      [| unfold canonical_mantissa; apply Z.eqb_eq;
         rewrite iter_xO_digits; fold d;
         unfold T, fexp, emin in *; lia
       | lia].
    split; [split; [|reflexivity]|].
    + cbn [valid_binary]. unfold bounded, canonical_mantissa.
      apply andb_true_iff. split.
      * apply Z.eqb_eq. rewrite iter_xO_digits. fold d.
        unfold T, fexp, emin in *. lia.
      * apply Z.leb_le. lia.
    + cbn [B2R].
      assert (Hm : IZR (Z.pos (Pos.iter xO m k)) * powerRZ 2 T =
                   IZR (Z.pos m) * powerRZ 2 e).
      { rewrite iter_xO_pos, mult_IZR, pow2_IZR by lia.
        rewrite Rmult_assoc, <- pow2_add. do 2 f_equal. lia. }
      replace (IZR (cond_Zopp s (Z.pos (Pos.iter xO m k))) * powerRZ 2 T)
        with (IZR (cond_Zopp s (Z.pos m)) * powerRZ 2 e)
        by (destruct s; cbn [cond_Zopp]; rewrite ?opp_IZR; lra).
      rewrite Rminus_diag, Rabs_R0. split; [lra|].
      destruct s; cbn [cond_Zopp]; rewrite ?opp_IZR; nra.
Qed.

(** The float nearest to [D * 2^E], of magnitude at most 32. *)
Lemma binary_normalize_near (D E : Z) (sz : bool) :
  Rabs (IZR D * powerRZ 2 E) <= 32 ->
  let r := binary_normalize prec emax D E sz in
  good_in prec emax r /\
  Rabs (B2R r - IZR D * powerRZ 2 E) <= half_ulp prec /\
  ((0 <= D)%Z -> 0 <= B2R r) /\ ((D <= 0)%Z -> B2R r <= 0).
Proof.
  intros Hv r. subst r.
  pose proof half_ulp_pos as Hdelta.
  pose proof (pow2_pos E) as HpE.
  destruct D as [|m|m]; cbn [binary_normalize].
  - split; [split; reflexivity|]. cbn [B2R].
    rewrite Rmult_0_l, Rminus_diag, Rabs_R0. repeat split; lra.
  - pose proof (IZR_lt 0 (Z.pos m) ltac:(lia)) as Hm0.
    rewrite Rabs_pos_eq in Hv by nra.
    destruct (binary_round_near false m E Hv) as (Hg & He & Hs).
    cbn [cond_Zopp] in He.
    split; [exact Hg|]. split; [exact He|]. split; [intros _; exact Hs|].
    intros; lia.
  - pose proof (IZR_lt 0 (Z.pos m) ltac:(lia)) as Hm0.
    change (Z.neg m) with (- Z.pos m)%Z in *.
    rewrite opp_IZR, Ropp_mult_distr_l_reverse, Rabs_Ropp in Hv.
    rewrite Rabs_pos_eq in Hv by nra.
    destruct (binary_round_near true m E Hv) as (Hg & He & Hs).
    cbn [cond_Zopp] in He.
    split; [exact Hg|]. split; [exact He|]. split; [intros; lia|].
    intros _; exact Hs.
Qed.

(** Rounding does not cross 1: a number of [[0, 1]] rounds to a float
    of [[0, 1]]. *)
Lemma binary_round_aux_unit (m : positive) (e : Z) :
  IZR (Z.pos m) * powerRZ 2 e <= 1 ->
  (e <= fexp prec emax (Z.pos (digits2_pos m) + e))%Z ->
  B2R (binary_round_aux prec emax false (Z.pos m) e loc_Exact) <= 1.
Proof.
  intros Hv HeT.
  pose proof (magnitude_exponent m e ltac:(lra)) as Hde.
  set (d := Z.pos (digits2_pos m)) in *.
  pose proof (pow2_pos e) as Hpe.
  set (T := fexp prec emax (d + e)) in *.
  assert (Hm : (Z.pos m <= 2 ^ (- e))%Z).
  { assert (He0 : (e <= 0)%Z).
    { destruct (Z.le_gt_cases e 0) as [|Hgt]; [assumption|exfalso].
      pose proof (pow2_ge_1 e ltac:(lia)).
      pose proof (IZR_le 1 (Z.pos m) ltac:(lia)).
      assert (powerRZ 2 1 <= powerRZ 2 e) by (apply pow2_le; lia).
      replace (powerRZ 2 1) with 2 in * by (simpl; lra). nra. }
    apply le_IZR. rewrite pow2_IZR by lia.
    assert (Hinv : powerRZ 2 (- e) * powerRZ 2 e = 1)
      by (rewrite <- pow2_add; replace (- e + e)%Z with 0%Z by lia;
          reflexivity).
    pose proof (pow2_pos (- e)). nra. }
  assert (Hde0 : (d + e <= 1)%Z).
  { pose proof (digits2_pos_bound m) as [Hlo _]. fold d in Hlo.
    destruct (Z.le_gt_cases (d + e) 1) as [|Hgt]; [assumption|exfalso].
    assert (Hd : (0 < d)%Z) by (unfold d; lia).
    assert (2 ^ (- e) < 2 ^ (d - 1))%Z by (apply Z.pow_lt_mono_r; lia).
    lia. }
  assert (HT : (emin prec emax <= T <= 0)%Z)
    by (unfold T, fexp, emin; lia).
  pose proof (binary_round_aux_error prec emax Hprec false m e) as Herr.
  cbv zeta in Herr.
  fold d in Herr. fold T in Herr.
  specialize (Herr HeT ltac:(lia)).
  destruct Herr as [[-> Hz] | (m' & e' & -> & Hval & HTe & Hz)].
  { cbn [B2R]. lra. }
  cbn [B2R cond_Zopp].
  set (q := (Z.pos m' * 2 ^ (e' - T))%Z).
  assert (Hq : (Z.pos m' * 2 ^ (e' - e) = q * 2 ^ (T - e))%Z).
  { unfold q. rewrite <- Z.mul_assoc, <- Z.pow_add_r by lia.
    do 2 f_equal. lia. }
  assert (HK : (2 ^ (- e) = 2 ^ (- T) * 2 ^ (T - e))%Z)
    by (rewrite <- Z.pow_add_r by lia; f_equal; lia).
  rewrite Hq in Hz. rewrite HK in Hm.
  assert (HP : (0 < 2 ^ (T - e))%Z) by (apply Z.pow_pos_nonneg; lia).
  assert (Hqle : (q <= 2 ^ (- T))%Z) by nia.
  apply IZR_le in Hqle. unfold q in Hqle.
  rewrite mult_IZR, !pow2_IZR in Hqle by lia.
  assert (Hinv : powerRZ 2 (- T) * powerRZ 2 T = 1)
    by (rewrite <- pow2_add; replace (- T + T)%Z with 0%Z by lia;
        reflexivity).
  assert (He' : powerRZ 2 e' = powerRZ 2 (e' - T) * powerRZ 2 T)
    by (rewrite <- pow2_add; f_equal; lia).
  pose proof (pow2_pos T). rewrite He'. nra.
Qed.

Lemma binary_round_unit (m : positive) (e : Z) :
  IZR (Z.pos m) * powerRZ 2 e <= 1 ->
  B2R (binary_round prec emax false m e) <= 1.
Proof.
  intros Hv.
  pose proof (magnitude_exponent m e ltac:(lra)) as Hde.
  pose proof (binary_round_aux_unit m e Hv) as Haux.
  set (d := Z.pos (digits2_pos m)) in *.
  set (T := fexp prec emax (d + e)) in *.
  assert (HT : (emin prec emax <= T <= 6 - prec)%Z)
    by (unfold T, fexp, emin; lia).
  unfold binary_round, shl_align. fold d. fold T.
  destruct (T - e)%Z as [|k|k] eqn:Hk.
  - apply Haux. lia.
  - apply Haux. lia.
  - rewrite binary_round_aux_canonical;
      [| unfold canonical_mantissa; apply Z.eqb_eq;
         rewrite iter_xO_digits; fold d;
         unfold T, fexp, emin in *; lia
       | lia].
    cbn [B2R cond_Zopp].
    rewrite iter_xO_pos, mult_IZR, pow2_IZR by lia.
    rewrite Rmult_assoc, <- pow2_add.
    replace (Z.pos k + T)%Z with e by lia. exact Hv.
Qed.

Lemma binary_normalize_unit (D E : Z) :
  (0 <= D)%Z -> IZR D * powerRZ 2 E <= 1 ->
  B2R (binary_normalize prec emax D E false) <= 1.
Proof.
  intros HD Hv. destruct D as [|m|m]; cbn [binary_normalize].
  - cbn [B2R]. lra.
  - apply binary_round_unit, Hv.
  - lia.
Qed.

(** Addition, subtraction and multiplication of two floats of the
    format, with a result of magnitude at most 32: a float of the
    format within half a unit of the exact result. *)
Lemma SFadd_near (x y : spec_float) :
  good_in prec emax x -> good_in prec emax y -> Rabs (B2R x + B2R y) <= 32 ->
  good_in prec emax (SFadd prec emax x y) /\
  Rabs (B2R (SFadd prec emax x y) - (B2R x + B2R y)) <= half_ulp prec.
Proof.
  pose proof half_ulp_pos as Hdelta.
  intros [Hvx Hfx] [Hvy Hfy] Hb.
  destruct x as [sx| | |sx mx ex]; try discriminate;
    destruct y as [sy| | |sy my ey]; try discriminate.
  - split; [destruct sx, sy; split; reflexivity|].
    replace (B2R (SFadd prec emax (S754_zero sx) (S754_zero sy))) with 0
      by (destruct sx, sy; reflexivity).
    cbn [B2R]. rewrite Rplus_0_l, Rminus_diag, Rabs_R0. lra.
  - cbn [SFadd]. split; [split; assumption|].
    cbn [B2R]. rewrite Rplus_0_l, Rminus_diag, Rabs_R0. lra.
  - cbn [SFadd]. split; [split; assumption|].
    cbn [B2R]. rewrite Rplus_0_r, Rminus_diag, Rabs_R0. lra.
  - rewrite SFadd_finite.
    set (ez := Z.min ex ey).
    assert (Hval : IZR (scaled ez (S754_finite sx mx ex) +
                        scaled ez (S754_finite sy my ey)) * powerRZ 2 ez =
                   B2R (S754_finite sx mx ex) + B2R (S754_finite sy my ey)).
    { rewrite plus_IZR, Rmult_plus_distr_r.
      rewrite <- !B2R_scaled by (cbn [exponent]; lia). reflexivity. }
    rewrite <- Hval in *.
    destruct (binary_normalize_near _ ez false Hb) as (Hg & He & _).
    split; assumption.
Qed.

Lemma SFsub_near (x y : spec_float) :
  good_in prec emax x -> good_in prec emax y -> Rabs (B2R x - B2R y) <= 32 ->
  good_in prec emax (SFsub prec emax x y) /\
  Rabs (B2R (SFsub prec emax x y) - (B2R x - B2R y)) <= half_ulp prec.
Proof.
  pose proof half_ulp_pos as Hdelta.
  intros [Hvx Hfx] [Hvy Hfy] Hb.
  destruct x as [sx| | |sx mx ex]; try discriminate;
    destruct y as [sy| | |sy my ey]; try discriminate.
  - split; [destruct sx, sy; split; reflexivity|].
    replace (B2R (SFsub prec emax (S754_zero sx) (S754_zero sy))) with 0
      by (destruct sx, sy; reflexivity).
    cbn [B2R]. rewrite Rminus_diag, Rminus_diag, Rabs_R0. lra.
  - cbn [SFsub]. split; [split; assumption|].
    cbn [B2R].
    replace (IZR (cond_Zopp (negb sy) (Z.pos my)))
      with (- IZR (cond_Zopp sy (Z.pos my)))
      by (destruct sy; cbn [negb cond_Zopp]; rewrite ?opp_IZR; lra).
    match goal with |- Rabs ?t <= _ => replace t with 0 by lra end.
    rewrite Rabs_R0. lra.
  - cbn [SFsub]. split; [split; assumption|].
    cbn [B2R]. rewrite Rminus_0_r, Rminus_diag, Rabs_R0. lra.
  - rewrite SFsub_finite.
    set (ez := Z.min ex ey).
    assert (Hval : IZR (scaled ez (S754_finite sx mx ex) -
                        scaled ez (S754_finite sy my ey)) * powerRZ 2 ez =
                   B2R (S754_finite sx mx ex) - B2R (S754_finite sy my ey)).
    { rewrite minus_IZR, Rmult_minus_distr_r.
      rewrite <- !B2R_scaled by (cbn [exponent]; lia). reflexivity. }
    rewrite <- Hval in *.
    destruct (binary_normalize_near _ ez false Hb) as (Hg & He & _).
    split; assumption.
Qed.

Lemma SFmul_near (x y : spec_float) :
  good_in prec emax x -> good_in prec emax y -> Rabs (B2R x * B2R y) <= 32 ->
  good_in prec emax (SFmul prec emax x y) /\
  Rabs (B2R (SFmul prec emax x y) - B2R x * B2R y) <= half_ulp prec.
Proof.
  pose proof half_ulp_pos as Hdelta.
  intros [Hvx Hfx] [Hvy Hfy] Hb.
  destruct x as [sx| | |sx mx ex]; try discriminate;
    destruct y as [sy| | |sy my ey]; try discriminate;
    try (cbn [SFmul B2R]; split; [split; reflexivity|];
         rewrite ?Rmult_0_l, ?Rmult_0_r, Rminus_diag, Rabs_R0; lra).
  cbn [SFmul].
  assert (Hval : IZR (cond_Zopp (xorb sx sy) (Z.pos (mx * my))) *
                 powerRZ 2 (ex + ey) =
                 B2R (S754_finite sx mx ex) * B2R (S754_finite sy my ey)).
  { cbn [B2R]. rewrite pow2_add, Pos2Z.inj_mul.
    destruct sx, sy; cbn [xorb cond_Zopp];
      rewrite ?opp_IZR, ?mult_IZR; ring. }
  rewrite <- Hval in *.
  assert (Hmag : IZR (Z.pos (mx * my)) * powerRZ 2 (ex + ey) <= 32).
  { pose proof (pow2_pos (ex + ey)).
    pose proof (IZR_lt 0 (Z.pos (mx * my)) ltac:(lia)).
    destruct (xorb sx sy); cbn [cond_Zopp] in Hb;
      rewrite ?opp_IZR, ?Ropp_mult_distr_l_reverse, ?Rabs_Ropp in Hb;
      rewrite Rabs_pos_eq in Hb by nra; exact Hb. }
  assert (HeT : (ex + ey <=
                 fexp prec emax (Z.pos (digits2_pos (mx * my)) + (ex + ey)))%Z).
  { pose proof (digits2_pos_mul mx my) as Hd.
    cbn [valid_binary] in Hvx, Hvy. unfold bounded, canonical_mantissa in *.
    apply andb_true_iff in Hvx as [Hcx _]. apply andb_true_iff in Hvy as [Hcy _].
    apply Z.eqb_eq in Hcx, Hcy.
    unfold fexp, emin in *.
    assert (0 < Z.pos (digits2_pos mx))%Z by lia.
    assert (0 < Z.pos (digits2_pos my))%Z by lia.
    lia. }
  destruct (binary_round_aux_near (xorb sx sy) (mx * my) (ex + ey) Hmag HeT)
    as (Hg & He & _).
  split; assumption.
Qed.

(** A conversion to the format rounds as any operation does. *)
Lemma convert_near (x : spec_float) :
  is_finite x = true -> Rabs (B2R x) <= 32 ->
  good_in prec emax (convert prec emax x) /\
  Rabs (B2R (convert prec emax x) - B2R x) <= half_ulp prec.
Proof.
  pose proof half_ulp_pos as Hdelta.
  intros Hf Hb. destruct x as [s| | |s m e]; try discriminate.
  - split; [split; reflexivity|]. cbn [convert B2R].
    rewrite Rminus_diag, Rabs_R0. lra.
  - cbn [convert B2R] in *.
    destruct (binary_normalize_near _ e s Hb) as (Hg & He & _).
    split; assumption.
Qed.

End RoundingValues.

(** ** binary32 and binary64: the roundings of the code *)

Section CodeRoundings.

Import Binary32.
Local Open Scope R_scope.

Lemma delta_half_ulp : half_ulp prec = delta.
Proof.
  unfold half_ulp, delta, prec. change (powerRZ 2 (5 - 24)) with (/ 2 ^ 19).
  replace (2 ^ 19) with 524288 by (simpl; lra). reflexivity.
Qed.

Lemma b32_format : (2 <= prec)%Z /\ (prec + 7 <= emax)%Z.
Proof. unfold prec, emax. lia. Qed.

Lemma b64_format : (2 <= dprec)%Z /\ (dprec + 7 <= demax)%Z.
Proof. unfold dprec, demax. lia. Qed.

Lemma b32_normalize_near (D E : Z) (sz : bool) :
  Rabs (IZR D * powerRZ 2 E) <= 32 ->
  let r := binary_normalize prec emax D E sz in
  good r /\ Rabs (B2R r - IZR D * powerRZ 2 E) <= delta /\
  ((0 <= D)%Z -> 0 <= B2R r) /\ ((D <= 0)%Z -> B2R r <= 0).
Proof.
  rewrite <- delta_half_ulp.
  exact (binary_normalize_near prec emax (proj1 b32_format) (proj2 b32_format)
           D E sz).
Qed.

Lemma b32_normalize_unit (D E : Z) :
  (0 <= D)%Z -> IZR D * powerRZ 2 E <= 1 ->
  B2R (binary_normalize prec emax D E false) <= 1.
Proof.
  exact (binary_normalize_unit prec emax (proj1 b32_format) (proj2 b32_format)
           D E).
Qed.

Lemma b32_add_near (x y : spec_float) :
  good x -> good y -> Rabs (B2R x + B2R y) <= 32 ->
  good (SFadd prec emax x y) /\
  Rabs (B2R (SFadd prec emax x y) - (B2R x + B2R y)) <= delta.
Proof.
  rewrite <- delta_half_ulp.
  exact (SFadd_near prec emax (proj1 b32_format) (proj2 b32_format) x y).
Qed.

Lemma b32_sub_near (x y : spec_float) :
  good x -> good y -> Rabs (B2R x - B2R y) <= 32 ->
  good (SFsub prec emax x y) /\
  Rabs (B2R (SFsub prec emax x y) - (B2R x - B2R y)) <= delta.
Proof.
  rewrite <- delta_half_ulp.
  exact (SFsub_near prec emax (proj1 b32_format) (proj2 b32_format) x y).
Qed.

Lemma b32_mul_near (x y : spec_float) :
  good x -> good y -> Rabs (B2R x * B2R y) <= 32 ->
  good (SFmul prec emax x y) /\
  Rabs (B2R (SFmul prec emax x y) - B2R x * B2R y) <= delta.
Proof.
  rewrite <- delta_half_ulp.
  exact (SFmul_near prec emax (proj1 b32_format) (proj2 b32_format) x y).
Qed.

(** The literals of the noise code are floats of the format. *)
Lemma b32_literal (n : Z) :
  In n [0; 1; 2; 6; 10; 15]%Z -> good (of_Z n) /\ B2R (of_Z n) = IZR n.
Proof.
  cbn [In]. intros H.
  repeat (destruct H as [<- | H];
    [split; [split; reflexivity|
             vm_compute of_Z; unfold B2R; cbn [cond_Zopp powerRZ];
             simpl; lra]|]).
  contradiction.
Qed.

(** The fractional part [x - floor(x)] computed by the code is a float
    of [[0, 1]]: it can be 1, for a tiny negative [x]. *)
Lemma b32_fraction_unit (x : spec_float) (n : Z) :
  valid_binary prec emax x = true -> floor_value x = Some n ->
  good (SFsub prec emax x (b32_floor x)) /\
  0 <= B2R (SFsub prec emax x (b32_floor x)) <= 1.
Proof.
  intros Hv Hn.
  assert (Hfin : is_finite x = true) by (destruct x; try discriminate; reflexivity).
  set (E := Z.min (exponent x) 0).
  rewrite (b32_fraction x n E Hv Hn) by (unfold E; lia).
  pose proof (floor_value_scaled x E Hfin ltac:(unfold E; lia)
                ltac:(unfold E; lia)) as Hfl.
  rewrite Hn in Hfl. injection Hfl as ->.
  set (P := (2 ^ (- E))%Z).
  assert (HP : (0 < P)%Z) by (apply Z.pow_pos_nonneg; unfold E; lia).
  set (D := (scaled E x - scaled E x / P * P)%Z).
  assert (HD : (0 <= D < P)%Z).
  { unfold D. pose proof (Z.mod_pos_bound (scaled E x) P HP) as Hmod.
    rewrite Z.mod_eq in Hmod by lia. lia. }
  assert (Hval : 0 <= IZR D * powerRZ 2 E < 1).
  { destruct HD as [HD0 HD1]. apply IZR_le in HD0. apply IZR_lt in HD1.
    unfold P in HD1. rewrite pow2_IZR in HD1 by (unfold E; lia).
    assert (Hinv : powerRZ 2 (- E) * powerRZ 2 E = 1)
      by (rewrite <- pow2_add; replace (- E + E)%Z with 0%Z by lia;
          reflexivity).
    pose proof (pow2_pos E). pose proof (pow2_pos (- E)). split; nra. }
  destruct (b32_normalize_near D E false) as (Hg & _ & Hs & _).
  { rewrite Rabs_pos_eq; lra. }
  split; [exact Hg|]. split; [apply Hs; lia|].
  apply b32_normalize_unit; [lia|lra].
Qed.

End CodeRoundings.

(** ** binary32: the error of the noise against exact arithmetic *)

Section Binary32Range.

Import RealModel Binary32.
Local Open Scope R_scope.

Lemma delta_pos : 0 < delta.
Proof. unfold delta. lra. Qed.

Lemma Rabs_le_inv (x a : R) : Rabs x <= a -> - a <= x <= a.
Proof. unfold Rabs. destruct (Rcase_abs x); lra. Qed.

Lemma near_exact (x : spec_float) : good x -> near x (B2R x) 0.
Proof.
  intros Hg. split; [exact Hg|]. rewrite Rminus_diag, Rabs_R0. lra.
Qed.

Lemma near_weaken (x : spec_float) (r e e' : R) :
  near x r e -> e <= e' -> near x r e'.
Proof. intros [Hg He] Hle. split; [exact Hg|lra]. Qed.

Lemma near_add (x y : spec_float) (a b ea eb A B : R) :
  near x a ea -> near y b eb -> Rabs a <= A -> Rabs b <= B ->
  A + B + ea + eb <= 32 ->
  near (SFadd prec emax x y) (a + b) (ea + eb + delta).
Proof.
  intros [Hgx Hx] [Hgy Hy] HA HB Hb.
  apply Rabs_le_inv in Hx, Hy.
  pose proof (Rabs_triang (B2R x + B2R y - (a + b)) (a + b)) as Ht.
  replace (B2R x + B2R y - (a + b) + (a + b)) with (B2R x + B2R y) in Ht
    by ring.
  pose proof (Rabs_triang a b) as Hab.
  assert (Hd : Rabs (B2R x + B2R y - (a + b)) <= ea + eb)
    by (apply Rabs_le; lra).
  destruct (b32_add_near x y Hgx Hgy ltac:(lra)) as [Hg He].
  split; [exact Hg|].
  apply Rabs_le_inv in He, Hd. apply Rabs_le. lra.
Qed.

Lemma near_sub (x y : spec_float) (a b ea eb A B : R) :
  near x a ea -> near y b eb -> Rabs a <= A -> Rabs b <= B ->
  A + B + ea + eb <= 32 ->
  near (SFsub prec emax x y) (a - b) (ea + eb + delta).
Proof.
  intros [Hgx Hx] [Hgy Hy] HA HB Hb.
  apply Rabs_le_inv in Hx, Hy.
  pose proof (Rabs_triang (B2R x - B2R y - (a - b)) (a - b)) as Ht.
  replace (B2R x - B2R y - (a - b) + (a - b)) with (B2R x - B2R y) in Ht
    by ring.
  pose proof (Rabs_triang a (- b)) as Hab. rewrite Rabs_Ropp in Hab.
  change (a + - b) with (a - b) in Hab.
  assert (Hd : Rabs (B2R x - B2R y - (a - b)) <= ea + eb)
    by (apply Rabs_le; lra).
  destruct (b32_sub_near x y Hgx Hgy ltac:(lra)) as [Hg He].
  split; [exact Hg|].
  apply Rabs_le_inv in He, Hd. apply Rabs_le. lra.
Qed.

Lemma Rabs_mult_le (p q P Q : R) :
  Rabs p <= P -> Rabs q <= Q -> Rabs (p * q) <= P * Q.
Proof.
  intros Hp Hq. rewrite Rabs_mult.
  apply Rmult_le_compat; auto using Rabs_pos.
Qed.

Lemma near_mul (x y : spec_float) (a b ea eb A B : R) :
  near x a ea -> near y b eb -> Rabs a <= A -> Rabs b <= B ->
  (A + ea) * (B + eb) <= 32 ->
  near (SFmul prec emax x y) (a * b) (A * eb + B * ea + ea * eb + delta).
Proof.
  intros [Hgx Hx] [Hgy Hy] Ha Hb Hm.
  set (dx := B2R x - a) in *. set (dy := B2R y - b) in *.
  assert (Hxv : B2R x = a + dx) by (unfold dx; ring).
  assert (Hyv : B2R y = b + dy) by (unfold dy; ring).
  assert (Hbx : Rabs (B2R x) <= A + ea)
    by (rewrite Hxv; eapply Rle_trans; [apply Rabs_triang|lra]).
  assert (Hby : Rabs (B2R y) <= B + eb)
    by (rewrite Hyv; eapply Rle_trans; [apply Rabs_triang|lra]).
  pose proof (Rabs_mult_le _ _ _ _ Hbx Hby) as Hprod.
  destruct (b32_mul_near x y Hgx Hgy ltac:(lra)) as [Hg He].
  split; [exact Hg|].
  assert (Hd : Rabs (B2R x * B2R y - a * b) <= A * eb + B * ea + ea * eb).
  { replace (B2R x * B2R y - a * b) with (a * dy + (b * dx + dx * dy))
      by (rewrite Hxv, Hyv; ring).
    pose proof (Rabs_mult_le _ _ _ _ Ha Hy).
    pose proof (Rabs_mult_le _ _ _ _ Hb Hx).
    pose proof (Rabs_mult_le _ _ _ _ Hx Hy).
    eapply Rle_trans; [apply Rabs_triang|].
    pose proof (Rabs_triang (b * dx) (dx * dy)). lra. }
  apply Rabs_le_inv in He, Hd. apply Rabs_le. lra.
Qed.

Lemma near_opp (x : spec_float) (a e : R) :
  near x a e -> near (SFopp x) (- a) e.
Proof.
  intros [Hg He]. split; [apply good_opp, Hg|].
  rewrite B2R_opp.
  replace (- B2R x - - a) with (- (B2R x - a)) by ring.
  rewrite Rabs_Ropp. exact He.
Qed.

Lemma near_literal (n : Z) :
  In n [0; 1; 2; 6; 10; 15]%Z -> near (of_Z n) (IZR n) 0.
Proof.
  intros Hn. destruct (b32_literal n Hn) as [Hg Hv].
  rewrite <- Hv. apply near_exact, Hg.
Qed.

(** The curve at a float of [[0, 1]]: seven rounded operations, within
    [26 * delta] of the polynomial. *)
Lemma near_fade (t : spec_float) :
  good t -> 0 <= B2R t <= 1 ->
  near (fade (ops := binary32) t) (fade (ops := Exact) (B2R t))
       (26 * delta).
Proof.
  intros Hg Ht. pose proof delta_pos as Hd.
  assert (Hd' : delta <= / 1000) by (unfold delta; lra).
  pose proof (near_exact t Hg) as Nt.
  set (a := B2R t) in *.
  pose proof (near_literal 6 ltac:(cbn; tauto)) as N6.
  pose proof (near_literal 15 ltac:(cbn; tauto)) as N15.
  pose proof (near_literal 10 ltac:(cbn; tauto)) as N10.
  assert (N1 : near (SFmul prec emax t (of_Z 6)) (a * 6) delta).
  { eapply near_weaken;
      [apply (near_mul _ _ _ _ _ _ 1 6 Nt N6); near_side|lra]. }
  assert (N2 : near (SFsub prec emax (SFmul prec emax t (of_Z 6)) (of_Z 15))
                    (a * 6 - 15) (2 * delta)).
  { eapply near_weaken;
      [apply (near_sub _ _ _ _ _ _ 6 15 N1 N15); near_side|lra]. }
  assert (N3 : near (SFmul prec emax t
                       (SFsub prec emax (SFmul prec emax t (of_Z 6)) (of_Z 15)))
                    (a * (a * 6 - 15)) (3 * delta)).
  { eapply near_weaken;
      [apply (near_mul _ _ _ _ _ _ 1 15 Nt N2); near_side|lra]. }
  assert (N4 : near (SFadd prec emax
                       (SFmul prec emax t
                          (SFsub prec emax (SFmul prec emax t (of_Z 6))
                             (of_Z 15))) (of_Z 10))
                    (a * (a * 6 - 15) + 10) (4 * delta)).
  { eapply near_weaken;
      [apply (near_add _ _ _ _ _ _ 15 10 N3 N10); near_side|lra]. }
  assert (N5 : near (SFmul prec emax t t) (a * a) delta).
  { eapply near_weaken;
      [apply (near_mul _ _ _ _ _ _ 1 1 Nt Nt); near_side|lra]. }
  assert (N6' : near (SFmul prec emax (SFmul prec emax t t) t) (a * a * a)
                     (2 * delta)).
  { eapply near_weaken;
      [apply (near_mul _ _ _ _ _ _ 1 1 N5 Nt); near_side|lra]. }
  eapply near_weaken;
    [apply (near_mul _ _ _ _ _ _ 1 10 N6' N4); near_side|nra].
Qed.

(** A dot product of two offsets known within [delta]: at most one
    rounded addition more. *)
Lemma near_dot (h : Z) (x z : spec_float) (a b : R) :
  (0 <= h <= 7)%Z -> near x a delta -> near z b delta ->
  Rabs a <= 1 -> Rabs b <= 1 ->
  exists (d : spec_float) (d' : R),
    gradientDotDistance (ops := binary32) h x z = Some d /\
    gradientDotDistance (ops := Exact) h a b = Some d' /\
    near d d' (3 * delta).
Proof.
  intros Hh Nx Nz Ha Hb. pose proof delta_pos as Hd.
  assert (Hd' : delta <= / 1000) by (unfold delta; lra).
  pose proof (near_opp _ _ _ Nx) as Nx'.
  apply Rabs_le_inv in Ha, Hb.
  hash_cases h; cbn [gradientDotDistance]; eexists _, _;
    (split; [reflexivity|]); (split; [reflexivity|]); real_ops;
    cbn [fadd fsub fopp binary32].
  - eapply near_weaken; [apply (near_add _ _ _ _ _ _ 1 1 Nx Nz); near_side|lra].
  - eapply near_weaken; [apply (near_add _ _ _ _ _ _ 1 1 Nx' Nz); near_side|lra].
  - eapply near_weaken; [apply (near_sub _ _ _ _ _ _ 1 1 Nx Nz); near_side|lra].
  - eapply near_weaken; [apply (near_sub _ _ _ _ _ _ 1 1 Nx' Nz); near_side|lra].
  - eapply near_weaken; [exact Nx|lra].
  - eapply near_weaken; [exact Nz|lra].
  - eapply near_weaken; [exact Nx'|lra].
  - eapply near_weaken; [apply near_opp, Nz|lra].
Qed.

(** The interpolation of two values of [[-2, 2]] with a weight of
    [[0, 1]], all three known approximately. *)
Lemma near_lerp (w p q : spec_float) (w' p' q' ew ep eq : R) :
  near w w' ew -> near p p' ep -> near q q' eq ->
  0 <= w' <= 1 -> Rabs p' <= 2 -> Rabs q' <= 2 ->
  0 <= ew <= 32 * delta -> 0 <= ep <= 400 * delta -> 0 <= eq <= 400 * delta ->
  near (lerp (ops := binary32) w p q) (lerp (ops := Exact) w' p' q')
       (4 * ew + ep + eq + 6 * delta).
Proof.
  intros Nw Np Nq Hw Hp Hq Hew Hep Heq. pose proof delta_pos as Hd.
  assert (Hd' : delta <= / 100000) by (unfold delta; lra).
  apply Rabs_le_inv in Hp, Hq.
  pose proof (near_literal 1 ltac:(cbn; tauto)) as N1.
  assert (Nc : near (SFsub prec emax (of_Z 1) w) (1 - w') (ew + delta)).
  { eapply near_weaken;
      [apply (near_sub _ _ _ _ _ _ 1 1 N1 Nw); near_side|lra]. }
  assert (Hpw : ep * (ew + delta) <= delta / 2) by nra.
  assert (Hqw : eq * ew <= delta / 2) by nra.
  assert (Na : near (SFmul prec emax p (SFsub prec emax (of_Z 1) w))
                    (p' * (1 - w')) (2 * ew + ep + 7 / 2 * delta)).
  { eapply near_weaken;
      [apply (near_mul _ _ _ _ _ _ 2 1 Np Nc); near_side|lra]. }
  assert (Nb : near (SFmul prec emax q w) (q' * w')
                    (2 * ew + eq + 3 / 2 * delta)).
  { eapply near_weaken;
      [apply (near_mul _ _ _ _ _ _ 2 1 Nq Nw); near_side|lra]. }
  eapply near_weaken;
    [apply (near_add _ _ _ _ _ _ 2 2 Na Nb); near_side|lra].
Qed.

(** The two constants of the rescaling, as doubles. *)
Lemma b64_one_half :
  good_in dprec demax (one_half_d (ops := binary32)) /\
  B2R (one_half_d (ops := binary32)) = / 2 /\
  good_in dprec demax (to_double (FloatOps := binary32) (one_half (ops := binary32))) /\
  B2R (to_double (FloatOps := binary32) (one_half (ops := binary32))) = / 2.
Proof.
  split; [split; reflexivity|]. split.
  { vm_compute one_half_d. unfold B2R. cbn [cond_Zopp powerRZ]. simpl. lra. }
  split; [split; reflexivity|].
  vm_compute to_double. unfold B2R. cbn [cond_Zopp powerRZ]. simpl. lra.
Qed.

Lemma half_ulp_double : half_ulp dprec <= delta / 1000.
Proof.
  unfold half_ulp, delta, dprec. change (powerRZ 2 (5 - 53)) with (/ 2 ^ 48).
  replace (2 ^ 48) with 281474976710656 by (simpl; lra). lra.
Qed.

(** The rescaling of a value of [[-2, 2]] known approximately: the
    product and the sum round in [double], far below [delta], and the
    conversion of the result to [float] rounds once more. *)
Lemma near_rescale (L : spec_float) (L' eL : R) :
  near L L' eL -> Rabs L' <= 2 -> 0 <= eL <= 400 * delta ->
  near (rescale (ops := binary32) L) (rescale (ops := Exact) L')
       (eL / 2 + 2 * delta).
Proof.
  intros [[HvL HfL] HL] HL' HeL. pose proof delta_pos as Hd.
  assert (Hd' : delta <= / 100000) by (unfold delta; lra).
  pose proof half_ulp_double as Hdd.
  pose proof (half_ulp_pos dprec) as Hdp.
  destruct b64_format as [F1 F2]. destruct b32_format as [G1 G2].
  destruct b64_one_half as (Gh & Vh & Gh' & Vh').
  apply Rabs_le_inv in HL, HL'.
  rewrite rescale_exact. unfold rescale.
  cbn [to_double of_double dadd dmul binary32].
  change (to_double (FloatOps := binary32) (one_half (ops := binary32)))
    with (convert dprec demax (one_half (ops := binary32))) in Gh', Vh'.
  set (h := one_half_d (ops := binary32)) in *.
  set (h' := convert dprec demax (one_half (ops := binary32))) in *.
  destruct (convert_near dprec demax F1 F2 L HfL) as [GLd ELd].
  { apply Rabs_le. lra. }
  set (Ld := convert dprec demax L) in *. apply Rabs_le_inv in ELd.
  destruct (SFmul_near dprec demax F1 F2 h Ld Gh GLd) as [GP EP].
  { rewrite Vh. apply Rabs_le. lra. }
  set (P := SFmul dprec demax h Ld) in *. rewrite Vh in EP.
  apply Rabs_le_inv in EP.
  destruct (SFadd_near dprec demax F1 F2 P h' GP Gh') as [GS ES].
  { rewrite Vh'. apply Rabs_le. lra. }
  set (S := SFadd dprec demax P h') in *. rewrite Vh' in ES.
  apply Rabs_le_inv in ES.
  destruct (convert_near prec emax G1 G2 S (proj2 GS)) as [Gr Er].
  { apply Rabs_le. lra. }
  rewrite delta_half_ulp in Er. apply Rabs_le_inv in Er.
  split; [exact Gr|]. apply Rabs_le. lra.
Qed.

(** The noise of a cell at two floats of [[0, 1]]: the binary32 result
    is within [173 * delta] of the exact one. *)
Lemma b32_noiseCell_near (gridX gridZ : Z) (x z : spec_float) :
  (0 <= gridX <= 255)%Z -> (0 <= gridZ <= 255)%Z ->
  good x -> good z -> 0 <= B2R x <= 1 -> 0 <= B2R z <= 1 ->
  exists (r : spec_float) (r' : R),
    noiseCell (ops := binary32) gridX gridZ x z = Some r /\
    noiseCell (ops := Exact) gridX gridZ (B2R x) (B2R z) = Some r' /\
    near r r' (173 * delta).
Proof.
  intros HX HZ Hgx Hgz Hx Hz. pose proof delta_pos as Hd.
  assert (Hd' : delta <= / 100000) by (unfold delta; lra).
  unfold noiseCell.
  destruct (table_at_defined gridX) as (p0 & Hp0 & Hr0); [lia|].
  destruct (table_at_defined (gridX + 1)) as (p1 & Hp1 & Hr1); [lia|].
  destruct (table_at_defined (p0 + gridZ)) as (g00 & Hg00 & _); [lia|].
  destruct (table_at_defined (p1 + gridZ)) as (g10 & Hg10 & _); [lia|].
  destruct (table_at_defined (p0 + gridZ + 1)) as (g01 & Hg01 & _); [lia|].
  destruct (table_at_defined (p1 + gridZ + 1)) as (g11 & Hg11 & _); [lia|].
  rewrite Hp0, Hp1. cbn [mbind option_bind].
  rewrite Hg00, Hg10, Hg01, Hg11. cbn [mbind option_bind].
  set (a := B2R x) in *. set (b := B2R z) in *.
  pose proof (near_literal 1 ltac:(cbn; tauto)) as N1.
  assert (Nx0 : near x a 0) by apply near_exact, Hgx.
  assert (Nz0 : near z b 0) by apply near_exact, Hgz.
  assert (Nx : near x a delta) by (eapply near_weaken; [exact Nx0|lra]).
  assert (Nz : near z b delta) by (eapply near_weaken; [exact Nz0|lra]).
  set (x1 := fsub (FloatOps := binary32) x (of_int 1)).
  set (z1 := fsub (FloatOps := binary32) z (of_int 1)).
  set (a1 := fsub (FloatOps := Exact) a (of_int 1)).
  set (b1 := fsub (FloatOps := Exact) b (of_int 1)).
  assert (Ha1 : a1 = a - 1) by reflexivity.
  assert (Hb1 : b1 = b - 1) by reflexivity.
  assert (Nx1 : near x1 a1 delta).
  { rewrite Ha1. eapply near_weaken;
      [apply (near_sub _ _ _ _ _ _ 1 1 Nx0 N1); near_side|lra]. }
  assert (Nz1 : near z1 b1 delta).
  { rewrite Hb1. eapply near_weaken;
      [apply (near_sub _ _ _ _ _ _ 1 1 Nz0 N1); near_side|lra]. }
  clearbody x1 z1 a1 b1.
  destruct (near_dot (Int.land g00 7) x z a b (land_7_range g00) Nx Nz)
    as (d00 & e00 & E00 & E00' & N00); [near_side..|].
  destruct (near_dot (Int.land g10 7) x1 z a1 b (land_7_range g10) Nx1 Nz)
    as (d10 & e10 & E10 & E10' & N10); [near_side..|].
  destruct (near_dot (Int.land g01 7) x z1 a b1 (land_7_range g01) Nx Nz1)
    as (d01 & e01 & E01 & E01' & N01); [near_side..|].
  destruct (near_dot (Int.land g11 7) x1 z1 a1 b1 (land_7_range g11) Nx1 Nz1)
    as (d11 & e11 & E11 & E11' & N11); [near_side..|].
  rewrite E00, E10, E01, E11, E00', E10', E01', E11'.
  cbn [mbind option_bind].
  eexists _, _. split; [reflexivity|]. split; [reflexivity|].
  apply gradientDotDistance_bound in E00'; [|lra..].
  apply gradientDotDistance_bound in E10'; [|lra..].
  apply gradientDotDistance_bound in E01'; [|lra..].
  apply gradientDotDistance_bound in E11'; [|lra..].
  pose proof (near_fade x Hgx Hx) as Nu. fold a in Nu.
  pose proof (near_fade z Hgz Hz) as Nv. fold b in Nv.
  pose proof (fade_range a Hx) as Hu.
  pose proof (fade_range b Hz) as Hv.
  pose proof (lerp_between _ _ _ (-2) 2 Hu E00' E10') as Hbot.
  pose proof (lerp_between _ _ _ (-2) 2 Hu E01' E11') as Htop.
  pose proof (lerp_between _ _ _ (-2) 2 Hv Hbot Htop) as Hall.
  assert (Nbot : near (lerp (ops := binary32) (fade (ops := binary32) x) d00 d10)
                      (lerp (ops := Exact) (fade (ops := Exact) a) e00 e10) (116 * delta)).
  { eapply near_weaken;
      [apply (near_lerp _ _ _ _ _ _ _ _ _ Nu N00 N10); near_side|lra]. }
  assert (Ntop : near (lerp (ops := binary32) (fade (ops := binary32) x) d01 d11)
                      (lerp (ops := Exact) (fade (ops := Exact) a) e01 e11) (116 * delta)).
  { eapply near_weaken;
      [apply (near_lerp _ _ _ _ _ _ _ _ _ Nu N01 N11); near_side|lra]. }
  pose proof (near_lerp _ _ _ _ _ _ _ _ _ Nv Nbot Ntop Hv
                ltac:(near_side) ltac:(near_side) ltac:(near_side)
                ltac:(near_side) ltac:(near_side)) as Nall.
  set (L := lerp (ops := binary32) (fade (ops := binary32) z) _ _) in *.
  set (L' := lerp (ops := Exact) (fade (ops := Exact) b) _ _) in *.
  clearbody L L'.
  eapply near_weaken; [apply (near_rescale _ _ _ Nall); near_side|lra].
Qed.

(** Claim C10 for the code as compiled to binary32: wherever
    [noiseValue] is defined its result is a finite float within
    [173 * delta] of [[0, 1]], so well inside [[-0.5, 1.5]]. *)
Lemma b32_noiseValue_range (x z r : spec_float) :
  valid_binary prec emax x = true -> valid_binary prec emax z = true ->
  noiseValue (ops := binary32) x z = Some r ->
  good r /\ - (173 * delta) <= B2R r <= 1 + 173 * delta.
Proof.
  intros Hvx Hvz. unfold noiseValue.
  destruct (gridIndex x) as [gx|] eqn:Hgx; cbn [mbind option_bind];
    [|discriminate].
  destruct (gridIndex z) as [gz|] eqn:Hgz; cbn [mbind option_bind];
    [|discriminate].
  intros Hr.
  pose proof (gridIndex_range _ _ Hgx) as HX.
  pose proof (gridIndex_range _ _ Hgz) as HZ.
  assert (Hfx : exists n, floor_value x = Some n).
  { destruct x; cbn [floor_value]; eauto; discriminate. }
  assert (Hfz : exists n, floor_value z = Some n).
  { destruct z; cbn [floor_value]; eauto; discriminate. }
  destruct Hfx as [nx Hnx]. destruct Hfz as [nz Hnz].
  destruct (b32_fraction_unit x nx Hvx Hnx) as [Gx Ux].
  destruct (b32_fraction_unit z nz Hvz Hnz) as [Gz Uz].
  cbn [fsub ffloor binary32] in Hr.
  destruct (b32_noiseCell_near gx gz _ _ HX HZ Gx Gz Ux Uz)
    as (r0 & r' & E & E' & [Hg Hn]).
  rewrite E in Hr. injection Hr as <-.
  apply noiseCell_unit in E'; [|assumption..].
  apply Rabs_le_inv in Hn. split; [exact Hg|lra].
Qed.

End Binary32Range.

(** * The rest of [main.cpp]: properties *)

(** ** The mesh *)

Section MeshProperties.

Context {F : Type} {ops : FloatOps F}.

Lemma wrap_small (n : Z) : 0 <= n < 2 ^ 32 -> UInt.wrap n = n.
Proof. intros Hn. unfold UInt.wrap, UInt.modulus. apply Z.mod_small, Hn. Qed.

Lemma store_app {A : Type} (l1 l2 : list A) (v0 v : A) (k : Z) :
  k = Z.of_nat (length l1) ->
  store (l1 ++ v0 :: l2) k v = Some (l1 ++ v :: l2).
Proof.
  intros ->. unfold store. rewrite bool_decide_eq_true_2.
  - rewrite Nat2Z.id, insert_app_r_alt, Nat.sub_diag by lia. reflexivity.
  - rewrite length_app. cbn [length]. lia.
Qed.

(** The grid has [size] vertices on a side, and the number of its
    vertices is a value of [unsigned int]. *)
Variable size : Z.
Hypothesis size_pos : 1 <= size.
Hypothesis size_fits : size * size < 2 ^ 32.

Lemma index_here (i j : Z) :
  0 <= i < size -> 0 <= j < size ->
  UInt.add (UInt.mul size (UInt.of_int i)) (UInt.of_int j) = size * i + j.
Proof.
  intros Hi Hj. unfold UInt.add, UInt.mul, UInt.of_int.
  rewrite (wrap_small i), (wrap_small j) by nia.
  rewrite (wrap_small (size * i)) by nia.
  apply wrap_small. nia.
Qed.

Lemma index_below (i j : Z) :
  0 <= i < size - 1 -> 0 <= j < size ->
  UInt.add (UInt.mul size (UInt.of_int (i + 1))) (UInt.of_int j) =
  size * (i + 1) + j.
Proof.
  intros Hi Hj. apply (index_here (i + 1) j); lia.
Qed.

(** One run of the body, at the vertex that comes next. *)
Lemma meshBody_next (i j : Z) (vs1 vs2 : list (Vertex.t F)) (v0 : Vertex.t F)
    (idx : list Z) :
  0 <= i < size -> 0 <= j < size ->
  Z.of_nat (length vs1) = size * i + j ->
  meshBody size i j (vs1 ++ v0 :: vs2, idx) =
  Some (vs1 ++ grid_vertex i j :: vs2,
        idx ++ (if (i <? size - 1) && (j <? size - 1)
                then square_indices size i j else [])).
Proof.
  intros Hi Hj Hlen. unfold meshBody. cbn [fst snd].
  rewrite index_here by assumption.
  rewrite (store_app vs1 vs2 v0) by lia. cbn [mbind option_bind].
  assert (Hci : (UInt.of_int i <? UInt.sub size 1) = (i <? size - 1))
    by (unfold UInt.sub, UInt.of_int; rewrite !wrap_small by nia; reflexivity).
  assert (Hcj : (UInt.of_int j <? UInt.sub size 1) = (j <? size - 1))
    by (unfold UInt.sub, UInt.of_int; rewrite !wrap_small by nia; reflexivity).
  rewrite Hci, Hcj.
  destruct (Z.ltb_spec i (size - 1)) as [Hi'|Hi']; cbn [andb].
  - destruct (Z.ltb_spec j (size - 1)) as [Hj'|Hj'].
    + rewrite index_below by lia. unfold UInt.add.
      rewrite !wrap_small by nia. reflexivity.
    + rewrite app_nil_r. reflexivity.
  - rewrite app_nil_r. reflexivity.
Qed.

(** The inner loop from [j = k] on, in the row [i]. *)
Lemma mesh_row (i : Z) (m : nat) :
  0 <= i < size ->
  forall (k : Z) (vs1 vs2 : list (Vertex.t F)) (idx : list Z),
    0 <= k -> k + Z.of_nat m = size ->
    Z.of_nat (length vs1) = size * i + k -> (m <= length vs2)%nat ->
    for_each (fun j => meshBody size i j) (seqZ k (Z.of_nat m))
      (vs1 ++ vs2, idx) =
    Some (vs1 ++ (grid_vertex i <$> seqZ k (Z.of_nat m)) ++ drop m vs2,
          idx ++ (if i <? size - 1
                  then seqZ k (Z.of_nat m - 1) ≫= square_indices size i
                  else [])).
Proof.
  intros Hi. induction m as [|m IH]; intros k vs1 vs2 idx Hk Hm Hlen Hvs2.
  - cbn [for_each seqZ]. rewrite seqZ_nil by lia. cbn [for_each fmap list_fmap].
    rewrite drop_0, (seqZ_nil k) by lia.
    destruct (i <? size - 1); cbn; rewrite app_nil_r; reflexivity.
  - destruct vs2 as [|v0 vs2]; [cbn in Hvs2; lia|].
    rewrite (seqZ_cons k (Z.of_nat (S m))) by lia. cbn [for_each].
    rewrite meshBody_next by lia. cbn [mbind option_bind].
    replace (Z.pred (Z.of_nat (S m))) with (Z.of_nat m) by lia.
    replace (vs1 ++ grid_vertex i k :: vs2)
      with ((vs1 ++ [grid_vertex i k]) ++ vs2)
      by (rewrite <- app_assoc; reflexivity).
    rewrite (IH (Z.succ k)); [|lia|lia| |cbn in Hvs2; lia].
    2:{ rewrite length_app. cbn [length]. lia. }
    rewrite fmap_cons, <- !app_assoc. cbn [app drop]. f_equal. f_equal.
    destruct (Z.ltb_spec i (size - 1)) as [Hi'|Hi']; cbn [andb].
    + destruct (Z.ltb_spec k (size - 1)) as [Hk'|Hk'].
      * rewrite (seqZ_cons k (Z.of_nat (S m) - 1)) by lia.
        rewrite bind_cons.
        replace (Z.pred (Z.of_nat (S m) - 1)) with (Z.of_nat m - 1) by lia.
        reflexivity.
      * rewrite (seqZ_nil k), (seqZ_nil (Z.succ k)) by lia. reflexivity.
    + reflexivity.
Qed.

(** The outer loop from [i = r] on. *)
Lemma mesh_rows (m : nat) :
  forall (r : Z) (vs1 vs2 : list (Vertex.t F)) (idx : list Z),
    0 <= r -> r + Z.of_nat m = size ->
    Z.of_nat (length vs1) = size * r ->
    Z.of_nat (length vs2) = size * Z.of_nat m ->
    for_each (fun i => for_each (fun j => meshBody size i j) (seqZ 0 size))
      (seqZ r (Z.of_nat m)) (vs1 ++ vs2, idx) =
    Some (vs1 ++
          (seqZ r (Z.of_nat m) ≫=
             fun i => grid_vertex i <$> seqZ 0 size),
          idx ++
          (seqZ r (Z.of_nat m - 1) ≫=
             fun i => seqZ 0 (size - 1) ≫= square_indices size i)).
Proof.
  induction m as [|m IH]; intros r vs1 vs2 idx Hr Hm Hlen1 Hlen2.
  - rewrite (seqZ_nil r (Z.of_nat 0)), (seqZ_nil r (Z.of_nat 0 - 1)) by lia.
    cbn [for_each mbind list_bind].
    destruct vs2; [|cbn in Hlen2; lia]. rewrite !app_nil_r. reflexivity.
  - rewrite (seqZ_cons r (Z.of_nat (S m))) by lia. cbn [for_each].
    pose proof (mesh_row r (Z.to_nat size) ltac:(lia) 0 vs1 vs2 idx
                  ltac:(lia) ltac:(lia) ltac:(lia) ltac:(nia)) as Hrow.
    rewrite Z2Nat.id in Hrow by lia. rewrite Hrow.
    cbn [mbind option_bind].
    replace (Z.pred (Z.of_nat (S m))) with (Z.of_nat m) by lia.
    rewrite app_assoc.
    rewrite (IH (Z.succ r)); [|lia|lia| |].
    2:{ rewrite length_app, length_fmap, length_seqZ. nia. }
    2:{ rewrite length_drop. nia. }
    rewrite bind_cons, <- !app_assoc. f_equal. f_equal.
    destruct (Z.ltb_spec r (size - 1)) as [Hr'|Hr'].
    + rewrite (seqZ_cons r (Z.of_nat (S m) - 1)) by lia.
      rewrite bind_cons.
      replace (Z.pred (Z.of_nat (S m) - 1)) with (Z.of_nat m - 1) by lia.
      reflexivity.
    + rewrite (seqZ_nil r), (seqZ_nil (Z.succ r)) by lia. reflexivity.
Qed.

(** The two loops write the grid, whatever the array held before, and
    push the triangles of its squares. *)
Lemma buildMesh_grid (fresh : list (Vertex.t F)) :
  Z.of_nat (length fresh) = UInt.mul size size ->
  buildMesh size fresh = Some (grid_vertices size, grid_indices size).
Proof.
  intros Hlen. unfold UInt.mul in Hlen. rewrite wrap_small in Hlen by nia.
  unfold buildMesh.
  pose proof (mesh_rows (Z.to_nat size) 0 [] fresh [] ltac:(lia) ltac:(lia)
                ltac:(cbn; lia) ltac:(nia)) as Hrows.
  rewrite Z2Nat.id in Hrows by lia. exact Hrows.
Qed.

End MeshProperties.

(** ** Lists made of blocks of one length *)

Section Blocks.

Context {A : Type}.

Lemma length_bind_blocks (f : Z -> list A) (L : nat) (m : nat) (r : Z) :
  (forall i, r <= i < r + Z.of_nat m -> length (f i) = L) ->
  length (seqZ r (Z.of_nat m) ≫= f) = (m * L)%nat.
Proof.
  revert r. induction m as [|m IH]; intros r Hf.
  - reflexivity.
  - rewrite (seqZ_cons r) by lia. rewrite bind_cons, length_app.
    replace (Z.pred (Z.of_nat (S m))) with (Z.of_nat m) by lia.
    rewrite IH by (intros; apply Hf; lia).
    rewrite Hf by lia. lia.
Qed.

Lemma lookup_bind_blocks (f : Z -> list A) (L : nat) (m : nat) (r : Z)
    (i j : nat) :
  (forall i, r <= i < r + Z.of_nat m -> length (f i) = L) ->
  (i < m)%nat -> (j < L)%nat ->
  (seqZ r (Z.of_nat m) ≫= f) !! (i * L + j)%nat = f (r + Z.of_nat i) !! j.
Proof.
  revert r i. induction m as [|m IH]; intros r i Hf Hi Hj; [lia|].
  rewrite (seqZ_cons r) by lia. rewrite bind_cons.
  replace (Z.pred (Z.of_nat (S m))) with (Z.of_nat m) by lia.
  destruct i as [|i].
  - rewrite lookup_app_l by (rewrite Hf by lia; lia).
    cbn. do 2 f_equal. lia.
  - rewrite lookup_app_r by (rewrite Hf by lia; nia).
    rewrite Hf by lia.
    replace (S i * L + j - L)%nat with (i * L + j)%nat by lia.
    rewrite IH by (try (intros; apply Hf); lia).
    do 2 f_equal. lia.
Qed.

Lemma length_bind_seqZ (f : Z -> list A) (L n r : Z) :
  0 <= n -> 0 <= L ->
  (forall i, r <= i < r + n -> Z.of_nat (length (f i)) = L) ->
  Z.of_nat (length (seqZ r n ≫= f)) = n * L.
Proof.
  intros Hn HL Hf.
  pose proof (length_bind_blocks f (Z.to_nat L) (Z.to_nat n) r) as H.
  rewrite Z2Nat.id in H by lia. rewrite H; [nia|].
  intros i Hi. specialize (Hf i ltac:(lia)). lia.
Qed.

Lemma lookup_bind_seqZ (f : Z -> list A) (L n r i j : Z) :
  (forall i, r <= i < r + n -> Z.of_nat (length (f i)) = L) ->
  0 <= i < n -> 0 <= j < L ->
  (seqZ r n ≫= f) !! Z.to_nat (i * L + j) = f (r + i) !! Z.to_nat j.
Proof.
  intros Hf Hi Hj.
  pose proof (lookup_bind_blocks f (Z.to_nat L) (Z.to_nat n) r
                (Z.to_nat i) (Z.to_nat j)) as H.
  rewrite !Z2Nat.id in H by lia.
  replace (Z.to_nat (i * L + j))
    with (Z.to_nat i * Z.to_nat L + Z.to_nat j)%nat by nia.
  apply H; [|lia|lia].
  intros k Hk. specialize (Hf k ltac:(lia)). lia.
Qed.

Lemma Forall_bind_seqZ (P : A -> Prop) (f : Z -> list A) (r n : Z) :
  (forall i, r <= i < r + n -> Forall P (f i)) ->
  Forall P (seqZ r n ≫= f).
Proof.
  intros Hf. apply Forall_forall. intros a Ha.
  apply list_elem_of_bind in Ha as (i & Ha & Hi).
  apply elem_of_seqZ in Hi.
  specialize (Hf i Hi). rewrite Forall_forall in Hf. apply Hf, Ha.
Qed.

End Blocks.

(** ** The grid *)

Section GridProperties.

Context {F : Type} {ops : FloatOps F}.

Variable size : Z.
Hypothesis size_pos : 1 <= size.

Lemma grid_row_length (i : Z) :
  Z.of_nat (length (grid_vertex (F := F) i <$> seqZ 0 size)) = size.
Proof. rewrite length_fmap, length_seqZ. lia. Qed.

Lemma grid_vertices_length :
  Z.of_nat (length (grid_vertices (F := F) size)) = size * size.
Proof.
  unfold grid_vertices. apply length_bind_seqZ; [lia|lia|].
  intros i _. apply grid_row_length.
Qed.

Lemma grid_vertices_lookup (i j : Z) :
  0 <= i < size -> 0 <= j < size ->
  grid_vertices (F := F) size !! Z.to_nat (size * i + j) =
  Some (grid_vertex i j).
Proof.
  intros Hi Hj. unfold grid_vertices.
  rewrite (Z.mul_comm size i).
  rewrite (lookup_bind_seqZ _ size); [| |lia|lia].
  - rewrite list_lookup_fmap.
    replace (seqZ 0 size !! Z.to_nat j) with (Some j).
    + reflexivity.
    + symmetry. apply lookup_seqZ. lia.
  - intros k _. apply grid_row_length.
Qed.

Lemma squares_row_length (i : Z) :
  Z.of_nat (length (seqZ 0 (size - 1) ≫= square_indices size i)) =
  (size - 1) * 6.
Proof. apply length_bind_seqZ; [lia|lia|reflexivity]. Qed.

Lemma grid_indices_length :
  Z.of_nat (length (grid_indices size)) = 6 * ((size - 1) * (size - 1)).
Proof.
  unfold grid_indices.
  rewrite (length_bind_seqZ _ ((size - 1) * 6)); [lia|lia|lia|].
  intros i _. apply squares_row_length.
Qed.

(** The indices of the square [(i, j)] are at the position
    [6 * ((size - 1) * i + j)]. *)
Lemma grid_indices_lookup (i j k : Z) :
  0 <= i < size - 1 -> 0 <= j < size - 1 -> 0 <= k < 6 ->
  grid_indices size !! Z.to_nat (6 * ((size - 1) * i + j) + k) =
  square_indices size i j !! Z.to_nat k.
Proof.
  intros Hi Hj Hk. unfold grid_indices.
  replace (6 * ((size - 1) * i + j) + k)
    with (i * ((size - 1) * 6) + (j * 6 + k)) by ring.
  rewrite (lookup_bind_seqZ _ ((size - 1) * 6));
    [|intros; apply squares_row_length|lia|nia].
  rewrite (lookup_bind_seqZ _ 6); [|reflexivity|lia|lia].
  reflexivity.
Qed.

Lemma grid_indices_bounds :
  Forall (fun k => 0 <= k < size * size) (grid_indices size).
Proof.
  unfold grid_indices.
  apply Forall_bind_seqZ. intros i Hi.
  apply Forall_bind_seqZ. intros j Hj.
  unfold square_indices. repeat constructor; nia.
Qed.

Lemma triangles_bind {B : Type} (g : B -> list Z) (t : B -> list (Z * Z * Z))
    (l : list B) (rest : list Z) :
  (forall b rest, triangles (g b ++ rest) = t b ++ triangles rest) ->
  triangles ((l ≫= g) ++ rest) = (l ≫= t) ++ triangles rest.
Proof.
  intros Hg. induction l as [|b l IH]; [reflexivity|].
  rewrite !bind_cons, <- !app_assoc, Hg, IH. reflexivity.
Qed.

Lemma triangles_grid :
  triangles (grid_indices size) = grid_triangles size.
Proof.
  unfold grid_indices, grid_triangles.
  rewrite <- (app_nil_r (_ ≫= _)) at 1.
  rewrite (triangles_bind _
             (fun i => seqZ 0 (size - 1) ≫= square_triangles size i)).
  - cbn [triangles]. apply app_nil_r.
  - intros i rest. apply triangles_bind. reflexivity.
Qed.

(** The coordinates of a vertex from its index. *)
Lemma index_coordinates (i j : Z) :
  0 <= j < size -> (size * i + j) / size = i /\ (size * i + j) mod size = j.
Proof.
  intros Hj. split.
  - rewrite Z.mul_comm, Z.div_add_l by lia. rewrite Z.div_small by lia. lia.
  - rewrite Z.mul_comm, Z.add_comm, Z.mod_add by lia. apply Z.mod_small, Hj.
Qed.

Lemma square_triangles_winding (i j : Z) :
  0 <= i < size - 1 -> 0 <= j < size - 1 ->
  Forall (fun t => winding size t = -1) (square_triangles size i j).
Proof.
  intros Hi Hj. unfold square_triangles, winding.
  destruct (index_coordinates i j ltac:(lia)) as [H1 H2].
  destruct (index_coordinates i (j + 1) ltac:(lia)) as [H3 H4].
  destruct (index_coordinates (i + 1) j ltac:(lia)) as [H5 H6].
  destruct (index_coordinates (i + 1) (j + 1) ltac:(lia)) as [H7 H8].
  rewrite !Z.add_assoc in *.
  repeat constructor; rewrite ?H1, ?H2, ?H3, ?H4, ?H5, ?H6, ?H7, ?H8; lia.
Qed.

End GridProperties.

(** ** The heights *)

Section HeightProperties.

Context {F : Type} {ops : FloatOps F}.

(** A loop is undefined when its body is at one of the elements,
    whatever the state then. *)
Lemma for_each_None {A S : Type} (body : A -> S -> option S) (l : list A)
    (a : A) (s : S) :
  a ∈ l -> (forall s, body a s = None) -> for_each body l s = None.
Proof.
  intros Ha Hbody. revert s.
  induction l as [|b l IH]; intros s; [inversion Ha|].
  cbn [for_each]. apply elem_of_cons in Ha as [<- | Ha].
  - rewrite Hbody. reflexivity.
  - destruct (body b s) as [s'|]; cbn [mbind option_bind];
      [apply IH, Ha|reflexivity].
Qed.

Lemma store_y_app (vs1 vs2 : list (Vertex.t F)) (v0 : Vertex.t F) (k : Z)
    (h : F) :
  k = Z.of_nat (length vs1) ->
  store_y (vs1 ++ v0 :: vs2) k h = Some (vs1 ++ set_y v0 h :: vs2).
Proof.
  intros ->. unfold store_y. rewrite bool_decide_eq_true_2 by lia.
  rewrite Nat2Z.id, lookup_app_r, Nat.sub_diag by lia.
  cbn [lookup list_lookup mbind option_bind].
  rewrite insert_app_r_alt, Nat.sub_diag by lia. reflexivity.
Qed.

Variable pow : double -> double -> double.
Variable size : Z.
Hypothesis size_pos : 1 <= size.
Hypothesis size_fits : size * size < 2 ^ 32.
Variables xOffset zOffset : F.

Lemma index_update (i j : Z) :
  0 <= i < size -> 0 <= j < size ->
  UInt.add (UInt.mul (UInt.of_int i) size) (UInt.of_int j) = size * i + j.
Proof.
  intros Hi Hj. unfold UInt.add, UInt.mul, UInt.of_int.
  rewrite (wrap_small i), (wrap_small j) by nia.
  rewrite (wrap_small (i * size)) by nia.
  rewrite wrap_small by nia. ring.
Qed.

Lemma heightBody_next (i j : Z) (vs1 vs2 : list (Vertex.t F))
    (v0 : Vertex.t F) (h : F) :
  0 <= i < size -> 0 <= j < size ->
  Z.of_nat (length vs1) = size * i + j ->
  vertexHeight pow xOffset zOffset i j = Some h ->
  heightBody pow size xOffset zOffset i j (vs1 ++ v0 :: vs2) =
  Some (vs1 ++ set_y v0 h :: vs2).
Proof.
  intros Hi Hj Hlen Hh. unfold heightBody. unfold vertexHeight in Hh.
  rewrite Hh. cbn [mbind option_bind].
  rewrite index_update by assumption. apply store_y_app. lia.
Qed.

Lemma heightBody_None (i j : Z) (vs : list (Vertex.t F)) :
  vertexHeight pow xOffset zOffset i j = None ->
  heightBody pow size xOffset zOffset i j vs = None.
Proof.
  intros Hh. unfold heightBody. unfold vertexHeight in Hh.
  rewrite Hh. reflexivity.
Qed.

(** The heights, where all of them are defined. *)
Variable H : Z -> Z -> F.
Hypothesis H_height :
  forall i j, 0 <= i < size -> 0 <= j < size -> vertexHeight pow xOffset zOffset i j = Some (H i j).

Lemma heights_row (i : Z) (m : nat) :
  0 <= i < size ->
  forall (k : Z) (vs1 vs2 : list (Vertex.t F)),
    0 <= k -> k + Z.of_nat m = size ->
    Z.of_nat (length vs1) = size * i + k -> (m <= length vs2)%nat ->
    for_each (fun j => heightBody pow size xOffset zOffset i j)
      (seqZ k (Z.of_nat m)) (vs1 ++ vs2) =
    Some (vs1 ++ zip_with set_y (take m vs2) (H i <$> seqZ k (Z.of_nat m)) ++
          drop m vs2).
Proof.
  intros Hi. induction m as [|m IH]; intros k vs1 vs2 Hk Hm Hlen Hvs2.
  - rewrite (seqZ_nil k) by lia. cbn [for_each fmap list_fmap].
    rewrite take_0, drop_0. reflexivity.
  - destruct vs2 as [|v0 vs2]; [cbn in Hvs2; lia|].
    rewrite (seqZ_cons k (Z.of_nat (S m))) by lia. cbn [for_each].
    rewrite (heightBody_next i k vs1 vs2 v0 (H i k)) by (try apply H_height; lia).
    cbn [mbind option_bind].
    replace (Z.pred (Z.of_nat (S m))) with (Z.of_nat m) by lia.
    replace (vs1 ++ set_y v0 (H i k) :: vs2)
      with ((vs1 ++ [set_y v0 (H i k)]) ++ vs2)
      by (rewrite <- app_assoc; reflexivity).
    rewrite (IH (Z.succ k)); [|lia|lia| |cbn in Hvs2; lia].
    2:{ rewrite length_app. cbn [length]. lia. }
    rewrite fmap_cons, <- !app_assoc. reflexivity.
Qed.

Lemma heights_rows (m : nat) :
  forall (r : Z) (vs1 vs2 : list (Vertex.t F)),
    0 <= r -> r + Z.of_nat m = size ->
    Z.of_nat (length vs1) = size * r ->
    Z.of_nat (length vs2) = size * Z.of_nat m ->
    for_each
      (fun i => for_each (fun j => heightBody pow size xOffset zOffset i j)
                  (seqZ 0 size))
      (seqZ r (Z.of_nat m)) (vs1 ++ vs2) =
    Some (vs1 ++
          zip_with set_y vs2
            (seqZ r (Z.of_nat m) ≫= fun i => H i <$> seqZ 0 size)).
Proof.
  induction m as [|m IH]; intros r vs1 vs2 Hr Hm Hlen1 Hlen2.
  - rewrite (seqZ_nil r) by lia. cbn [for_each mbind list_bind].
    destruct vs2; [reflexivity|cbn in Hlen2; lia].
  - rewrite (seqZ_cons r (Z.of_nat (S m))) by lia. cbn [for_each].
    pose proof (heights_row r (Z.to_nat size) ltac:(lia) 0 vs1 vs2
                  ltac:(lia) ltac:(lia) ltac:(lia) ltac:(nia)) as Hrow.
    rewrite Z2Nat.id in Hrow by lia. rewrite Hrow.
    cbn [mbind option_bind].
    replace (Z.pred (Z.of_nat (S m))) with (Z.of_nat m) by lia.
    rewrite app_assoc.
    rewrite (IH (Z.succ r)); [|lia|lia| |].
    2:{ rewrite length_app, length_zip_with, length_take, length_fmap,
          length_seqZ. nia. }
    2:{ rewrite length_drop. nia. }
    rewrite bind_cons, <- app_assoc. f_equal.
    rewrite zip_with_app_r, length_fmap, length_seqZ. reflexivity.
Qed.

Lemma updateHeights_defined (vertices : list (Vertex.t F)) :
  Z.of_nat (length vertices) = size * size ->
  updateHeights pow size xOffset zOffset vertices =
  Some (zip_with set_y vertices
          (seqZ 0 size ≫= fun i => H i <$> seqZ 0 size)).
Proof.
  intros Hlen. unfold updateHeights.
  pose proof (heights_rows (Z.to_nat size) 0 [] vertices ltac:(lia) ltac:(lia)
                ltac:(cbn; lia) ltac:(nia)) as Hrows.
  rewrite Z2Nat.id in Hrows by lia. exact Hrows.
Qed.

Lemma heights_lookup (i j : Z) :
  0 <= i < size -> 0 <= j < size ->
  (seqZ 0 size ≫= fun i => H i <$> seqZ 0 size) !! Z.to_nat (size * i + j) =
  Some (H i j).
Proof.
  intros Hi Hj. rewrite (Z.mul_comm size i).
  rewrite (lookup_bind_seqZ _ size); [| |lia|lia].
  - rewrite list_lookup_fmap.
    replace (seqZ 0 size !! Z.to_nat j) with (Some j); [reflexivity|].
    symmetry. apply lookup_seqZ. lia.
  - intros k _. rewrite length_fmap, length_seqZ. lia.
Qed.

End HeightProperties.

Section HeightLoop.

Context {F : Type} {ops : FloatOps F}.

Variable pow : double -> double -> double.
Variable size : Z.
Hypothesis size_pos : 1 <= size.
Hypothesis size_fits : size * size < 2 ^ 32.
Variables xOffset zOffset : F.

(** The loop is undefined as soon as one height is. *)
Lemma updateHeights_None (i j : Z) (vertices : list (Vertex.t F)) :
  0 <= i < size -> 0 <= j < size ->
  vertexHeight pow xOffset zOffset i j = None ->
  updateHeights pow size xOffset zOffset vertices = None.
Proof.
  intros Hi Hj Hh. unfold updateHeights.
  apply (for_each_None _ _ i); [apply elem_of_seqZ; lia|].
  intros s. apply (for_each_None _ _ j); [apply elem_of_seqZ; lia|].
  intros s'. apply heightBody_None, Hh.
Qed.

(** It is defined exactly when every height is, and then writes each
    height into its vertex and nothing else. *)
Lemma updateHeights_is_Some (vertices : list (Vertex.t F)) :
  Z.of_nat (length vertices) = size * size ->
  is_Some (updateHeights pow size xOffset zOffset vertices) <->
  forall i j, 0 <= i < size -> 0 <= j < size ->
              is_Some (vertexHeight pow xOffset zOffset i j).
Proof.
  intros Hlen. split.
  - intros [vs' Hvs'] i j Hi Hj.
    destruct (vertexHeight pow xOffset zOffset i j) as [h|] eqn:Hh; [eauto|].
    rewrite (updateHeights_None i j) in Hvs' by assumption. discriminate.
  - intros Hall.
    set (H := fun i j => default (of_int 0) (vertexHeight pow xOffset zOffset i j)).
    rewrite (updateHeights_defined pow size size_pos size_fits xOffset zOffset H);
      [eauto| |exact Hlen].
    intros i j Hi Hj. unfold H.
    destruct (Hall i j Hi Hj) as [h ->]. reflexivity.
Qed.

Lemma updateHeights_vertex (vertices vertices' : list (Vertex.t F)) (i j : Z)
    (v : Vertex.t F) :
  Z.of_nat (length vertices) = size * size ->
  updateHeights pow size xOffset zOffset vertices = Some vertices' ->
  0 <= i < size -> 0 <= j < size ->
  vertices !! Z.to_nat (size * i + j) = Some v ->
  exists h, vertexHeight pow xOffset zOffset i j = Some h /\
            vertices' !! Z.to_nat (size * i + j) = Some (set_y v h).
Proof.
  intros Hlen Hup Hi Hj Hv.
  assert (Hall : forall i j, 0 <= i < size -> 0 <= j < size ->
                             is_Some (vertexHeight pow xOffset zOffset i j))
    by (apply (updateHeights_is_Some vertices Hlen); eauto).
  set (H := fun i j => default (of_int 0) (vertexHeight pow xOffset zOffset i j)).
  assert (HH : forall i j, 0 <= i < size -> 0 <= j < size ->
                           vertexHeight pow xOffset zOffset i j = Some (H i j)).
  { intros i' j' Hi' Hj'. unfold H.
    destruct (Hall i' j' Hi' Hj') as [h ->]. reflexivity. }
  rewrite (updateHeights_defined pow size size_pos size_fits xOffset zOffset H
             HH vertices Hlen) in Hup.
  injection Hup as <-. exists (H i j). split; [apply HH; assumption|].
  rewrite lookup_zip_with, Hv. cbn [mbind option_bind].
  rewrite (heights_lookup size size_pos H) by assumption. reflexivity.
Qed.

Lemma updateHeights_length (vertices vertices' : list (Vertex.t F)) :
  Z.of_nat (length vertices) = size * size ->
  updateHeights pow size xOffset zOffset vertices = Some vertices' ->
  length vertices' = length vertices.
Proof.
  intros Hlen Hup.
  assert (Hall : forall i j, 0 <= i < size -> 0 <= j < size ->
                             is_Some (vertexHeight pow xOffset zOffset i j))
    by (apply (updateHeights_is_Some vertices Hlen); eauto).
  set (H := fun i j => default (of_int 0) (vertexHeight pow xOffset zOffset i j)).
  assert (HH : forall i j, 0 <= i < size -> 0 <= j < size ->
                           vertexHeight pow xOffset zOffset i j = Some (H i j)).
  { intros i' j' Hi' Hj'. unfold H.
    destruct (Hall i' j' Hi' Hj') as [h ->]. reflexivity. }
  rewrite (updateHeights_defined pow size size_pos size_fits xOffset zOffset H
             HH vertices Hlen) in Hup.
  injection Hup as <-. rewrite length_zip_with.
  assert (Z.of_nat (length (seqZ 0 size ≫= fun i => H i <$> seqZ 0 size)) =
          size * size).
  { apply length_bind_seqZ; [lia|lia|].
    intros k _. rewrite length_fmap, length_seqZ. lia. }
  lia.
Qed.

End HeightLoop.
(** ** The loops and the size of the array *)

Section LoopInvariant.

Context {A S : Type}.

Variable P : S -> Prop.
Variable body : A -> S -> option S.
Hypothesis body_preserves : forall a s s', body a s = Some s' -> P s -> P s'.

Lemma for_each_preserves (l : list A) (s s' : S) :
  for_each body l s = Some s' -> P s -> P s'.
Proof.
  revert s. induction l as [|a l IH]; intros s; cbn [for_each].
  - intros [= <-]. auto.
  - destruct (body a s) as [s1|] eqn:Hs1; cbn [mbind option_bind];
      [|discriminate].
    intros Hl Hs. apply (IH s1 Hl). exact (body_preserves a s s1 Hs1 Hs).
Qed.

(** A loop is undefined when its body is at one of the elements, in
    every state the loop can be in then. *)
Lemma for_each_fails (l : list A) (a : A) (s : S) :
  a ∈ l -> (forall s, P s -> body a s = None) -> P s ->
  for_each body l s = None.
Proof.
  intros Ha Hbody. revert s.
  induction l as [|b l IH]; intros s Hs; [inversion Ha|].
  cbn [for_each]. destruct (body b s) as [s'|] eqn:Hs';
    cbn [mbind option_bind]; [|reflexivity].
  apply elem_of_cons in Ha as [<- | Ha].
  - rewrite (Hbody s Hs) in Hs'. discriminate.
  - apply (IH Ha). exact (body_preserves b s s' Hs' Hs).
Qed.

End LoopInvariant.

Section MeshOverflow.

Context {F : Type} {ops : FloatOps F}.

Lemma store_length {A : Type} (a a' : list A) (k : Z) (v : A) :
  store a k v = Some a' -> length a' = length a.
Proof.
  unfold store. destruct (bool_decide _); [|discriminate].
  intros [= <-]. apply length_insert.
Qed.

Lemma meshBody_length (size i j : Z) (st st' : list (Vertex.t F) * list Z) :
  meshBody size i j st = Some st' -> length st'.1 = length st.1.
Proof.
  unfold meshBody.
  destruct (store st.1 _ _) as [vs|] eqn:Hvs; cbn [mbind option_bind];
    [|discriminate].
  apply store_length in Hvs.
  destruct (_ && _); intros [= <-]; exact Hvs.
Qed.

(** When [size * size] is not a value of [unsigned int], the array
    allocated is shorter than the grid and one of the writes is past
    its end. *)
Lemma buildMesh_overflow (size : Z) (fresh : list (Vertex.t F)) :
  1 <= size <= Int.max_int -> 2 ^ 32 <= size * size ->
  Z.of_nat (length fresh) = UInt.mul size size ->
  buildMesh size fresh = None.
Proof.
  intros Hsize Hbig Hlen. unfold Int.max_int, Int.bits in Hsize.
  set (L := UInt.mul size size) in *.
  assert (HL : 0 <= L < 2 ^ 32)
    by (unfold L, UInt.mul, UInt.wrap, UInt.modulus;
        apply Z.mod_pos_bound; lia).
  set (P := fun st : list (Vertex.t F) * list Z => Z.of_nat (length st.1) = L).
  assert (Hbody : forall i j st st',
             meshBody size i j st = Some st' -> P st -> P st').
  { intros i j st st' Hst. unfold P. rewrite (meshBody_length _ _ _ _ _ Hst).
    auto. }
  assert (Hi : 0 <= L / size < size).
  { split; [apply Z.div_pos; lia|]. apply Z.div_lt_upper_bound; lia. }
  pose proof (Z.mod_pos_bound L size ltac:(lia)) as Hj.
  pose proof (Z.div_mod L size ltac:(lia)) as Hdm.
  unfold buildMesh.
  apply (for_each_fails P _
           (fun i st st' =>
              for_each_preserves P _ (Hbody i) (seqZ 0 size) st st')
           _ (L / size)); [apply elem_of_seqZ; lia| |exact Hlen].
  intros st Hst.
  apply (for_each_fails P _ (Hbody (L / size)) _ (L mod size));
    [apply elem_of_seqZ; lia| |exact Hst].
  intros st' Hst'. unfold meshBody.
  replace (UInt.add (UInt.mul size (UInt.of_int (L / size)))
             (UInt.of_int (L mod size))) with L.
  - unfold store. rewrite bool_decide_eq_false_2; [reflexivity|].
    unfold P in Hst'. lia.
  - unfold UInt.add, UInt.mul, UInt.of_int.
    rewrite (wrap_small (L / size)), (wrap_small (L mod size)) by lia.
    rewrite (wrap_small (size * (L / size))) by nia.
    rewrite wrap_small by lia. lia.
Qed.

End MeshOverflow.

(** ** Every triangle of the grid has the same orientation *)

Lemma grid_triangles_winding (size : Z) :
  1 <= size ->
  Forall (fun t => winding size t = -1) (triangles (grid_indices size)).
Proof.
  intros Hsize. rewrite (triangles_grid size).
  unfold grid_triangles.
  apply Forall_bind_seqZ. intros i Hi.
  apply Forall_bind_seqZ. intros j Hj.
  apply square_triangles_winding; lia.
Qed.

(** ** A second update *)

Section HeightOverwrite.

Context {F : Type} {ops : FloatOps F}.

Lemma set_y_twice (vs : list (Vertex.t F)) :
  forall hs1 hs2 : list F,
    (length vs <= length hs1)%nat ->
    zip_with set_y (zip_with set_y vs hs1) hs2 = zip_with set_y vs hs2.
Proof.
  induction vs as [|v vs IH]; intros hs1 hs2 Hlen; [reflexivity|].
  destruct hs1 as [|h1 hs1]; [cbn in Hlen; lia|].
  destruct hs2 as [|h2 hs2]; [reflexivity|].
  cbn [zip_with]. rewrite IH by (cbn in Hlen; lia). reflexivity.
Qed.

Variable pow : double -> double -> double.
Variable size : Z.
Hypothesis size_pos : 1 <= size.
Hypothesis size_fits : size * size < 2 ^ 32.

(** What an update writes does not depend on the heights the array
    held: after an update, a second one gives what it gives on the
    array before the first. *)
Lemma updateHeights_overwrite (x1 z1 x2 z2 : F)
    (vertices vertices1 : list (Vertex.t F)) :
  Z.of_nat (length vertices) = size * size ->
  updateHeights pow size x1 z1 vertices = Some vertices1 ->
  updateHeights pow size x2 z2 vertices1 =
  updateHeights pow size x2 z2 vertices.
Proof.
  intros Hlen H1.
  pose proof (updateHeights_length pow size size_pos size_fits x1 z1
                vertices vertices1 Hlen H1) as Hlen1.
  assert (Hlen' : Z.of_nat (length vertices1) = size * size) by lia.
  assert (Hall1 : forall i j, 0 <= i < size -> 0 <= j < size ->
                              is_Some (vertexHeight pow x1 z1 i j))
    by (apply (updateHeights_is_Some pow size size_pos size_fits x1 z1
                 vertices Hlen); eauto).
  set (G1 := fun i j => default (of_int 0) (vertexHeight pow x1 z1 i j)).
  assert (HG1 : forall i j, 0 <= i < size -> 0 <= j < size ->
                            vertexHeight pow x1 z1 i j = Some (G1 i j)).
  { intros i j Hi Hj. unfold G1.
    destruct (Hall1 i j Hi Hj) as [h ->]. reflexivity. }
  rewrite (updateHeights_defined pow size size_pos size_fits x1 z1 G1 HG1
             vertices Hlen) in H1.
  injection H1 as H1.
  destruct (updateHeights pow size x2 z2 vertices) as [vertices2|] eqn:H2.
  - assert (Hall2 : forall i j, 0 <= i < size -> 0 <= j < size ->
                                is_Some (vertexHeight pow x2 z2 i j))
      by (apply (updateHeights_is_Some pow size size_pos size_fits x2 z2
                   vertices Hlen); eauto).
    set (G2 := fun i j => default (of_int 0) (vertexHeight pow x2 z2 i j)).
    assert (HG2 : forall i j, 0 <= i < size -> 0 <= j < size ->
                              vertexHeight pow x2 z2 i j = Some (G2 i j)).
    { intros i j Hi Hj. unfold G2.
      destruct (Hall2 i j Hi Hj) as [h ->]. reflexivity. }
    rewrite (updateHeights_defined pow size size_pos size_fits x2 z2 G2 HG2
               vertices Hlen) in H2.
    rewrite (updateHeights_defined pow size size_pos size_fits x2 z2 G2 HG2
               vertices1 Hlen').
    rewrite <- H2, <- H1. f_equal. apply set_y_twice.
    assert (Z.of_nat (length (seqZ 0 size ≫= fun i => G1 i <$> seqZ 0 size)) =
            size * size).
    { apply length_bind_seqZ; [lia|lia|].
      intros k _. rewrite length_fmap, length_seqZ. lia. }
    lia.
  - destruct (updateHeights pow size x2 z2 vertices1) as [vertices2|] eqn:H3;
      [|reflexivity].
    assert (Hall2 : forall i j, 0 <= i < size -> 0 <= j < size ->
                                is_Some (vertexHeight pow x2 z2 i j))
      by (apply (updateHeights_is_Some pow size size_pos size_fits x2 z2
                   vertices1 Hlen'); eauto).
    apply (updateHeights_is_Some pow size size_pos size_fits x2 z2
             vertices Hlen) in Hall2.
    rewrite H2 in Hall2. destruct Hall2 as [? [=]].
Qed.

End HeightOverwrite.

(** ** The noise across the cells, in exact arithmetic *)

Section TableWrap.

(** The second half of the table repeats the first, so an index one
    past 255 reads what index 0 reads. *)
Lemma table_at_wrap (k : Z) :
  0 <= k <= 255 -> table_at (k + 256) = table_at k.
Proof.
  intros Hk.
  assert (Hb : forallb (fun k => bool_decide (table_at (k + 256) = table_at k))
                 (seqZ 0 256) = true)
    by (vm_compute; reflexivity).
  rewrite forallb_forall in Hb.
  eapply bool_decide_eq_true_1, Hb, list_elem_of_In, elem_of_seqZ. lia.
Qed.

Lemma table_at_next (k : Z) :
  0 <= k <= 255 -> table_at ((k + 1) mod 256) = table_at (k + 1).
Proof.
  intros Hk. destruct (Z.eq_dec k 255) as [-> | Hne].
  - change ((255 + 1) mod 256) with 0.
    change (255 + 1) with (0 + 256). symmetry. apply table_at_wrap. lia.
  - rewrite Z.mod_small by lia. reflexivity.
Qed.

Lemma table_at_next_column (p k : Z) :
  0 <= p <= 255 -> 0 <= k <= 255 ->
  table_at (p + (k + 1) mod 256) = table_at (p + k + 1).
Proof.
  intros Hp Hk. destruct (Z.eq_dec k 255) as [-> | Hne].
  - change ((255 + 1) mod 256) with 0.
    replace (p + 255 + 1) with (p + 256) by lia.
    rewrite Z.add_0_r. symmetry. apply table_at_wrap. lia.
  - rewrite Z.mod_small by lia. f_equal. lia.
Qed.

End TableWrap.

Section CellEdges.

Import RealModel.
Local Open Scope R_scope.

Lemma fade_one : fade (ops := Exact) 1 = 1.
Proof. rewrite fade_exact. lra. Qed.

Lemma fade_zero_exact : fade (ops := Exact) 0 = 0.
Proof. rewrite fade_exact. lra. Qed.

(** The noise of a cell, with the four masked hashes of its corners
    named. *)
Lemma noiseCell_corners (gridX gridZ : Z) (x z : R) :
  (0 <= gridX <= 255)%Z -> (0 <= gridZ <= 255)%Z ->
  exists p0 p1 g00 g10 g01 g11 : Z,
    table_at gridX = Some p0 /\ table_at (gridX + 1) = Some p1 /\
    table_at (p0 + gridZ) = Some g00 /\ table_at (p1 + gridZ) = Some g10 /\
    table_at (p0 + gridZ + 1) = Some g01 /\
    table_at (p1 + gridZ + 1) = Some g11 /\
    (0 <= p0 <= 255)%Z /\ (0 <= p1 <= 255)%Z /\
    noiseCell (ops := Exact) gridX gridZ x z =
    corner_blend (ops := Exact) (Int.land g00 7) (Int.land g10 7)
      (Int.land g01 7) (Int.land g11 7) x z.
Proof.
  intros HX HZ.
  destruct (table_at_defined gridX) as (p0 & Hp0 & Hr0); [lia|].
  destruct (table_at_defined (gridX + 1)) as (p1 & Hp1 & Hr1); [lia|].
  destruct (table_at_defined (p0 + gridZ)) as (g00 & Hg00 & _); [lia|].
  destruct (table_at_defined (p1 + gridZ)) as (g10 & Hg10 & _); [lia|].
  destruct (table_at_defined (p0 + gridZ + 1)) as (g01 & Hg01 & _); [lia|].
  destruct (table_at_defined (p1 + gridZ + 1)) as (g11 & Hg11 & _); [lia|].
  exists p0, p1, g00, g10, g01, g11.
  repeat (split; [assumption|]).
  unfold noiseCell, corner_blend.
  rewrite Hp0, Hp1. cbn [mbind option_bind].
  rewrite Hg00, Hg10, Hg01, Hg11. cbn [mbind option_bind]. reflexivity.
Qed.

(** The dot product of the code is the one with the direction of the
    hash. *)
Lemma gradientDotDistance_exact (h : Z) (x z : R) :
  (0 <= h <= 7)%Z ->
  gradientDotDistance (ops := Exact) h x z = Some (dot h x z).
Proof.
  intros Hh.
  hash_cases h; cbn [gradientDotDistance]; real_ops; f_equal;
    unfold dot, direction;
    match goal with
    | |- context [gradient_directions !! ?n] =>
        let v := eval vm_compute in (gradient_directions !! n) in
        change (gradient_directions !! n) with v
    end;
    cbn [default from_option Datatypes.id fst snd]; ring.
Qed.

Lemma corner_blend_exact (h00 h10 h01 h11 : Z) (x z : R) :
  (0 <= h00 <= 7)%Z -> (0 <= h10 <= 7)%Z ->
  (0 <= h01 <= 7)%Z -> (0 <= h11 <= 7)%Z ->
  corner_blend (ops := Exact) h00 h10 h01 h11 x z =
  Some (blend h00 h10 h01 h11 x z).
Proof.
  intros H00 H10 H01 H11. unfold corner_blend.
  rewrite !gradientDotDistance_exact by assumption.
  cbn [mbind option_bind].
  f_equal; rewrite rescale_exact, !lerp_exact; unfold blend; real_ops; ring.
Qed.

(** At the right edge of a cell only its right corners count, at the
    left edge only its left corners; likewise at the top and at the
    bottom. *)
Lemma blend_edge_x (h00 h10 h01 h11 k10 k11 : Z) (z : R) :
  blend h00 h10 h01 h11 1 z = blend h10 k10 h11 k11 0 z.
Proof.
  unfold blend, dot. rewrite fade_one, fade_zero_exact. cbv zeta. ring.
Qed.

Lemma blend_edge_z (h00 h10 h01 h11 k01 k11 : Z) (x : R) :
  blend h00 h10 h01 h11 x 1 = blend h01 h11 k01 k11 x 0.
Proof.
  unfold blend, dot. rewrite fade_one, fade_zero_exact. cbv zeta. ring.
Qed.

(** Each corner of the lattice has one hash, the same in the four
    cells that meet there: the noise at [(x, z)] is the blend of the
    hashes of the four corners around it. *)
Lemma noiseValue_blend (x z : R) :
  Int.in_range (Zfloor x) = true -> Int.in_range (Zfloor z) = true ->
  noiseValue (ops := Exact) x z =
  Some (blend (cornerHash (Zfloor x) (Zfloor z))
          (cornerHash (Zfloor x + 1) (Zfloor z))
          (cornerHash (Zfloor x) (Zfloor z + 1))
          (cornerHash (Zfloor x + 1) (Zfloor z + 1))
          (x - IZR (Zfloor x)) (z - IZR (Zfloor z))).
Proof.
  intros Hx Hz. unfold Exact. rewrite noiseValue_real, Hx, Hz. cbn [andb].
  fold Exact.
  set (n := Zfloor x). set (m := Zfloor z).
  pose proof (Z.mod_pos_bound n 256 ltac:(lia)) as Hn.
  pose proof (Z.mod_pos_bound m 256 ltac:(lia)) as Hm.
  destruct (noiseCell_corners (n mod 256) (m mod 256) (x - IZR n) (z - IZR m))
    as (p0 & p1 & g00 & g10 & g01 & g11 & Hp0 & Hp1 & Hg00 & Hg10 & Hg01 &
        Hg11 & Hr0 & Hr1 & Hcell); [lia|lia|].
  rewrite Hcell, corner_blend_exact by apply land_7_range.
  assert (Hp1' : table_at ((n + 1) mod 256) = Some p1).
  { rewrite <- Z.add_mod_idemp_l by lia. rewrite table_at_next by lia.
    exact Hp1. }
  assert (Hg01' : table_at (p0 + (m + 1) mod 256) = Some g01).
  { rewrite <- (Z.add_mod_idemp_l m) by lia.
    rewrite table_at_next_column by lia. exact Hg01. }
  assert (Hg11' : table_at (p1 + (m + 1) mod 256) = Some g11).
  { rewrite <- (Z.add_mod_idemp_l m) by lia.
    rewrite table_at_next_column by lia. exact Hg11. }
  unfold cornerHash.
  rewrite Hp0, Hp1'. cbn [from_option Datatypes.id].
  rewrite Hg00, Hg10, Hg01', Hg11'. reflexivity.
Qed.

End CellEdges.

(** ** The noise is continuous, in exact arithmetic *)


Section Continuity.

Import RealModel.
Local Open Scope R_scope.

(** A function that is one continuous function on the left of a point
    and another on its right, the two meeting at the point. *)
Lemma continuity_pt_glue (f gL gR : R -> R) (x0 d : R) :
  0 < d ->
  (forall t, x0 - d < t < x0 -> f t = gL t) ->
  (forall t, x0 <= t < x0 + d -> f t = gR t) ->
  gL x0 = gR x0 ->
  continuity_pt gL x0 -> continuity_pt gR x0 -> continuity_pt f x0.
Proof.
  intros Hd HL HR Hmeet CL CR eps Heps.
  destruct (CL eps Heps) as (aL & HaL & HdL).
  destruct (CR eps Heps) as (aR & HaR & HdR).
  exists (Rmin d (Rmin aL aR)). split.
  { apply Rmin_glb_lt; [exact Hd|apply Rmin_glb_lt; assumption]. }
  intros t [[_ Hne] Hdist]. simpl in *.
  pose proof (Rmin_l d (Rmin aL aR)). pose proof (Rmin_r d (Rmin aL aR)).
  pose proof (Rmin_l aL aR). pose proof (Rmin_r aL aR).
  unfold R_dist in *.
  assert (Hdist' : - Rmin d (Rmin aL aR) < t - x0 < Rmin d (Rmin aL aR)).
  { unfold Rabs in Hdist. destruct (Rcase_abs (t - x0)); lra. }
  rewrite (HR x0) by lra.
  destruct (Rlt_le_dec t x0) as [Hlt | Hge].
  - rewrite (HL t) by lra. rewrite <- Hmeet.
    apply HdL. split; [split; [exact I|lra]|].
    unfold Rabs. destruct (Rcase_abs (t - x0)); lra.
  - rewrite (HR t) by lra.
    apply HdR. split; [split; [exact I|lra]|].
    unfold Rabs. destruct (Rcase_abs (t - x0)); lra.
Qed.

(** The noise of a cell is a polynomial of each offset. *)
Lemma blend_continuous_x (h00 h10 h01 h11 : Z) (c z x0 : R) :
  continuity_pt (fun x => blend h00 h10 h01 h11 (x - c) z) x0.
Proof.
  unfold blend, dot. cbv zeta.
  set (a00 := IZR (direction h00).1). set (b00 := IZR (direction h00).2).
  set (a10 := IZR (direction h10).1). set (b10 := IZR (direction h10).2).
  set (a01 := IZR (direction h01).1). set (b01 := IZR (direction h01).2).
  set (a11 := IZR (direction h11).1). set (b11 := IZR (direction h11).2).
  set (v := fade (ops := Exact) z).
  unfold fade. real_ops.
  reg.
Qed.

Lemma blend_continuous_z (h00 h10 h01 h11 : Z) (c x z0 : R) :
  continuity_pt (fun z => blend h00 h10 h01 h11 x (z - c)) z0.
Proof.
  unfold blend, dot. cbv zeta.
  set (a00 := IZR (direction h00).1). set (b00 := IZR (direction h00).2).
  set (a10 := IZR (direction h10).1). set (b10 := IZR (direction h10).2).
  set (a01 := IZR (direction h01).1). set (b01 := IZR (direction h01).2).
  set (a11 := IZR (direction h11).1). set (b11 := IZR (direction h11).2).
  set (u := fade (ops := Exact) x).
  unfold fade. real_ops.
  reg.
Qed.

(** The values of [int], as bounds on a real. *)
Lemma in_range_floor (x : R) :
  -2147483648 <= x < 2147483648 -> Int.in_range (Zfloor x) = true.
Proof.
  intros [Hlo Hhi]. apply in_range_spec.
  pose proof (Zfloor_bound x) as [Hfl Hfu].
  assert (IZR (Zfloor x) < IZR 2147483648) by lra.
  assert (IZR (-2147483649) < IZR (Zfloor x)) by lra.
  apply lt_IZR in H, H0. lia.
Qed.

Lemma Zfloor_between (n : Z) (t : R) : IZR n <= t < IZR n + 1 -> Zfloor t = n.
Proof. intros Ht. apply Zfloor_eq. exact Ht. Qed.

(** The noise in the column of cells [k], as a function of [t]. *)
Lemma exactNoise_column (k : Z) (t z : R) :
  Int.in_range k = true -> Int.in_range (Zfloor z) = true ->
  IZR k <= t < IZR k + 1 ->
  exactNoise t z =
  blend (cornerHash k (Zfloor z)) (cornerHash (k + 1) (Zfloor z))
    (cornerHash k (Zfloor z + 1)) (cornerHash (k + 1) (Zfloor z + 1))
    (t - IZR k) (z - IZR (Zfloor z)).
Proof.
  intros Hk Hz Ht. unfold exactNoise.
  pose proof (Zfloor_between k t Ht) as Hf.
  rewrite noiseValue_blend by (rewrite ?Hf; assumption).
  rewrite Hf. reflexivity.
Qed.

Lemma exactNoise_row (k : Z) (x t : R) :
  Int.in_range (Zfloor x) = true -> Int.in_range k = true ->
  IZR k <= t < IZR k + 1 ->
  exactNoise x t =
  blend (cornerHash (Zfloor x) k) (cornerHash (Zfloor x + 1) k)
    (cornerHash (Zfloor x) (k + 1)) (cornerHash (Zfloor x + 1) (k + 1))
    (x - IZR (Zfloor x)) (t - IZR k).
Proof.
  intros Hx Hk Ht. unfold exactNoise.
  pose proof (Zfloor_between k t Ht) as Hf.
  rewrite noiseValue_blend by (rewrite ?Hf; assumption).
  rewrite Hf. reflexivity.
Qed.

Lemma exactNoise_continuous_x (x0 z : R) :
  -2147483648 < x0 < 2147483648 -> Int.in_range (Zfloor z) = true ->
  continuity_pt (fun t => exactNoise t z) x0.
Proof.
  intros Hx Hz.
  set (n := Zfloor x0). pose proof (Zfloor_bound x0) as Hb. fold n in Hb.
  assert (Hn : Int.in_range n = true) by (apply in_range_floor; lra).
  set (m := Zfloor z) in *. set (b := z - IZR m).
  set (B := fun k t =>
              blend (cornerHash k m) (cornerHash (k + 1) m)
                (cornerHash k (m + 1)) (cornerHash (k + 1) (m + 1))
                (t - IZR k) b).
  assert (HB : forall k t, Int.in_range k = true -> IZR k <= t < IZR k + 1 ->
                           exactNoise t z = B k t)
    by (intros k t Hk Ht; apply exactNoise_column; assumption).
  assert (CB : forall k, continuity_pt (B k) x0)
    by (intros k; apply blend_continuous_x).
  destruct (Req_dec x0 (IZR n)) as [Heq | Hne].
  - (* on the line between two columns *)
    assert (Hn' : Int.in_range (n - 1) = true).
    { apply in_range_spec. apply in_range_spec in Hn.
      assert (IZR (-2147483648) < IZR n) by lra.
      apply lt_IZR in H. lia. }
    apply (continuity_pt_glue _ (B (n - 1)%Z) (B n) x0 1); [lra| | | |apply CB..].
    + intros t Ht. apply HB; [exact Hn'|]. rewrite minus_IZR. lra.
    + intros t Ht. apply HB; [exact Hn|]. lra.
    + unfold B. rewrite Heq.
      replace (IZR n - IZR (n - 1)) with 1 by (rewrite minus_IZR; lra).
      replace (IZR n - IZR n) with 0 by lra.
      replace (n - 1 + 1)%Z with n by lia.
      apply blend_edge_x.
  - (* inside a column *)
    apply (continuity_pt_glue _ (B n) (B n) x0
             (Rmin (x0 - IZR n) (IZR n + 1 - x0)));
      [apply Rmin_glb_lt; lra| | |reflexivity|apply CB..].
    + intros t Ht. pose proof (Rmin_l (x0 - IZR n) (IZR n + 1 - x0)).
      apply HB; [exact Hn|]. lra.
    + intros t Ht. pose proof (Rmin_r (x0 - IZR n) (IZR n + 1 - x0)).
      apply HB; [exact Hn|]. lra.
Qed.

Lemma exactNoise_continuous_z (x z0 : R) :
  Int.in_range (Zfloor x) = true -> -2147483648 < z0 < 2147483648 ->
  continuity_pt (fun t => exactNoise x t) z0.
Proof.
  intros Hx Hz.
  set (m := Zfloor z0). pose proof (Zfloor_bound z0) as Hb. fold m in Hb.
  assert (Hm : Int.in_range m = true) by (apply in_range_floor; lra).
  set (n := Zfloor x) in *. set (a := x - IZR n).
  set (B := fun k t =>
              blend (cornerHash n k) (cornerHash (n + 1) k)
                (cornerHash n (k + 1)) (cornerHash (n + 1) (k + 1))
                a (t - IZR k)).
  assert (HB : forall k t, Int.in_range k = true -> IZR k <= t < IZR k + 1 ->
                           exactNoise x t = B k t)
    by (intros k t Hk Ht; apply exactNoise_row; assumption).
  assert (CB : forall k, continuity_pt (B k) z0)
    by (intros k; apply blend_continuous_z).
  destruct (Req_dec z0 (IZR m)) as [Heq | Hne].
  - assert (Hm' : Int.in_range (m - 1) = true).
    { apply in_range_spec. apply in_range_spec in Hm.
      assert (IZR (-2147483648) < IZR m) by lra.
      apply lt_IZR in H. lia. }
    apply (continuity_pt_glue _ (B (m - 1)%Z) (B m) z0 1); [lra| | | |apply CB..].
    + intros t Ht. apply HB; [exact Hm'|]. rewrite minus_IZR. lra.
    + intros t Ht. apply HB; [exact Hm|]. lra.
    + unfold B. rewrite Heq.
      replace (IZR m - IZR (m - 1)) with 1 by (rewrite minus_IZR; lra).
      replace (IZR m - IZR m) with 0 by lra.
      replace (m - 1 + 1)%Z with m by lia.
      apply blend_edge_z.
  - apply (continuity_pt_glue _ (B m) (B m) z0
             (Rmin (z0 - IZR m) (IZR m + 1 - z0)));
      [apply Rmin_glb_lt; lra| | |reflexivity|apply CB..].
    + intros t Ht. pose proof (Rmin_l (z0 - IZR m) (IZR m + 1 - z0)).
      apply HB; [exact Hm|]. lra.
    + intros t Ht. pose proof (Rmin_r (z0 - IZR m) (IZR m + 1 - z0)).
      apply HB; [exact Hm|]. lra.
Qed.

End Continuity.

(** ** binary32 against exact arithmetic *)

Section Accuracy.

Import RealModel Binary32.
Local Open Scope R_scope.

(** A number of at most 24 digits at an exponent of the format is a
    float: nothing is rounded. *)
Lemma b32_round_exact (s : bool) (m : positive) (E : Z) :
  (Z.pos m < 2 ^ 24)%Z -> (-149 <= E <= 104)%Z ->
  B2R (binary_round prec emax s m E) =
  IZR (cond_Zopp s (Z.pos m)) * powerRZ 2 E.
Proof.
  intros Hm HE.
  pose proof (digits_of_small m Hm) as Hd.
  pose proof (digits2_pos_bound m) as [Hlo _].
  unfold binary_round, shl_align.
  set (d := Z.pos (digits2_pos m)) in *.
  assert (Hd0 : (0 < d)%Z) by (unfold d; lia).
  set (T := fexp prec emax (d + E)).
  assert (HT : (-149 <= T <= E)%Z) by (unfold T, fexp, emin, prec, emax; lia).
  destruct (T - E)%Z as [|k|k] eqn:Hk; [| lia |].
  - rewrite binary_round_aux_canonical;
      [reflexivity| |unfold prec, emax; lia].
    unfold canonical_mantissa. apply Z.eqb_eq. fold d. fold T. lia.
  - rewrite binary_round_aux_canonical;
      [| unfold canonical_mantissa; apply Z.eqb_eq;
         rewrite iter_xO_digits; fold d;
         unfold T, fexp, emin, prec, emax in *; lia
       | unfold prec, emax; lia].
    cbn [B2R].
    assert (Hv : IZR (Z.pos (Pos.iter xO m k)) * powerRZ 2 T =
                 IZR (Z.pos m) * powerRZ 2 E).
    { rewrite iter_xO_pos, mult_IZR, pow2_IZR by lia.
      rewrite Rmult_assoc, <- pow2_add. do 2 f_equal. lia. }
    destruct s; cbn [cond_Zopp]; rewrite ?opp_IZR; lra.
Qed.

Lemma b32_normalize_exact (D E : Z) :
  (Z.abs D < 2 ^ 24)%Z -> (-149 <= E <= 104)%Z ->
  B2R (binary_normalize prec emax D E false) = IZR D * powerRZ 2 E.
Proof.
  intros HD HE. destruct D as [|m|m]; cbn [binary_normalize].
  - cbn [B2R]. lra.
  - apply (b32_round_exact false); lia.
  - apply (b32_round_exact true); lia.
Qed.

(** The floor of a float is the floor of its value. *)
Lemma floor_value_real (x : spec_float) (n : Z) :
  is_finite x = true -> floor_value x = Some n -> Zfloor (B2R x) = n.
Proof.
  intros Hfin Hn.
  set (E := Z.min (exponent x) 0).
  pose proof (floor_value_scaled x E Hfin ltac:(unfold E; lia)
                ltac:(unfold E; lia)) as Hfl.
  rewrite Hn in Hfl. injection Hfl as ->.
  rewrite (B2R_scaled x E) by (unfold E; lia).
  set (a := scaled E x). set (P := (2 ^ (- E))%Z).
  assert (HP : (0 < P)%Z) by (apply Z.pow_pos_nonneg; unfold E; lia).
  pose proof (Z.div_mod a P ltac:(lia)) as Hdm.
  pose proof (Z.mod_pos_bound a P HP) as Hmod.
  assert (Hinv : powerRZ 2 (- E) * powerRZ 2 E = 1)
    by (rewrite <- pow2_add; replace (- E + E)%Z with 0%Z by lia;
        reflexivity).
  pose proof (pow2_pos E) as HpE.
  assert (HIP : IZR P = powerRZ 2 (- E))
    by (unfold P; apply pow2_IZR; unfold E; lia).
  apply Zfloor_eq.
  assert (H1 : IZR (a / P * P) <= IZR a) by (apply IZR_le; lia).
  assert (H2 : IZR a < IZR ((a / P + 1) * P)) by (apply IZR_lt; lia).
  rewrite mult_IZR, HIP in H1. rewrite mult_IZR, plus_IZR, HIP in H2.
  apply (Rmult_le_compat_r (powerRZ 2 E)) in H1; [|lra].
  apply (Rmult_lt_compat_r (powerRZ 2 E)) in H2; [|lra].
  rewrite Rmult_assoc, Hinv in H1. rewrite Rmult_assoc, Hinv in H2.
  split; lra.
Qed.

(** Outside [(-1, 0)] the fractional part [x - floor(x)] is computed
    exactly. *)
Lemma b32_fraction_exact (x : spec_float) (n : Z) :
  valid_binary prec emax x = true -> floor_value x = Some n ->
  0 <= B2R x \/ B2R x <= -1 ->
  B2R (SFsub prec emax x (b32_floor x)) = B2R x - IZR n.
Proof.
  intros Hv Hn Hout.
  assert (Hfin : is_finite x = true)
    by (destruct x; try discriminate; reflexivity).
  set (E := Z.min (exponent x) 0).
  rewrite (b32_fraction x n E Hv Hn) by (unfold E; lia).
  pose proof (floor_value_scaled x E Hfin ltac:(unfold E; lia)
                ltac:(unfold E; lia)) as Hfl.
  rewrite Hn in Hfl. injection Hfl as Hndef.
  set (P := (2 ^ (- E))%Z) in *.
  assert (HP : (0 < P)%Z) by (apply Z.pow_pos_nonneg; unfold E; lia).
  set (a := scaled E x) in *.
  pose proof (Z.div_mod a P ltac:(lia)) as Hdm.
  pose proof (Z.mod_pos_bound a P HP) as Hmod.
  assert (Hinv : powerRZ 2 (- E) * powerRZ 2 E = 1)
    by (rewrite <- pow2_add; replace (- E + E)%Z with 0%Z by lia;
        reflexivity).
  assert (HIP : IZR P = powerRZ 2 (- E))
    by (unfold P; apply pow2_IZR; unfold E; lia).
  assert (Hval : IZR (a - n * P) * powerRZ 2 E = B2R x - IZR n).
  { rewrite (B2R_scaled x E) by (unfold E; lia). fold a.
    rewrite minus_IZR, mult_IZR, HIP, Rmult_minus_distr_r, Rmult_assoc, Hinv.
    lra. }
  destruct (Z.le_gt_cases (-24) E) as [HE | HE].
  - rewrite b32_normalize_exact; [exact Hval| |].
    + assert (P <= 2 ^ 24)%Z by (apply Z.pow_le_mono_r; lia).
      rewrite Hndef. lia.
    + unfold E in *. lia.
  - (* a float below 1 in magnitude: it is not negative, and is its own
       fractional part *)
    destruct x as [s|s| |s m e]; try (cbn in Hfin; discriminate Hfin);
      [cbn [exponent] in E; unfold E in HE; lia|].
    cbn [exponent] in E.
    assert (He : E = e) by (unfold E in *; lia).
    pose proof (valid_mantissa s m e Hv) as Hm.
    assert (Hsmall : IZR (Z.pos m) * powerRZ 2 e < 1).
    { assert (Hm' : IZR (Z.pos m) < powerRZ 2 24)
        by (rewrite <- pow2_IZR by lia; apply IZR_lt; lia).
      pose proof (pow2_pos e).
      assert (Hle : powerRZ 2 (24 + e) <= powerRZ 2 0) by (apply pow2_le; lia).
      rewrite pow2_add in Hle. change (powerRZ 2 0) with 1 in Hle. nra. }
    pose proof (pow2_pos e). pose proof (IZR_lt 0 (Z.pos m) ltac:(lia)).
    destruct s.
    { cbn [B2R cond_Zopp] in Hout. rewrite opp_IZR in Hout. nra. }
    assert (Ha : a = Z.pos m).
    { unfold a. cbn [scaled cond_Zopp]. rewrite He, Z.sub_diag. lia. }
    assert (Hn0 : n = 0%Z).
    { rewrite Hndef, Ha. apply Z.div_small.
      assert (2 ^ 24 <= P)%Z by (apply Z.pow_le_mono_r; lia). lia. }
    rewrite Hn0, Ha, Z.mul_0_l, Z.sub_0_r, He.
    pose proof (binary_normalize_valid false m e false Hv) as Hnv.
    cbn [cond_Zopp] in Hnv. rewrite Hnv. cbn [B2R cond_Zopp].
    lra.
Qed.

(** At floats outside [(-1, 0)] the noise computed in binary32 is
    within [173 * delta] of the noise in exact arithmetic. *)
Lemma b32_noiseValue_near (x z r : spec_float) :
  valid_binary prec emax x = true -> valid_binary prec emax z = true ->
  0 <= B2R x \/ B2R x <= -1 -> 0 <= B2R z \/ B2R z <= -1 ->
  noiseValue (ops := binary32) x z = Some r ->
  exists r' : R,
    noiseValue (ops := Exact) (B2R x) (B2R z) = Some r' /\
    near r r' (173 * delta).
Proof.
  intros Hvx Hvz Hox Hoz Hr. unfold noiseValue in Hr.
  rewrite (b32_gridIndex x Hvx), (b32_gridIndex z Hvz) in Hr.
  destruct (floor_value x) as [n|] eqn:Hn; cbn [mbind option_bind] in Hr;
    [|discriminate].
  destruct (Int.in_range n) eqn:Hrn; cbn [mbind option_bind] in Hr;
    [|discriminate].
  destruct (floor_value z) as [m|] eqn:Hm; cbn [mbind option_bind] in Hr;
    [|discriminate].
  destruct (Int.in_range m) eqn:Hrm; cbn [mbind option_bind] in Hr;
    [|discriminate].
  cbn [fsub ffloor binary32] in Hr.
  assert (Hfx : is_finite x = true)
    by (destruct x; try discriminate; reflexivity).
  assert (Hfz : is_finite z = true)
    by (destruct z; try discriminate; reflexivity).
  destruct (b32_fraction_unit x n Hvx Hn) as [Gx Ux].
  destruct (b32_fraction_unit z m Hvz Hm) as [Gz Uz].
  pose proof (Z.mod_pos_bound n 256 ltac:(lia)) as HX.
  pose proof (Z.mod_pos_bound m 256 ltac:(lia)) as HZ.
  destruct (b32_noiseCell_near (n mod 256) (m mod 256) _ _
              ltac:(lia) ltac:(lia) Gx Gz Ux Uz)
    as (r0 & r' & E & E' & Hnear).
  rewrite E in Hr. injection Hr as <-.
  exists r'. split; [|exact Hnear].
  unfold Exact. rewrite noiseValue_real.
  rewrite (floor_value_real x n Hfx Hn), (floor_value_real z m Hfz Hm).
  rewrite Hrn, Hrm. cbn [andb]. fold Exact.
  rewrite <- (b32_fraction_exact x n Hvx Hn Hox).
  rewrite <- (b32_fraction_exact z m Hvz Hm Hoz).
  exact E'.
Qed.

End Accuracy.

(** ** The shape of the curve *)

Section FadeShape.

Import RealModel.
Local Open Scope R_scope.

Lemma fade_derivable : derivable (fade (ops := Exact)).
Proof.
  intros t. exists (30 * t ^ 2 * (t - 1) ^ 2). apply fade_derivative.
Defined.

Lemma fade_derive (t : R) :
  derive_pt (fade (ops := Exact)) t (fade_derivable t) =
  30 * t ^ 2 * (t - 1) ^ 2.
Proof. reflexivity. Qed.

Lemma fade_increasing (s t : R) :
  s <= t -> fade (ops := Exact) s <= fade (ops := Exact) t.
Proof.
  apply (nonneg_derivative_1 _ fade_derivable).
  intros x. rewrite fade_derive.
  apply Rmult_le_pos; [apply Rmult_le_pos; [lra|]|]; apply pow2_ge_0.
Qed.

Lemma fade_strictly_increasing (s t : R) :
  0 <= s -> s < t -> t <= 1 ->
  fade (ops := Exact) s < fade (ops := Exact) t.
Proof.
  intros Hs Hst Ht.
  apply (derive_increasing_interv 0 1 _ fade_derivable); try lra.
  intros x Hx. rewrite fade_derive.
  assert (H1 : 0 < x ^ 2) by (apply pow_lt; lra).
  assert (H2 : 0 < (x - 1) ^ 2)
    by (replace ((x - 1) ^ 2) with ((1 - x) ^ 2) by ring; apply pow_lt; lra).
  apply Rmult_lt_0_compat; [apply Rmult_lt_0_compat; [lra|exact H1]|exact H2].
Qed.

End FadeShape.

(** ** The range of the noise and of the base of the power *)

Section ExactRange.

Import RealModel.
Local Open Scope R_scope.

Lemma noiseValue_unit (x z r : R) :
  noiseValue (ops := Exact) x z = Some r -> 0 <= r <= 1.
Proof.
  unfold Exact. rewrite noiseValue_real.
  destruct (_ && _); [|discriminate].
  pose proof (Zfloor_bound x). pose proof (Zfloor_bound z).
  apply noiseCell_unit; lra.
Qed.

(** The sum of the six octaves is in [[0, 126]]: [pow] is never given
    a negative base. *)
Lemma noiseValue_origin_exact : noiseValue (ops := Exact) 0 0 = Some (1 / 2).
Proof.
  apply (noiseValue_lattice (fun x => x) (fun x => x) eq_refl eq_refl eq_refl
           eq_refl eq_refl eq_refl eq_refl eq_refl 0 0);
    reflexivity.
Qed.

Lemma heightAt_origin_exact (pow : R -> R -> R) :
  heightAt (ops := Exact) pow 0 0 = Some (pow 63 (12 / 10) - 140).
Proof.
  pose proof noiseValue_origin_exact as Hn.
  unfold heightAt, one_point_two. real_ops.
  replace (0 / 256) with 0 by lra. replace (0 / 64) with 0 by lra.
  replace (0 / 32) with 0 by lra. replace (0 / 16) with 0 by lra.
  replace (0 / 8) with 0 by lra. replace (0 / 4) with 0 by lra.
  rewrite Hn. cbn [mbind option_bind].
  do 3 f_equal. lra.
Qed.

End ExactRange.

(** ** The period of the terrain *)

Section HeightPeriod.

Import RealModel.
Local Open Scope R_scope.

(** The noise has the period 256, so every multiple of it. *)
Lemma noiseValue_shift_multiple_x (k : Z) (x z : R) :
  -2147483648 <= x < 2147483648 ->
  -2147483648 <= x + IZR (256 * k) < 2147483648 ->
  noiseValue (ops := Exact) (x + IZR (256 * k)) z =
  noiseValue (ops := Exact) x z.
Proof.
  intros Hx Hx'. unfold Exact. rewrite !noiseValue_real.
  rewrite (in_range_floor x Hx), (in_range_floor _ Hx').
  rewrite Zfloor_addz.
  replace ((Zfloor x + 256 * k) mod 256)%Z with (Zfloor x mod 256)%Z
    by (rewrite (Z.mul_comm 256 k), Z.mod_add by lia; reflexivity).
  rewrite plus_IZR.
  replace (x + IZR (256 * k) - (IZR (Zfloor x) + IZR (256 * k)))
    with (x - IZR (Zfloor x)) by ring.
  reflexivity.
Qed.

Lemma noiseValue_shift_multiple_z (k : Z) (x z : R) :
  -2147483648 <= z < 2147483648 ->
  -2147483648 <= z + IZR (256 * k) < 2147483648 ->
  noiseValue (ops := Exact) x (z + IZR (256 * k)) =
  noiseValue (ops := Exact) x z.
Proof.
  intros Hz Hz'. unfold Exact. rewrite !noiseValue_real.
  rewrite (in_range_floor z Hz), (in_range_floor _ Hz').
  rewrite Zfloor_addz.
  replace ((Zfloor z + 256 * k) mod 256)%Z with (Zfloor z mod 256)%Z
    by (rewrite (Z.mul_comm 256 k), Z.mod_add by lia; reflexivity).
  rewrite plus_IZR.
  replace (z + IZR (256 * k) - (IZR (Zfloor z) + IZR (256 * k)))
    with (z - IZR (Zfloor z)) by ring.
  reflexivity.
Qed.

(** One octave at a position moved by 65536: its argument moves by a
    multiple of 256. *)
Lemma octave_shift_x (c k : Z) (x z : R) :
  (0 < c)%Z -> (c * (256 * k) = 65536)%Z ->
  -2147483648 <= x -> x + 65536 < 2147483648 ->
  noiseValue (ops := Exact) ((x + 65536) / IZR c) (z / IZR c) =
  noiseValue (ops := Exact) (x / IZR c) (z / IZR c).
Proof.
  intros Hc Hk Hlo Hhi.
  assert (Hc1 : 1 <= IZR c) by (apply IZR_le; lia).
  assert (Heq : (x + 65536) / IZR c = x / IZR c + IZR (256 * k)).
  { change 65536 with (IZR 65536). rewrite <- Hk, mult_IZR. field. lra. }
  rewrite Heq.
  assert (Hinv : 0 < / IZR c <= 1).
  { split; [apply Rinv_0_lt_compat; lra|].
    rewrite <- Rinv_1. apply Rinv_le_contravar; lra. }
  assert (Hb : forall y, -2147483648 <= y < 2147483648 ->
                         -2147483648 <= y / IZR c < 2147483648).
  { intros y Hy. unfold Rdiv. split.
    - destruct (Rle_dec 0 y); [|nra].
      assert (0 <= y * / IZR c) by (apply Rmult_le_pos; lra). lra.
    - destruct (Rle_dec 0 y); nra. }
  apply noiseValue_shift_multiple_x.
  - apply Hb. lra.
  - rewrite <- Heq. apply Hb. lra.
Qed.

Lemma octave_shift_z (c k : Z) (x z : R) :
  (0 < c)%Z -> (c * (256 * k) = 65536)%Z ->
  -2147483648 <= z -> z + 65536 < 2147483648 ->
  noiseValue (ops := Exact) (x / IZR c) ((z + 65536) / IZR c) =
  noiseValue (ops := Exact) (x / IZR c) (z / IZR c).
Proof.
  intros Hc Hk Hlo Hhi.
  assert (Hc1 : 1 <= IZR c) by (apply IZR_le; lia).
  assert (Heq : (z + 65536) / IZR c = z / IZR c + IZR (256 * k)).
  { change 65536 with (IZR 65536). rewrite <- Hk, mult_IZR. field. lra. }
  rewrite Heq.
  assert (Hinv : 0 < / IZR c <= 1).
  { split; [apply Rinv_0_lt_compat; lra|].
    rewrite <- Rinv_1. apply Rinv_le_contravar; lra. }
  assert (Hb : forall y, -2147483648 <= y < 2147483648 ->
                         -2147483648 <= y / IZR c < 2147483648).
  { intros y Hy. unfold Rdiv. split.
    - destruct (Rle_dec 0 y); [|nra].
      assert (0 <= y * / IZR c) by (apply Rmult_le_pos; lra). lra.
    - destruct (Rle_dec 0 y); nra. }
  apply noiseValue_shift_multiple_z.
  - apply Hb. lra.
  - rewrite <- Heq. apply Hb. lra.
Qed.

Lemma heightAt_period_x (pow : R -> R -> R) (x z : R) :
  -2147483648 <= x -> x + 65536 < 2147483648 ->
  heightAt (ops := Exact) pow (x + 65536) z = heightAt (ops := Exact) pow x z.
Proof.
  intros Hlo Hhi. unfold heightAt. real_ops.
  rewrite (octave_shift_x 256 1), (octave_shift_x 64 4),
    (octave_shift_x 32 8), (octave_shift_x 16 16), (octave_shift_x 8 32),
    (octave_shift_x 4 64) by (assumption || lia).
  reflexivity.
Qed.

Lemma heightAt_period_z (pow : R -> R -> R) (x z : R) :
  -2147483648 <= z -> z + 65536 < 2147483648 ->
  heightAt (ops := Exact) pow x (z + 65536) = heightAt (ops := Exact) pow x z.
Proof.
  intros Hlo Hhi. unfold heightAt. real_ops.
  rewrite (octave_shift_z 256 1), (octave_shift_z 64 4),
    (octave_shift_z 32 8), (octave_shift_z 16 16), (octave_shift_z 8 32),
    (octave_shift_z 4 64) by (assumption || lia).
  reflexivity.
Qed.

End HeightPeriod.

(** ** The gradients along a row of corners *)

Section HashUniform.

Lemma gradientHash_rows :
  forallb (fun gridX =>
    let hashes := gradientHash gridX <$> seqZ 0 256 in
    forallb (fun k =>
      Nat.eqb (length (filter (fun h => h = Some k) hashes)) 32)
      (seqZ 0 8))
    (seqZ 0 256) = true.
Proof. vm_compute. reflexivity. Qed.

Lemma gradientHash_columns :
  forallb (fun gridZ =>
    let hashes := (fun gridX => gradientHash gridX gridZ) <$> seqZ 0 256 in
    forallb (fun k =>
      Nat.eqb (length (filter (fun h => h = Some k) hashes)) 32)
      (seqZ 0 8))
    (seqZ 0 256) = true.
Proof. vm_compute. reflexivity. Qed.

Lemma forallb_seqZ (f : Z -> bool) (n i : Z) :
  forallb f (seqZ 0 n) = true -> 0 <= i < n -> f i = true.
Proof.
  intros Hall Hi. rewrite forallb_forall in Hall. apply Hall.
  apply list_elem_of_In, elem_of_seqZ. lia.
Qed.

Lemma gradientHash_row_count (gridX k : Z) :
  0 <= gridX <= 255 -> 0 <= k <= 7 ->
  length (filter (fun h => h = Some k) (gradientHash gridX <$> seqZ 0 256)) =
  32%nat.
Proof.
  intros HX Hk.
  pose proof (forallb_seqZ _ 256 gridX gradientHash_rows ltac:(lia)) as Hrow.
  cbv zeta in Hrow.
  apply Nat.eqb_eq. exact (forallb_seqZ _ 8 k Hrow ltac:(lia)).
Qed.

Lemma gradientHash_column_count (gridZ k : Z) :
  0 <= gridZ <= 255 -> 0 <= k <= 7 ->
  length (filter (fun h => h = Some k)
            ((fun gridX => gradientHash gridX gridZ) <$> seqZ 0 256)) =
  32%nat.
Proof.
  intros HZ Hk.
  pose proof (forallb_seqZ _ 256 gridZ gradientHash_columns ltac:(lia))
    as Hcol.
  cbv zeta in Hcol.
  apply Nat.eqb_eq. exact (forallb_seqZ _ 8 k Hcol ltac:(lia)).
Qed.

End HashUniform.

(** ** The first frame, in binary32 *)

Section FirstFrame.

Import Binary32.

Lemma heightAt_is_Some {F : Type} {ops : FloatOps F}
    (pow : double -> double -> double) (x z : F) :
  (forall c, c ∈ [256; 64; 32; 16; 8; 4] ->
             is_Some (noiseValue (x / of_int c)%fl (z / of_int c)%fl)) ->
  is_Some (heightAt pow x z).
Proof.
  intros Hc. unfold heightAt.
  destruct (Hc 256 ltac:(repeat constructor)) as [n0 ->].
  destruct (Hc 64 ltac:(repeat constructor)) as [n1 ->].
  destruct (Hc 32 ltac:(repeat constructor)) as [n2 ->].
  destruct (Hc 16 ltac:(repeat constructor)) as [n3 ->].
  destruct (Hc 8 ltac:(repeat constructor)) as [n4 ->].
  destruct (Hc 4 ltac:(repeat constructor)) as [n5 ->].
  cbn [mbind option_bind]. eauto.
Qed.

(** Every argument the first frame gives to [noiseValue] has a cell
    index. *)
Lemma first_frame_arguments :
  forallb (fun i =>
    forallb (fun c =>
      bool_decide (is_Some
        (to_int (ops := binary32)
           (ffloor (FloatOps := binary32)
              (SFdiv prec emax (SFadd prec emax (of_Z i) (of_Z 0))
                 (of_Z c))))))
      [256; 64; 32; 16; 8; 4])
    (seqZ 0 512) = true.
Proof. vm_compute. reflexivity. Qed.

Lemma first_frame_height (pow : spec_float -> spec_float -> spec_float)
    (i j : Z) :
  0 <= i < 512 -> 0 <= j < 512 ->
  is_Some (vertexHeight (ops := binary32) pow (of_Z 0) (of_Z 0) i j).
Proof.
  intros Hi Hj. unfold vertexHeight. apply heightAt_is_Some.
  intros c Hc. apply noiseValue_defined_iff.
  pose proof first_frame_arguments as Hb. rewrite forallb_forall in Hb.
  assert (Hin : forall k, 0 <= k < 512 ->
             is_Some (to_int (ops := binary32)
               (ffloor (FloatOps := binary32)
                  (SFdiv prec emax (SFadd prec emax (of_Z k) (of_Z 0))
                     (of_Z c))))).
  { intros k Hk.
    specialize (Hb k ltac:(apply list_elem_of_In, elem_of_seqZ; lia)).
    rewrite forallb_forall in Hb.
    specialize (Hb c ltac:(apply list_elem_of_In; exact Hc)).
    eapply bool_decide_eq_true_1, Hb. }
  split; [apply (Hin i Hi)|apply (Hin j Hj)].
Qed.

End FirstFrame.

(** ** [checkErrors] *)

Section CheckErrors.

Lemma checkErrors_loop_zero (errors : nat -> Z) (k : nat) :
  forall (fuel c : nat) (printed : list Z),
    errors (c + k)%nat = 0 ->
    (forall i, (i < k)%nat -> errors (c + i)%nat <> 0) ->
    (k <= fuel)%nat ->
    checkErrors_loop fuel errors (S c) (errors c) printed =
    Some (printed ++ (errors <$> seq c k), S (c + k)).
Proof.
  induction k as [|k IH]; intros fuel c printed Hz Hnz Hfuel.
  - rewrite Nat.add_0_r in *. destruct fuel; cbn [checkErrors_loop];
      rewrite Hz; cbn; rewrite app_nil_r; reflexivity.
  - destruct fuel as [|fuel]; [lia|]. cbn [checkErrors_loop].
    pose proof (Hnz O ltac:(lia)) as H0. rewrite Nat.add_0_r in H0.
    destruct (Z.eqb_spec (errors c) 0) as [|_]; [contradiction|].
    rewrite (IH fuel (S c)).
    + cbn [seq fmap list_fmap]. rewrite <- app_assoc.
      replace (S c + k)%nat with (c + S k)%nat by lia. reflexivity.
    + rewrite <- Hz. f_equal. lia.
    + intros i Hi. specialize (Hnz (S i) ltac:(lia)).
      replace (S c + i)%nat with (c + S i)%nat by lia. exact Hnz.
    + lia.
Qed.

Lemma checkErrors_loop_never (errors : nat -> Z) (fuel : nat) :
  forall (c : nat) (printed : list Z),
    (forall i, errors i <> 0) ->
    checkErrors_loop fuel errors (S c) (errors c) printed = None.
Proof.
  induction fuel as [|fuel IH]; intros c printed Hnz; cbn [checkErrors_loop];
    destruct (Z.eqb_spec (errors c) 0) as [H0|_];
    try (exfalso; exact (Hnz c H0)); [reflexivity|].
  apply IH, Hnz.
Qed.

End CheckErrors.

(** ** The pitch of the camera *)

Section CameraPitch.

Import RealModel Binary32.
Local Open Scope R_scope.

(** Of two floats in canonical form, the one of the smaller exponent
    is the smaller in magnitude. *)
Lemma canonical_magnitude (s1 s2 : bool) (m1 m2 : positive) (e1 e2 : Z) :
  valid_binary prec emax (S754_finite s1 m1 e1) = true ->
  valid_binary prec emax (S754_finite s2 m2 e2) = true ->
  (e1 < e2)%Z ->
  IZR (Z.pos m1) * powerRZ 2 e1 < IZR (Z.pos m2) * powerRZ 2 e2.
Proof.
  cbn [valid_binary]. unfold bounded, canonical_mantissa.
  intros [Hc1 _]%andb_true_iff [Hc2 _]%andb_true_iff He.
  apply Z.eqb_eq in Hc1, Hc2.
  pose proof (digits2_pos_bound m1) as [_ Hhi1].
  pose proof (digits2_pos_bound m2) as [Hlo2 _].
  set (d1 := Z.pos (digits2_pos m1)) in *.
  set (d2 := Z.pos (digits2_pos m2)) in *.
  assert (Hd1 : (0 < d1 <= 24)%Z)
    by (unfold d1, fexp, emin, prec, emax in *; lia).
  assert (Hd2 : d2 = 24%Z) by (unfold d2, fexp, emin, prec, emax in *; lia).
  rewrite Hd2 in Hlo2. change (24 - 1)%Z with 23%Z in Hlo2.
  assert (H1 : (Z.pos m1 < 2 ^ 24)%Z).
  { assert (2 ^ d1 <= 2 ^ 24)%Z by (apply Z.pow_le_mono_r; lia). lia. }
  apply IZR_lt in H1. apply IZR_le in Hlo2.
  rewrite pow2_IZR in H1, Hlo2 by lia.
  pose proof (pow2_pos e1). pose proof (pow2_pos e2).
  assert (Hle : powerRZ 2 (24 + e1) <= powerRZ 2 (23 + e2))
    by (apply pow2_le; lia).
  rewrite !pow2_add in Hle.
  assert (IZR (Z.pos m1) * powerRZ 2 e1 < powerRZ 2 24 * powerRZ 2 e1)
    by (apply Rmult_lt_compat_r; assumption).
  assert (powerRZ 2 23 * powerRZ 2 e2 <= IZR (Z.pos m2) * powerRZ 2 e2)
    by (apply Rmult_le_compat_r; lra).
  lra.
Qed.

(** The comparison of binary32 is the comparison of the values. *)
Lemma SFltb_false (x y : spec_float) :
  good x -> good y -> SFltb x y = false -> B2R y <= B2R x.
Proof.
  intros [Hvx Hfx] [Hvy Hfy]. unfold SFltb.
  destruct x as [sx| | |sx mx ex]; try discriminate;
    destruct y as [sy| | |sy my ey]; try discriminate;
    cbn [SFcompare B2R].
  - lra.
  - pose proof (pow2_pos ey). pose proof (IZR_lt 0 (Z.pos my) ltac:(lia)).
    destruct sy; [|discriminate]. intros _. cbn [cond_Zopp].
    rewrite opp_IZR. nra.
  - pose proof (pow2_pos ex). pose proof (IZR_lt 0 (Z.pos mx) ltac:(lia)).
    destruct sx; [discriminate|]. intros _. cbn [cond_Zopp]. nra.
  - pose proof (pow2_pos ex). pose proof (IZR_lt 0 (Z.pos mx) ltac:(lia)).
    pose proof (pow2_pos ey). pose proof (IZR_lt 0 (Z.pos my) ltac:(lia)).
    change (PosDef.Pos.compare_cont Eq mx my) with (Pos.compare mx my).
    destruct sx, sy; cbn [cond_Zopp]; rewrite ?opp_IZR;
      try discriminate; try (intros _; nra).
    + (* both negative *)
      destruct (Z.compare_spec ex ey) as [-> | Hlt | Hgt];
        [|intros _|discriminate].
      * destruct (Pos.compare_spec mx my) as [-> | Hm | Hm]; cbn [CompOpp];
          try discriminate; intros _; [lra|].
        apply Pos2Z.pos_lt_pos, IZR_lt in Hm. nra.
      * pose proof (canonical_magnitude _ _ _ _ _ _ Hvx Hvy Hlt). lra.
    + (* both positive *)
      destruct (Z.compare_spec ex ey) as [-> | Hlt | Hgt];
        [|discriminate|intros _].
      * destruct (Pos.compare_spec mx my) as [-> | Hm | Hm];
          try discriminate; intros _; [lra|].
        apply Pos2Z.pos_lt_pos, IZR_lt in Hm. nra.
      * pose proof (canonical_magnitude _ _ _ _ _ _ Hvy Hvx Hgt). lra.
Qed.

Lemma SFltb_true (x y : spec_float) :
  good x -> good y -> SFltb x y = true -> B2R x < B2R y.
Proof.
  intros [Hvx Hfx] [Hvy Hfy]. unfold SFltb.
  destruct x as [sx| | |sx mx ex]; try discriminate;
    destruct y as [sy| | |sy my ey]; try discriminate;
    cbn [SFcompare B2R].
  - pose proof (pow2_pos ey). pose proof (IZR_lt 0 (Z.pos my) ltac:(lia)).
    destruct sy; [discriminate|]. intros _. cbn [cond_Zopp]. nra.
  - pose proof (pow2_pos ex). pose proof (IZR_lt 0 (Z.pos mx) ltac:(lia)).
    destruct sx; [|discriminate]. intros _. cbn [cond_Zopp].
    rewrite opp_IZR. nra.
  - pose proof (pow2_pos ex). pose proof (IZR_lt 0 (Z.pos mx) ltac:(lia)).
    pose proof (pow2_pos ey). pose proof (IZR_lt 0 (Z.pos my) ltac:(lia)).
    change (PosDef.Pos.compare_cont Eq mx my) with (Pos.compare mx my).
    destruct sx, sy; cbn [cond_Zopp]; rewrite ?opp_IZR;
      try discriminate; try (intros _; nra).
    + (* both negative *)
      destruct (Z.compare_spec ex ey) as [-> | Hlt | Hgt];
        [|discriminate|intros _].
      * destruct (Pos.compare_spec mx my) as [-> | Hm | Hm]; cbn [CompOpp];
          try discriminate; intros _.
        apply Pos2Z.pos_lt_pos, IZR_lt in Hm. nra.
      * pose proof (canonical_magnitude _ _ _ _ _ _ Hvy Hvx Hgt). lra.
    + (* both positive *)
      destruct (Z.compare_spec ex ey) as [-> | Hlt | Hgt];
        [|intros _|discriminate].
      * destruct (Pos.compare_spec mx my) as [-> | Hm | Hm];
          try discriminate; intros _.
        apply Pos2Z.pos_lt_pos, IZR_lt in Hm. nra.
      * pose proof (canonical_magnitude _ _ _ _ _ _ Hvx Hvy Hlt). lra.
Qed.

Lemma pitchLimit_binary32 :
  pitchLimit (ops := binary32) = S754_finite false 11783373 (-17).
Proof. reflexivity. Qed.

Lemma clampPitch_binary32 (pitch : spec_float) :
  valid_binary prec emax pitch = true -> pitch <> S754_nan ->
  good (clampPitch (ops := binary32) pitch) /\
  - B2R (pitchLimit (ops := binary32)) <=
    B2R (clampPitch (ops := binary32) pitch) <=
    B2R (pitchLimit (ops := binary32)).
Proof.
  intros Hv Hnan.
  assert (Ghi : good (pitchLimit (ops := binary32))) by (split; reflexivity).
  assert (Glo : good (SFopp (pitchLimit (ops := binary32))))
    by (split; reflexivity).
  assert (Hpos : 0 <= B2R (pitchLimit (ops := binary32))).
  { rewrite pitchLimit_binary32. cbn [B2R cond_Zopp].
    pose proof (pow2_pos (-17)). pose proof (IZR_lt 0 11783373 ltac:(lia)).
    nra. }
  assert (Hlo : B2R (SFopp (pitchLimit (ops := binary32))) =
                - B2R (pitchLimit (ops := binary32))) by apply B2R_opp.
  unfold clampPitch. cbn [flt binary32_order fopp binary32].
  destruct (SFltb pitch (SFopp pitchLimit)) eqn:H1.
  - change (SFltb pitchLimit (SFopp (pitchLimit (ops := binary32))))
      with false. cbv iota.
    split; [exact Glo|]. rewrite Hlo. lra.
  - destruct (SFltb pitchLimit pitch) eqn:H2.
    + split; [exact Ghi|]. lra.
    + assert (Gp : good pitch).
      { split; [exact Hv|].
        destruct pitch as [s|s| |s m e]; try reflexivity;
          [|contradiction].
        destruct s; [discriminate H1|discriminate H2]. }
      split; [exact Gp|].
      pose proof (SFltb_false _ _ Gp Glo H1) as Hge.
      pose proof (SFltb_false _ _ Ghi Gp H2) as Hle.
      rewrite Hlo in Hge. lra.
Qed.

(** An out-of-range pitch is replaced by the limit of its side, and a
    pitch in range is kept. *)
Lemma clampPitch_cases {F : Type} {ops : FloatOps F} {ord : FloatOrder F}
    (pitch : F) :
  flt pitchLimit (- pitchLimit)%fl = false ->
  (flt pitch (- pitchLimit)%fl = true -> clampPitch pitch = (- pitchLimit)%fl) /\
  (flt pitch (- pitchLimit)%fl = false -> flt pitchLimit pitch = true ->
   clampPitch pitch = pitchLimit) /\
  (flt pitch (- pitchLimit)%fl = false -> flt pitchLimit pitch = false ->
   clampPitch pitch = pitch).
Proof.
  intros Hord. unfold clampPitch. repeat split.
  - intros ->. rewrite Hord. reflexivity.
  - intros -> ->. reflexivity.
  - intros -> ->. reflexivity.
Qed.

(** A pitch within the limits is kept. *)
Lemma clampPitch_kept (pitch : spec_float) :
  good pitch ->
  - B2R (pitchLimit (ops := binary32)) <= B2R pitch <=
    B2R (pitchLimit (ops := binary32)) ->
  clampPitch (ops := binary32) pitch = pitch.
Proof.
  intros Gp Hr.
  assert (Ghi : good (pitchLimit (ops := binary32))) by (split; reflexivity).
  assert (Glo : good (SFopp (pitchLimit (ops := binary32))))
    by (split; reflexivity).
  assert (Hlo : B2R (SFopp (pitchLimit (ops := binary32))) =
                - B2R (pitchLimit (ops := binary32))) by apply B2R_opp.
  apply (clampPitch_cases (ops := binary32) pitch); [reflexivity| |].
  - cbn [flt binary32_order fopp binary32].
    destruct (SFltb pitch (SFopp pitchLimit)) eqn:H1; [|reflexivity].
    pose proof (SFltb_true _ _ Gp Glo H1). lra.
  - cbn [flt binary32_order].
    destruct (SFltb pitchLimit pitch) eqn:H2; [|reflexivity].
    pose proof (SFltb_true _ _ Ghi Gp H2). lra.
Qed.

Lemma clampPitch_twice (pitch : spec_float) :
  valid_binary prec emax pitch = true ->
  clampPitch (ops := binary32) (clampPitch (ops := binary32) pitch) =
  clampPitch (ops := binary32) pitch.
Proof.
  intros Hv.
  assert (Hnan : pitch = S754_nan \/ pitch <> S754_nan)
    by (destruct pitch; auto; right; discriminate).
  destruct Hnan as [-> | Hnan]; [reflexivity|].
  destruct (clampPitch_binary32 pitch Hv Hnan) as [G Hr].
  apply clampPitch_kept; assumption.
Qed.

End CameraPitch.

(** ** Where the height is defined, in exact arithmetic *)

Section HeightDomain.

Import RealModel.
Local Open Scope R_scope.

Lemma floor_in_range (x : R) :
  Int.in_range (Zfloor x) = true -> -2147483648 <= x < 2147483648.
Proof.
  intros Hr. apply in_range_spec in Hr.
  pose proof (Zfloor_bound x) as [Hfl Hfu].
  assert (H1 : IZR (-2147483648) <= IZR (Zfloor x)) by (apply IZR_le; lia).
  assert (H2 : IZR (Zfloor x) <= IZR 2147483647) by (apply IZR_le; lia).
  lra.
Qed.

Lemma noiseValue_exact_is_Some (x z : R) :
  is_Some (noiseValue (ops := Exact) x z) <->
  -2147483648 <= x < 2147483648 /\ -2147483648 <= z < 2147483648.
Proof.
  unfold Exact. rewrite noiseValue_real. split.
  - destruct (Int.in_range (Zfloor x)) eqn:Hx;
      [|intros [? [=]]].
    destruct (Int.in_range (Zfloor z)) eqn:Hz;
      [|intros [? [=]]].
    intros _. split; apply floor_in_range; assumption.
  - intros [Hx Hz].
    rewrite (in_range_floor x Hx), (in_range_floor z Hz). cbn [andb].
    apply noiseCell_defined.
    + pose proof (Z.mod_pos_bound (Zfloor x) 256 ltac:(lia)). lia.
    + pose proof (Z.mod_pos_bound (Zfloor z) 256 ltac:(lia)). lia.
Qed.

End HeightDomain.

(** * The claims *)

Section Claims.

Import RealModel Binary32.
Local Open Scope R_scope.

(** C1.  For every input [(x, z)] the height written by the render
    loop is the sum of the six octave terms
    [amplitude * noiseValue (x / wavelength) (z / wavelength)] for
    (256, 64), (64, 32), (32, 16), (16, 8), (8, 4), (4, 2), raised to
    the power 1.2, minus 140; the power and the difference are those
    of [double], and the store converts to [float].  At (0, 0) every
    octave samples a lattice point, the sum is 63, and the height is
    [pow 63 1.2 - 140]: in exact arithmetic, and in binary32, where it
    is the [double] [pow(63, 1.2f) - 140] converted to [float].  With
    [pow(63, 1.2f) = 144.28086758631957], the [double]
    [5076431730456568 * 2^-45], the height stored is the float
    [8977630 * 2^-21]. *)
Theorem heightAt_composition :
  (forall (F : Type) (ops : FloatOps F) (pow : double -> double -> double)
          (x z : F),
      heightAt pow x z = heightAt_spec pow x z) /\
  (forall pow : R -> R -> R,
      heightAt (ops := Exact) pow 0 0 =
        Some (pow (64 * (1 / 2) + 32 * (1 / 2) + 16 * (1 / 2) +
                   8 * (1 / 2) + 4 * (1 / 2) + 2 * (1 / 2)) (12 / 10) - 140) /\
      heightAt (ops := Exact) pow 0 0 = Some (pow 63 (12 / 10) - 140)) /\
  (forall pow : spec_float -> spec_float -> spec_float,
      heightAt (ops := binary32) pow (of_Z 0) (of_Z 0) =
        Some (of_double (FloatOps := binary32)
                (dsub (FloatOps := binary32)
                   (pow (to_double (FloatOps := binary32) (of_Z 63))
                        (to_double (FloatOps := binary32)
                           (one_point_two (ops := binary32))))
                   (dof_int (FloatOps := binary32) 140)))) /\
  (forall pow : spec_float -> spec_float -> spec_float,
      pow (to_double (FloatOps := binary32) (of_Z 63))
          (to_double (FloatOps := binary32)
             (one_point_two (ops := binary32))) =
        S754_finite false 5076431730456568 (-45) ->
      heightAt (ops := binary32) pow (of_Z 0) (of_Z 0) =
        Some (S754_finite false 8977630 (-21))).
Proof.
  split; [intros; apply heightAt_octaves|].
  split; [|split; [exact b32_heightAt_origin|exact b32_heightAt_origin_value]].
  intros pow.
  assert (Hn : noiseValue (ops := Exact) 0 0 = Some (1 / 2)).
  { apply (noiseValue_lattice (fun x => x) (fun x => x) eq_refl eq_refl eq_refl
               eq_refl eq_refl eq_refl eq_refl eq_refl 0 0);
      reflexivity. }
  assert (Hh : heightAt (ops := Exact) pow 0 0 =
               Some (pow (64 * (1 / 2) + 32 * (1 / 2) + 16 * (1 / 2) +
                          8 * (1 / 2) + 4 * (1 / 2) + 2 * (1 / 2))
                       (12 / 10) - 140)).
  { unfold heightAt, one_point_two. real_ops.
    replace (0 / 256) with 0 by lra. replace (0 / 64) with 0 by lra.
    replace (0 / 32) with 0 by lra. replace (0 / 16) with 0 by lra.
    replace (0 / 8) with 0 by lra. replace (0 / 4) with 0 by lra.
    rewrite Hn. reflexivity. }
  split; [exact Hh|].
  rewrite Hh. do 3 f_equal. lra.
Qed.

Lemma heightAt_composition_witness :
  heightAt (ops := binary32)
    (fun _ _ => S754_finite false 5076431730456568 (-45))
    (of_Z 0) (of_Z 0) =
  Some (S754_finite false 8977630 (-21)).
Proof.
  apply (proj2 (proj2 (proj2 heightAt_composition))). reflexivity.
Defined.

(** C2.  For every hash [h] in 0..7 and every offset [(fx, fz)],
    [gradientDotDistance h fx fz] is the [h]-th of the formulas
    [fx+fz], [-fx+fz], [fx-fz], [-fx-fz], [fx], [fz], [-fx], [-fz]
    (over any arithmetic), and in exact arithmetic it is the dot
    product of [(fx, fz)] with the [h]-th of the directions (1,1),
    (-1,1), (1,-1), (-1,-1), (1,0), (0,1), (-1,0), (0,-1). *)
Theorem gradientDotDistance_directions (h : Z) :
  (0 <= h <= 7)%Z ->
  (forall (F : Type) (ops : FloatOps F) (fx fz : F),
      gradientDotDistance h fx fz = gradient_formulas fx fz !! Z.to_nat h) /\
  (forall fx fz : R,
      gradientDotDistance (ops := Exact) h fx fz =
      gradient_dot_spec (ops := Exact) h fx fz).
Proof.
  intros Hh. split.
  - intros. apply gradientDotDistance_formulas, Hh.
  - intros. apply gradientDotDistance_dot, Hh.
Qed.

Lemma gradientDotDistance_directions_witness :
  (0 <= 3 <= 7)%Z /\
  gradientDotDistance (ops := Exact) 3 (3 / 10) (7 / 10) =
  gradient_dot_spec (ops := Exact) 3 (3 / 10) (7 / 10).
Proof.
  assert (Hh : (0 <= 3 <= 7)%Z) by lia.
  split; [exact Hh|].
  apply (proj2 (gradientDotDistance_directions 3 Hh)).
Defined.

(** C3, as amended.  When the argument is the number [x + 256] itself
    and both [floor x] and [floor x + 256] are values of [int],
    [noiseValue (x + 256) z] is [noiseValue x z]: the floor moves by
    256, the cell index [floor x mod 256] and the fractional part
    stay.  Likewise in [z].  This holds in the real model whatever the
    rounding of the operations, and in binary32 for every float [x']
    whose value is that of [x] plus 256. *)
Theorem noiseValue_periodic :
  (forall (rnd rndD : R -> R) (x z : R),
      (Int.in_range (Zfloor x) = true ->
       Int.in_range (Zfloor x + 256) = true ->
       gridIndex (ops := Rounded rnd rndD) (x + 256) =
         gridIndex (ops := Rounded rnd rndD) x /\
       noiseValue (ops := Rounded rnd rndD) (x + 256) z =
         noiseValue (ops := Rounded rnd rndD) x z) /\
      (Int.in_range (Zfloor z) = true ->
       Int.in_range (Zfloor z + 256) = true ->
       gridIndex (ops := Rounded rnd rndD) (z + 256) =
         gridIndex (ops := Rounded rnd rndD) z /\
       noiseValue (ops := Rounded rnd rndD) x (z + 256) =
         noiseValue (ops := Rounded rnd rndD) x z)) /\
  (forall (x x' y : spec_float) (n : Z),
      valid_binary prec emax x = true -> valid_binary prec emax x' = true ->
      shifted_256 x x' = true -> floor_value x = Some n ->
      Int.in_range n = true -> Int.in_range (n + 256) = true ->
      noiseValue (ops := binary32) x' y = noiseValue (ops := binary32) x y /\
      noiseValue (ops := binary32) y x' = noiseValue (ops := binary32) y x).
Proof.
  split.
  - intros rnd rndD x z. split; intros Hr Hr'.
    + split; [|apply noiseValue_shift_x; assumption].
      rewrite !gridIndex_real.
      destruct (shift_256 x) as (Hf & Hm & _). rewrite Hm, Hf, Hr, Hr'.
      reflexivity.
    + split; [|apply noiseValue_shift_z; assumption].
      rewrite !gridIndex_real.
      destruct (shift_256 z) as (Hf & Hm & _). rewrite Hm, Hf, Hr, Hr'.
      reflexivity.
  - intros x x' y n Hv Hv' Hs Hn Hr Hr'. split.
    + exact (b32_noiseValue_shift_x x x' y n Hv Hv' Hs Hn Hr Hr').
    + exact (b32_noiseValue_shift_z y x x' n Hv Hv' Hs Hn Hr Hr').
Qed.

Lemma noiseValue_periodic_witness :
  (Int.in_range (Zfloor (1 / 2)) = true /\
   Int.in_range (Zfloor (1 / 2) + 256) = true /\
   noiseValue (ops := Exact) (1 / 2 + 256) (1 / 4) =
   noiseValue (ops := Exact) (1 / 2) (1 / 4)) /\
  (valid_binary prec emax (ratio 1 2) = true /\
   valid_binary prec emax (ratio 513 2) = true /\
   shifted_256 (ratio 1 2) (ratio 513 2) = true /\
   floor_value (ratio 1 2) = Some 0%Z /\
   noiseValue (ops := binary32) (ratio 513 2) (ratio 1 4) =
   noiseValue (ops := binary32) (ratio 1 2) (ratio 1 4)).
Proof.
  split.
  - assert (Hf : Zfloor (1 / 2) = 0%Z) by (apply Zfloor_eq; lra).
    assert (Hr : Int.in_range (Zfloor (1 / 2)) = true)
      by (rewrite Hf; reflexivity).
    assert (Hr' : Int.in_range (Zfloor (1 / 2) + 256) = true)
      by (rewrite Hf; reflexivity).
    split; [exact Hr|]. split; [exact Hr'|].
    exact (proj2 (proj1 (proj1 noiseValue_periodic (fun x => x) (fun x => x)
                             (1 / 2) (1 / 4))
                    Hr Hr')).
  - assert (Hv : valid_binary prec emax (ratio 1 2) = true) by reflexivity.
    assert (Hv' : valid_binary prec emax (ratio 513 2) = true) by reflexivity.
    assert (Hs : shifted_256 (ratio 1 2) (ratio 513 2) = true) by reflexivity.
    assert (Hn : floor_value (ratio 1 2) = Some 0%Z) by reflexivity.
    split; [exact Hv|]. split; [exact Hv'|]. split; [exact Hs|].
    split; [exact Hn|].
    exact (proj1 (proj2 noiseValue_periodic (ratio 1 2) (ratio 513 2)
                    (ratio 1 4) 0%Z Hv Hv' Hs Hn eq_refl eq_refl)).
Defined.

(** C3 as stated fails twice over.  In binary32 the sum [0.3f + 256]
    is rounded and the two noise values differ; and the largest float
    below [2^31] has a noise value while the float 256 above it has
    none, in binary32 and in exact arithmetic alike. *)
Lemma noiseValue_shift_counterexample :
  (noiseValue (ops := binary32)
     (fadd (FloatOps := binary32)
        (ratio 3 10) (of_Z 256))
     (of_Z 0) = Some (S754_finite false 12564950 (-25)) /\
   noiseValue (ops := binary32)
     (ratio 3 10)
     (of_Z 0) = Some (S754_finite false 12564860 (-25))) /\
  (noiseValue (ops := binary32) (of_Z 2147483520) (of_Z 0) =
     Some (one_half (ops := binary32)) /\
   noiseValue (ops := binary32)
     (fadd (FloatOps := binary32) (of_Z 2147483520) (of_Z 256))
     (of_Z 0) = None) /\
  (noiseValue (ops := Exact) 2147483520 0 = Some (1 / 2) /\
   noiseValue (ops := Exact) (2147483520 + 256) 0 = None).
Proof.
  split; [exact b32_shift_rounds|].
  split; [exact b32_shift_leaves_int|].
  split.
  - apply (noiseValue_lattice (fun x => x) (fun x => x) eq_refl eq_refl eq_refl
               eq_refl eq_refl eq_refl eq_refl eq_refl
             2147483520 0); reflexivity.
  - unfold Exact. rewrite noiseValue_real.
    replace (2147483520 + 256) with (IZR 2147483776) by (simpl; lra).
    rewrite Zfloor_IZR. reflexivity.
Qed.

(** C4, as amended.  [noiseValue x z] is defined exactly when
    [floor x] and [floor z] are finite and their values are values of
    [int], that is, lie in [-2^31, 2^31 - 1]; every other step, the
    table lookups and the [switch] included, is then defined.  This
    holds over any arithmetic; in the real model the condition reads
    [-2^31 <= floor x <= 2^31 - 1], and the same for [z]; in binary32
    it is that the floors of the two values are values of [int]. *)
Theorem noiseValue_total_in_range :
  (forall (F : Type) (ops : FloatOps F) (x z : F),
      is_Some (noiseValue x z) <->
      exists nx nz : Z,
        trunc (ffloor x) = Some nx /\ Int.in_range nx = true /\
        trunc (ffloor z) = Some nz /\ Int.in_range nz = true) /\
  (forall (rnd rndD : R -> R) (x z : R),
      is_Some (noiseValue (ops := Rounded rnd rndD) x z) <->
      (-2147483648 <= Zfloor x <= 2147483647)%Z /\
      (-2147483648 <= Zfloor z <= 2147483647)%Z) /\
  (forall x z : spec_float,
      valid_binary prec emax x = true -> valid_binary prec emax z = true ->
      is_Some (noiseValue (ops := binary32) x z) <->
      exists nx nz : Z,
        floor_value x = Some nx /\ (-2147483648 <= nx <= 2147483647)%Z /\
        floor_value z = Some nz /\ (-2147483648 <= nz <= 2147483647)%Z).
Proof.
  assert (Hgen : forall (F : Type) (ops : FloatOps F) (x z : F),
             is_Some (noiseValue x z) <->
             exists nx nz : Z,
               trunc (ffloor x) = Some nx /\ Int.in_range nx = true /\
               trunc (ffloor z) = Some nz /\ Int.in_range nz = true).
  { intros F ops x z. rewrite noiseValue_defined_iff. split.
    - intros [[nx Hx] [nz Hz]].
      apply to_int_Some in Hx as [? ?]. apply to_int_Some in Hz as [? ?].
      exists nx, nz. auto.
    - intros (nx & nz & Hx & Hrx & Hz & Hrz).
      split; [exists nx | exists nz]; apply to_int_Some; auto. }
  split; [exact Hgen|]. split.
  - intros rnd rndD x z. rewrite Hgen. cbn [trunc ffloor Rounded].
    rewrite !Rtrunc_IZR, <- !in_range_spec. split.
    + intros (nx & nz & [= <-] & Hrx & [= <-] & Hrz). auto.
    + intros [Hrx Hrz]. exists (Zfloor x), (Zfloor z). auto.
  - intros x z Hx Hz. rewrite Hgen. cbn [trunc ffloor binary32].
    rewrite (b32_trunc_floor x Hx), (b32_trunc_floor z Hz).
    split; intros (nx & nz & Hfx & Hrx & Hfz & Hrz); exists nx, nz;
      rewrite ?in_range_spec in *; rewrite <- ?in_range_spec in *; auto.
Qed.

Lemma noiseValue_total_in_range_witness :
  is_Some (noiseValue (ops := binary32)
             (ratio (-27) 10)
             (of_Z 2147483520)).
Proof.
  apply (proj1 noiseValue_total_in_range).
  exists (-3)%Z, 2147483520%Z. repeat split; vm_compute; reflexivity.
Defined.

(** C4 as stated fails: [2^31] is a finite float of binary32, its
    conversion to [int] is undefined, and [noiseValue] has no value
    there. *)
Lemma noiseValue_not_total_example :
  is_finite (of_Z 2147483648) = true /\
  is_finite (of_Z 0) = true /\
  noiseValue (ops := binary32) (of_Z 2147483648) (of_Z 0) = None.
Proof. repeat split; vm_compute; reflexivity. Qed.

(** C5, as amended.  At integers [i], [j] that are values of [int],
    and under any roundings of [float] and of [double] that keep 0,
    1/2, 1 and 2: both offsets into the cell are 0 and the curve gives
    them the weight [fade 0 = 0]; with weight 0 an interpolation
    returns its first end, whatever the second; the dot product at
    the corner is 0 for every gradient index; and [noiseValue i j] is
    exactly 1/2.  The first part is the mechanism, at any offsets and
    under any roundings that keep 0 and 1: where both weights are 0
    the noise of a cell is the rescaled dot product at its first
    corner, whatever the three other corners give.  In binary32 the
    noise is exactly [0.5] at every pair of floats whose values are
    integers and values of [int], among them the conversions of the
    integers below [2^24] in magnitude. *)
Theorem noiseValue_lattice_alignment :
  (forall (rnd rndD : R -> R) (gridX gridZ p g00 : Z) (x z d : R),
      rnd 0 = 0 -> rnd 1 = 1 ->
      (0 <= gridX <= 255)%Z -> (0 <= gridZ <= 255)%Z ->
      table_at gridX = Some p -> table_at (p + gridZ) = Some g00 ->
      fade (ops := Rounded rnd rndD) x = 0 ->
      fade (ops := Rounded rnd rndD) z = 0 ->
      gradientDotDistance (ops := Rounded rnd rndD) (Int.land g00 7) x z =
        Some d ->
      rnd d = d ->
      noiseCell (ops := Rounded rnd rndD) gridX gridZ x z =
      Some (rescale (ops := Rounded rnd rndD) d)) /\
  (forall (rnd rndD : R -> R) (i j : Z),
      rnd 0 = 0 -> rnd (1 / 2) = 1 / 2 -> rnd 1 = 1 -> rnd 2 = 2 ->
      rndD 0 = 0 -> rndD (1 / 2) = 1 / 2 -> rndD 1 = 1 -> rndD 2 = 2 ->
      Int.in_range i = true -> Int.in_range j = true ->
      fsub (FloatOps := Rounded rnd rndD) (IZR i)
        (ffloor (FloatOps := Rounded rnd rndD) (IZR i)) = 0 /\
      fsub (FloatOps := Rounded rnd rndD) (IZR j)
        (ffloor (FloatOps := Rounded rnd rndD) (IZR j)) = 0 /\
      fade (ops := Rounded rnd rndD) 0 = 0 /\
      (forall a b : R, rnd a = a -> lerp (ops := Rounded rnd rndD) 0 a b = a) /\
      (forall h : Z, (0 <= h <= 7)%Z ->
                     gradientDotDistance (ops := Rounded rnd rndD) h 0 0 = Some 0) /\
      rescale (ops := Rounded rnd rndD) 0 = 1 / 2 /\
      noiseValue (ops := Rounded rnd rndD) (IZR i) (IZR j) = Some (1 / 2)) /\
  (forall (x z : spec_float) (nx nz : Z),
      valid_binary prec emax x = true -> valid_binary prec emax z = true ->
      is_integer x = true -> is_integer z = true ->
      floor_value x = Some nx -> floor_value z = Some nz ->
      Int.in_range nx = true -> Int.in_range nz = true ->
      fsub (FloatOps := binary32) x (ffloor (FloatOps := binary32) x) =
        S754_zero false /\
      fsub (FloatOps := binary32) z (ffloor (FloatOps := binary32) z) =
        S754_zero false /\
      noiseValue (ops := binary32) x z = Some (one_half (ops := binary32))) /\
  (forall i j : Z,
      (Z.abs i < 2 ^ 24)%Z -> (Z.abs j < 2 ^ 24)%Z ->
      noiseValue (ops := binary32) (of_Z i) (of_Z j) =
      Some (one_half (ops := binary32))).
Proof.
  split.
  { intros rnd rndD gridX gridZ p g00 x z d H0 H1 HX HZ Hp Hg Hu Hv Hd Hrd.
    exact (noiseCell_zero_weights rnd rndD H0 H1 gridX gridZ p g00 x z d
             HX HZ Hp Hg Hu Hv Hd Hrd). }
  split; [|split; [|exact b32_noiseValue_lattice]].
  - intros rnd rndD i j H0 Hh H1 H2 D0 Dh D1 D2 Hi Hj.
    split; [real_ops; rewrite Zfloor_IZR, Rminus_diag; exact H0|].
    split; [real_ops; rewrite Zfloor_IZR, Rminus_diag; exact H0|].
    split; [apply fade_zero; assumption|].
    split; [intros; apply lerp_zero_weight_exact; assumption|].
    split; [intros; apply gradientDotDistance_zero; assumption|].
    split; [apply rescale_zero; assumption|].
    apply noiseValue_lattice; assumption.
  - intros x z nx nz Hvx Hvz Hix Hiz Hnx Hnz Hrx Hrz.
    split; [exact (b32_fraction_integer x Hvx Hix)|].
    split; [exact (b32_fraction_integer z Hvz Hiz)|].
    exact (b32_noiseValue_integer x z nx nz Hvx Hvz Hix Hiz Hnx Hnz Hrx Hrz).
Qed.

Lemma noiseValue_lattice_alignment_witness :
  (noiseCell (ops := Rounded flush (fun t => t)) 0 3 (1 / 10) (1 / 10) =
   Some (rescale (ops := Rounded flush (fun t => t)) (1 / 10))) /\
  (Int.in_range 3 = true /\ Int.in_range (-7) = true /\
   noiseValue (ops := Exact) 3 (-7) = Some (1 / 2)) /\
  (valid_binary prec emax (of_Z 2147483520) = true /\
   valid_binary prec emax (ratio (-14) 2) = true /\
   is_integer (of_Z 2147483520) = true /\
   is_integer (ratio (-14) 2) = true /\
   floor_value (of_Z 2147483520) = Some 2147483520%Z /\
   floor_value (ratio (-14) 2) = Some (-7)%Z /\
   noiseValue (ops := binary32) (of_Z 2147483520) (ratio (-14) 2) =
   Some (one_half (ops := binary32))).
Proof.
  split; [|split].
  - assert (F0 : flush 0 = 0).
    { unfold flush. destruct (Rle_dec (Rabs 0) (1 / 100)); reflexivity. }
    assert (F1 : flush 1 = 1).
    { unfold flush. destruct (Rle_dec (Rabs 1) (1 / 100)) as [H|H];
        [|reflexivity].
      rewrite Rabs_right in H by lra. lra. }
    assert (Fs : flush (1 / 10 * (1 / 10)) = 0).
    { unfold flush.
      destruct (Rle_dec (Rabs (1 / 10 * (1 / 10))) (1 / 100)) as [H|H];
        [reflexivity|].
      rewrite Rabs_right in H by lra. lra. }
    assert (Fd : flush (1 / 10) = 1 / 10).
    { unfold flush. destruct (Rle_dec (Rabs (1 / 10)) (1 / 100)) as [H|H];
        [|reflexivity].
      rewrite Rabs_right in H by lra. lra. }
    assert (Hfade : fade (ops := Rounded flush (fun t => t)) (1 / 10) = 0).
    { unfold fade. real_ops. rewrite Fs, !Rmult_0_l, F0, Rmult_0_l.
      exact F0. }
    apply (proj1 noiseValue_lattice_alignment flush (fun t => t)
             0%Z 3%Z 151%Z 28%Z (1 / 10) (1 / 10) (1 / 10) F0 F1
             ltac:(lia) ltac:(lia) eq_refl eq_refl Hfade Hfade eq_refl Fd).
  - split; [reflexivity|]. split; [reflexivity|].
    apply (proj1 (proj2 noiseValue_lattice_alignment)
             (fun x => x) (fun x => x)
             3%Z (-7)%Z eq_refl eq_refl eq_refl eq_refl eq_refl eq_refl
             eq_refl eq_refl eq_refl eq_refl).
  - assert (Hvx : valid_binary prec emax (of_Z 2147483520) = true)
      by reflexivity.
    assert (Hvz : valid_binary prec emax (ratio (-14) 2) = true)
      by reflexivity.
    assert (Hix : is_integer (of_Z 2147483520) = true) by reflexivity.
    assert (Hiz : is_integer (ratio (-14) 2) = true) by reflexivity.
    assert (Hnx : floor_value (of_Z 2147483520) = Some 2147483520%Z)
      by reflexivity.
    assert (Hnz : floor_value (ratio (-14) 2) = Some (-7)%Z) by reflexivity.
    repeat (split; [assumption|]).
    exact (proj2 (proj2 (proj1 (proj2 (proj2 noiseValue_lattice_alignment))
                    (of_Z 2147483520) (ratio (-14) 2) 2147483520%Z (-7)%Z
                    Hvx Hvz Hix Hiz Hnx Hnz eq_refl eq_refl))).
Defined.

(** C5 as stated fails: [2^31] is an integer and a finite float of
    binary32, but not a value of [int]; the conversion of line 327 is
    undefined there and [noiseValue] has no value, in binary32 and in
    exact arithmetic. *)
Lemma noiseValue_lattice_outside_int :
  is_integer (of_Z 2147483648) = true /\
  is_finite (of_Z 2147483648) = true /\
  valid_binary prec emax (of_Z 2147483648) = true /\
  noiseValue (ops := binary32) (of_Z 2147483648) (of_Z 0) = None /\
  noiseValue (ops := Exact) (IZR 2147483648) (IZR 0) = None.
Proof.
  split; [vm_compute; reflexivity|].
  split; [vm_compute; reflexivity|].
  split; [vm_compute; reflexivity|].
  split; [vm_compute; reflexivity|].
  unfold Exact. rewrite noiseValue_real, !Zfloor_IZR. reflexivity.
Qed.

(** C6.  [fade t], computed as [t*t*t*(t*(t*6 - 15) + 10)], is the
    polynomial [6t^5 - 15t^4 + 10t^3]; [fade 0 = 0], [fade 1 = 1],
    [fade 0.5 = 0.5], in exact arithmetic and in binary32; and its
    derivative is 0 at 0 and at 1. *)
Theorem fade_boundary_conditions :
  (forall t : R, fade (ops := Exact) t = 6 * t ^ 5 - 15 * t ^ 4 + 10 * t ^ 3) /\
  (fade (ops := Exact) 0 = 0 /\ fade (ops := Exact) 1 = 1 /\
   fade (ops := Exact) (1 / 2) = 1 / 2) /\
  (fade (ops := binary32) (of_Z 0) = of_Z 0 /\
   fade (ops := binary32) (of_Z 1) = of_Z 1 /\
   fade (ops := binary32) (one_half (ops := binary32)) =
     one_half (ops := binary32)) /\
  derivable_pt_lim (fade (ops := Exact)) 0 0 /\
  derivable_pt_lim (fade (ops := Exact)) 1 0.
Proof.
  split; [exact fade_polynomial|].
  split; [repeat split; rewrite fade_exact; lra|].
  split; [exact b32_fade_values|].
  split.
  - replace 0 with (30 * 0 ^ 2 * (0 - 1) ^ 2) at 2 by ring.
    apply fade_derivative.
  - replace 0 with (30 * 1 ^ 2 * (1 - 1) ^ 2) by ring.
    apply fade_derivative.
Qed.

(** C7.  The permutation table has 512 entries, each in [0, 255]; every
    value of 0..255 occurs in it exactly twice; entries 256..511 repeat
    entries 0..255, and entries 0..255 are a permutation of 0..255. *)
Theorem permutationTable_shape :
  length permutationTable = 512%nat /\
  Forall (fun v => (0 <= v <= 255)%Z) permutationTable /\
  (forall v, (0 <= v <= 255)%Z -> count_occ Z.eq_dec permutationTable v = 2%nat) /\
  drop 256 permutationTable = take 256 permutationTable /\
  take 256 permutationTable ≡ₚ seqZ 0 256.
Proof.
  split; [exact table_length|].
  split; [exact table_values|].
  split; [exact table_count|].
  split; [reflexivity|].
  exact table_first_half_perm.
Qed.

(** C8.  For [x], [z] whose floors are values of [int], the cell
    indices computed by [noiseValue], [(int)floor(x) & 255] and
    [(int)floor(z) & 255], are [floor x mod 256] and
    [floor z mod 256], which lie in [0, 255] also for negative
    inputs; [noiseValue] is the noise of that cell at the fractional
    parts.  For a negative [x] that is not an integer the truncation
    of [x] has another index.  In binary32 the index of a float is
    the floor of its value modulo 256, when that floor is a value of
    [int]; the index of [-0.5f] is 255. *)
Theorem gridIndex_floor_mod :
  (forall (rnd rndD : R -> R) (x z : R),
      Int.in_range (Zfloor x) = true -> Int.in_range (Zfloor z) = true ->
      gridIndex (ops := Rounded rnd rndD) x = Some (Zfloor x mod 256)%Z /\
      gridIndex (ops := Rounded rnd rndD) z = Some (Zfloor z mod 256)%Z /\
      (0 <= Zfloor x mod 256 <= 255)%Z /\
      (0 <= Zfloor z mod 256 <= 255)%Z /\
      noiseValue (ops := Rounded rnd rndD) x z =
        noiseCell (ops := Rounded rnd rndD) (Zfloor x mod 256) (Zfloor z mod 256)
          (rnd (x - IZR (Zfloor x))) (rnd (z - IZR (Zfloor z))) /\
      (x < 0 -> IZR (Zfloor x) <> x ->
       Int.land (Rtrunc x) 255 <> (Zfloor x mod 256)%Z)) /\
  (forall (x : spec_float) (n : Z),
      valid_binary prec emax x = true ->
      floor_value x = Some n -> Int.in_range n = true ->
      gridIndex (ops := binary32) x = Some (n mod 256)%Z /\
      (0 <= n mod 256 <= 255)%Z) /\
  gridIndex (ops := binary32) (ratio (-1) 2) = Some 255%Z.
Proof.
  split; [|split; [|reflexivity]].
  - intros rnd rndD x z Hx Hz.
    split; [rewrite gridIndex_real, Hx; reflexivity|].
    split; [rewrite gridIndex_real, Hz; reflexivity|].
    split; [rewrite <- land_255; apply land_255_range|].
    split; [rewrite <- land_255; apply land_255_range|].
    split; [rewrite noiseValue_real, Hx, Hz; reflexivity|].
    intros Hneg Hni. rewrite (Rtrunc_negative x Hneg Hni), land_255.
    intros Heq.
    assert (Hd : ((Zfloor x + 1 - Zfloor x) mod 256 = 0)%Z).
    { rewrite Zminus_mod, Heq, Z.sub_diag. reflexivity. }
    replace (Zfloor x + 1 - Zfloor x)%Z with 1%Z in Hd by lia.
    discriminate Hd.
  - intros x n Hv Hf Hr. rewrite (b32_gridIndex x Hv), Hf.
    cbn [mbind option_bind]. rewrite Hr.
    split; [reflexivity|]. rewrite <- land_255. apply land_255_range.
Qed.

Lemma gridIndex_floor_mod_witness :
  Int.in_range (Zfloor (-1 / 2)) = true /\
  Int.in_range (Zfloor (3 / 2)) = true /\
  gridIndex (ops := Exact) (-1 / 2) = Some 255%Z /\
  gridIndex (ops := Exact) (3 / 2) = Some 1%Z.
Proof.
  assert (Hfx : Zfloor (-1 / 2) = (-1)%Z) by (apply Zfloor_eq; lra).
  assert (Hfz : Zfloor (3 / 2) = 1%Z) by (apply Zfloor_eq; lra).
  assert (Hx : Int.in_range (Zfloor (-1 / 2)) = true)
    by (rewrite Hfx; reflexivity).
  assert (Hz : Int.in_range (Zfloor (3 / 2)) = true)
    by (rewrite Hfz; reflexivity).
  split; [exact Hx|]. split; [exact Hz|].
  destruct (proj1 gridIndex_floor_mod (fun x => x) (fun x => x) (-1 / 2) (3 / 2) Hx Hz)
    as (Gx & Gz & _).
  rewrite Hfx in Gx. rewrite Hfz in Gz. split; [exact Gx | exact Gz].
Defined.

(** C9.  With [gridX] and [gridZ] in [0, 255], each of the four
    double lookups [permutationTable[permutationTable[a] + b]], [a]
    one of [gridX], [gridX + 1] and [b] one of [gridZ], [gridZ + 1],
    reads inside the array: the outer index is at most
    255 + 256 = 511.  A hash masked with [& 7] is in 0..7, where
    [gradientDotDistance] returns a value; so [noiseCell] is defined. *)
Theorem noiseCell_accesses_in_bounds
    {F : Type} {ops : FloatOps F} (gridX gridZ : Z) (x z : F) :
  (0 <= gridX <= 255)%Z -> (0 <= gridZ <= 255)%Z ->
  (forall a b : Z,
      a ∈ [gridX; (gridX + 1)%Z] -> b ∈ [gridZ; (gridZ + 1)%Z] ->
      exists p g : Z,
        table_at a = Some p /\ (0 <= p + b <= 511)%Z /\
        table_at (p + b) = Some g /\ (0 <= Int.land g 7 <= 7)%Z /\
        forall fx fz : F, is_Some (gradientDotDistance (Int.land g 7) fx fz)) /\
  is_Some (noiseCell gridX gridZ x z).
Proof.
  intros HX HZ. split; [|apply noiseCell_defined; assumption].
  intros a b Ha Hb.
  assert (Ha' : (0 <= a <= 256)%Z).
  { apply elem_of_cons in Ha as [-> | Ha]; [lia|].
    apply list_elem_of_singleton in Ha as ->. lia. }
  assert (Hb' : (0 <= b <= 256)%Z).
  { apply elem_of_cons in Hb as [-> | Hb]; [lia|].
    apply list_elem_of_singleton in Hb as ->. lia. }
  destruct (double_lookup_defined a b Ha' Hb') as (p & g & Hp & Hi & Hg & _).
  exists p, g. repeat split; try assumption; try apply land_7_range; try lia.
  intros fx fz. apply masked_hash_defined.
Qed.

Lemma noiseCell_accesses_in_bounds_witness :
  (0 <= 255 <= 255)%Z /\
  is_Some (noiseCell (ops := binary32) 255 255 (of_Z 0) (of_Z 0)).
Proof.
  assert (Hg : (0 <= 255 <= 255)%Z) by lia.
  split; [exact Hg|].
  exact (proj2 (noiseCell_accesses_in_bounds
                  (ops := binary32) 255 255 (of_Z 0) (of_Z 0) Hg Hg)).
Defined.

(** C10.  Wherever [noiseValue] is defined its value lies in
    [-0.5, 1.5].  In exact arithmetic: the offsets into the cell are in
    [0, 1), so each corner's dot product is in [-2, 2]; the weights
    [fade x], [fade z] are in [0, 1], so each [lerp] lies between its
    ends; and [0.5 * v + 0.5] maps [-2, 2] into [-0.5, 1.5].  In
    binary32 (with the last line in binary64, as written), for every
    pair of floats: the result is a finite float of [-0.5, 1.5],
    because the exact value is in [0, 1] and the rounding errors add
    up to less than [2^-11]. *)
Theorem noiseValue_in_range :
  (forall t : R, 0 <= t <= 1 -> 0 <= fade (ops := Exact) t <= 1) /\
  (forall w a b lo hi : R,
      0 <= w <= 1 -> lo <= a <= hi -> lo <= b <= hi ->
      lo <= lerp (ops := Exact) w a b <= hi) /\
  (forall (h : Z) (fx fz d : R),
      gradientDotDistance (ops := Exact) h fx fz = Some d ->
      -1 <= fx <= 1 -> -1 <= fz <= 1 -> -2 <= d <= 2) /\
  (forall x z r : R,
      noiseValue (ops := Exact) x z = Some r -> -1 / 2 <= r <= 3 / 2) /\
  (forall x z r : spec_float,
      valid_binary prec emax x = true -> valid_binary prec emax z = true ->
      noiseValue (ops := binary32) x z = Some r ->
      is_finite r = true /\ -1 / 2 <= B2R r <= 3 / 2).
Proof.
  split; [exact fade_range|].
  split; [exact lerp_between|].
  split; [exact gradientDotDistance_bound|].
  split; [exact noiseValue_range|].
  intros x z r Hvx Hvz Hr.
  destruct (b32_noiseValue_range x z r Hvx Hvz Hr) as [[_ Hf] Hb].
  split; [exact Hf|]. unfold delta in Hb. lra.
Qed.

Lemma noiseValue_in_range_witness :
  (noiseValue (ops := Exact) 0 0 = Some (1 / 2) /\
   -1 / 2 <= 1 / 2 <= 3 / 2) /\
  (valid_binary prec emax (ratio 3 10) = true /\
   valid_binary prec emax (ratio 7 10) = true /\
   noiseValue (ops := binary32) (ratio 3 10) (ratio 7 10) =
     Some (S754_finite false 11565574 (-25)) /\
   -1 / 2 <= B2R (S754_finite false 11565574 (-25)) <= 3 / 2).
Proof.
  split.
  - assert (Hn : noiseValue (ops := Exact) 0 0 = Some (1 / 2)).
    { apply (noiseValue_lattice (fun x => x) (fun x => x) eq_refl eq_refl eq_refl
               eq_refl eq_refl eq_refl eq_refl eq_refl
               0 0); reflexivity. }
    split; [exact Hn|].
    exact (proj1 (proj2 (proj2 (proj2 noiseValue_in_range))) 0 0 (1 / 2) Hn).
  - assert (Hx : valid_binary prec emax (ratio 3 10) = true) by reflexivity.
    assert (Hz : valid_binary prec emax (ratio 7 10) = true) by reflexivity.
    assert (Hn : noiseValue (ops := binary32) (ratio 3 10) (ratio 7 10) =
                 Some (S754_finite false 11565574 (-25)))
      by (vm_compute; reflexivity).
    split; [exact Hx|]. split; [exact Hz|]. split; [exact Hn|].
    exact (proj2 (proj2 (proj2 (proj2 (proj2 noiseValue_in_range)))
                    (ratio 3 10) (ratio 7 10) _ Hx Hz Hn)).
Defined.

End Claims.

(** * Further properties: the mesh, the render loop, the noise *)

Section Mesh.

Import Binary32.

(** X1.  When [size * size] is a value of [unsigned int] and the array
    has that many vertices, the two loops of lines 84-111 are defined,
    keep the length of the array, and leave at the index
    [size * i + j] the vertex [(float)i, 0.0f, (float)j], for every
    [i] and [j] below [size], whatever the array held before. *)
Theorem buildMesh_writes_grid {F : Type} {ops : FloatOps F} (size : Z)
    (fresh : list (Vertex.t F)) :
  1 <= size -> size * size < 2 ^ 32 ->
  Z.of_nat (length fresh) = UInt.mul size size ->
  exists vertices indices,
    buildMesh size fresh = Some (vertices, indices) /\
    length vertices = length fresh /\
    forall i j, 0 <= i < size -> 0 <= j < size ->
      vertices !! Z.to_nat (size * i + j) =
      Some (Vertex.make (of_int i) (of_int 0) (of_int j)).
Proof.
  intros Hpos Hfits Hlen.
  exists (grid_vertices size), (grid_indices size).
  split; [apply buildMesh_grid; assumption|].
  split.
  - pose proof (grid_vertices_length (F := F) size Hpos) as Hg.
    unfold UInt.mul in Hlen. rewrite wrap_small in Hlen by nia. lia.
  - intros i j Hi Hj. apply grid_vertices_lookup; assumption.
Qed.

Lemma buildMesh_writes_grid_witness :
  exists vertices indices,
    buildMesh (ops := binary32) 2
      (replicate 4 (Vertex.make S754_nan S754_nan S754_nan)) =
    Some (vertices, indices) /\
    length vertices =
    length (replicate 4 (Vertex.make S754_nan S754_nan S754_nan)) /\
    forall i j, 0 <= i < 2 -> 0 <= j < 2 ->
      vertices !! Z.to_nat (2 * i + j) =
      Some (Vertex.make (of_Z i) (of_Z 0) (of_Z j)).
Proof.
  apply (buildMesh_writes_grid (ops := binary32) 2
           (replicate 4 (Vertex.make S754_nan S754_nan S754_nan)));
    [lia|lia|reflexivity].
Defined.

(** X2.  Under the same conditions the loops push
    [6 * (size - 1) * (size - 1)] indices, six for each square of the
    grid, and every index pushed is the index of a vertex of the
    array. *)
Theorem buildMesh_indices_in_bounds {F : Type} {ops : FloatOps F} (size : Z)
    (fresh : list (Vertex.t F)) :
  1 <= size -> size * size < 2 ^ 32 ->
  Z.of_nat (length fresh) = UInt.mul size size ->
  exists vertices indices,
    buildMesh size fresh = Some (vertices, indices) /\
    Z.of_nat (length indices) = 6 * ((size - 1) * (size - 1)) /\
    Forall (fun k => 0 <= k < Z.of_nat (length vertices)) indices.
Proof.
  intros Hpos Hfits Hlen.
  exists (grid_vertices size), (grid_indices size).
  split; [apply buildMesh_grid; assumption|].
  split; [apply grid_indices_length; assumption|].
  rewrite (grid_vertices_length (F := F) size Hpos).
  apply grid_indices_bounds; assumption.
Qed.

Lemma buildMesh_indices_in_bounds_witness :
  exists vertices indices,
    buildMesh (ops := binary32) 3
      (replicate 9 (Vertex.make S754_nan S754_nan S754_nan)) =
    Some (vertices, indices) /\
    Z.of_nat (length indices) = 6 * ((3 - 1) * (3 - 1)) /\
    Forall (fun k => 0 <= k < Z.of_nat (length vertices)) indices.
Proof.
  apply (buildMesh_indices_in_bounds (ops := binary32) 3
           (replicate 9 (Vertex.make S754_nan S754_nan S754_nan)));
    [lia|lia|reflexivity].
Defined.

(** X3.  The six indices pushed for the square [(i, j)] are at the
    positions [6 * ((size - 1) * i + j)] and following of the index
    list, and they are [size*i+j], [size*i+j+1], [size*(i+1)+j],
    [size*(i+1)+j], [size*i+j+1], [size*(i+1)+j+1]: the two triangles
    of the square, which share the diagonal from [(i, j+1)] to
    [(i+1, j)]. *)
Theorem buildMesh_square_indices {F : Type} {ops : FloatOps F} (size : Z)
    (fresh vertices : list (Vertex.t F)) (indices : list Z) (i j k : Z) :
  1 <= size -> size * size < 2 ^ 32 ->
  Z.of_nat (length fresh) = UInt.mul size size ->
  buildMesh size fresh = Some (vertices, indices) ->
  0 <= i < size - 1 -> 0 <= j < size - 1 -> 0 <= k < 6 ->
  indices !! Z.to_nat (6 * ((size - 1) * i + j) + k) =
  [size * i + j; size * i + j + 1; size * (i + 1) + j;
   size * (i + 1) + j; size * i + j + 1; size * (i + 1) + j + 1]
    !! Z.to_nat k.
Proof.
  intros Hpos Hfits Hlen Hmesh Hi Hj Hk.
  rewrite (buildMesh_grid size Hpos Hfits fresh Hlen) in Hmesh.
  injection Hmesh as _ <-.
  apply grid_indices_lookup; assumption.
Qed.

Lemma buildMesh_square_indices_witness :
  buildMesh (ops := binary32) 3
    (replicate 9 (Vertex.make S754_nan S754_nan S754_nan)) =
  Some (grid_vertices (ops := binary32) 3, [0; 1; 3; 3; 1; 4; 1; 2; 4; 4; 2; 5;
                          3; 4; 6; 6; 4; 7; 4; 5; 7; 7; 5; 8]) /\
  [0; 1; 3; 3; 1; 4; 1; 2; 4; 4; 2; 5;
   3; 4; 6; 6; 4; 7; 4; 5; 7; 7; 5; 8] !! Z.to_nat (6 * ((3 - 1) * 1 + 1) + 2) =
  [3 * 1 + 1; 3 * 1 + 1 + 1; 3 * (1 + 1) + 1;
   3 * (1 + 1) + 1; 3 * 1 + 1 + 1; 3 * (1 + 1) + 1 + 1] !! Z.to_nat 2.
Proof.
  assert (Hmesh : buildMesh (ops := binary32) 3
                    (replicate 9 (Vertex.make S754_nan S754_nan S754_nan)) =
                  Some (grid_vertices (ops := binary32) 3,
                        [0; 1; 3; 3; 1; 4; 1; 2; 4; 4; 2; 5;
                         3; 4; 6; 6; 4; 7; 4; 5; 7; 7; 5; 8]))
    by reflexivity.
  split; [exact Hmesh|].
  apply (buildMesh_square_indices (ops := binary32) 3
           (replicate 9 (Vertex.make S754_nan S754_nan S754_nan))
           (grid_vertices (ops := binary32) 3) _ 1 1 2);
    [lia|lia|reflexivity|exact Hmesh|lia|lia|lia].
Defined.

(** X4.  Read three by three, as [glDrawElements] does for
    [GL_TRIANGLES], the indices pushed give triangles that all have
    the same orientation: with the vertex of index [k] at
    [(k / size, k mod size)], twice the signed area of each of them
    is -1. *)
Theorem buildMesh_triangles_oriented {F : Type} {ops : FloatOps F} (size : Z)
    (fresh vertices : list (Vertex.t F)) (indices : list Z) :
  1 <= size -> size * size < 2 ^ 32 ->
  Z.of_nat (length fresh) = UInt.mul size size ->
  buildMesh size fresh = Some (vertices, indices) ->
  Forall (fun t => winding size t = -1) (triangles indices).
Proof.
  intros Hpos Hfits Hlen Hmesh.
  rewrite (buildMesh_grid size Hpos Hfits fresh Hlen) in Hmesh.
  injection Hmesh as _ <-.
  apply grid_triangles_winding, Hpos.
Qed.

Lemma buildMesh_triangles_oriented_witness :
  Forall (fun t => winding 3 t = -1)
    (triangles [0; 1; 3; 3; 1; 4; 1; 2; 4; 4; 2; 5;
                3; 4; 6; 6; 4; 7; 4; 5; 7; 7; 5; 8]).
Proof.
  apply (buildMesh_triangles_oriented (ops := binary32) 3
           (replicate 9 (Vertex.make S754_nan S754_nan S754_nan))
           (grid_vertices (ops := binary32) 3));
    [lia|lia|reflexivity|reflexivity].
Defined.

(** X5.  The array allocated has [mapSize * mapSize] vertices, a
    product of [unsigned int]: for a size up to the largest [int], the
    loops are defined exactly when the product [size * size] does not
    wrap around, that is when it is below [2^32].  When it wraps, the
    array is shorter than the grid and a vertex is written past its
    end. *)
Theorem buildMesh_defined_iff {F : Type} {ops : FloatOps F} (size : Z)
    (fresh : list (Vertex.t F)) :
  1 <= size <= Int.max_int ->
  Z.of_nat (length fresh) = UInt.mul size size ->
  is_Some (buildMesh size fresh) <-> size * size < 2 ^ 32.
Proof.
  intros Hsize Hlen. split.
  - intros [st Hst].
    destruct (Z.lt_ge_cases (size * size) (2 ^ 32)) as [Hlt|Hge]; [exact Hlt|].
    rewrite (buildMesh_overflow size fresh Hsize Hge Hlen) in Hst.
    discriminate.
  - intros Hfits. rewrite (buildMesh_grid size) by (assumption || lia).
    eauto.
Qed.

Lemma buildMesh_defined_iff_witness :
  (is_Some (buildMesh (ops := binary32) 65536 []) <->
   65536 * 65536 < 2 ^ 32) /\
  (is_Some (buildMesh (ops := binary32) 2
              (replicate 4 (Vertex.make S754_nan S754_nan S754_nan))) <->
   2 * 2 < 2 ^ 32).
Proof.
  split.
  - apply (buildMesh_defined_iff (ops := binary32) 65536 []);
      [unfold Int.max_int, Int.bits; lia|reflexivity].
  - apply (buildMesh_defined_iff (ops := binary32) 2);
      [unfold Int.max_int, Int.bits; lia|reflexivity].
Defined.

End Mesh.

Section Heights.

Import Binary32.

(** X6.  On an array of [size * size] vertices the loops of lines
    224-238 are defined exactly when the height of every vertex of
    the grid is: when each of the six calls of [noiseValue] is, for
    every [i] and [j] below [size]. *)
Theorem updateHeights_defined_iff {F : Type} {ops : FloatOps F}
    (pow : double -> double -> double) (size : Z) (xOffset zOffset : F)
    (vertices : list (Vertex.t F)) :
  1 <= size -> size * size < 2 ^ 32 ->
  Z.of_nat (length vertices) = size * size ->
  is_Some (updateHeights pow size xOffset zOffset vertices) <->
  forall i j, 0 <= i < size -> 0 <= j < size ->
    is_Some (heightAt pow (of_int i + xOffset)%fl (of_int j + zOffset)%fl).
Proof.
  intros Hpos Hfits Hlen.
  exact (updateHeights_is_Some pow size Hpos Hfits xOffset zOffset
           vertices Hlen).
Qed.

Lemma updateHeights_defined_iff_witness :
  is_Some (updateHeights (ops := binary32) (fun x _ => x) 2 (of_Z 0) (of_Z 0)
             (replicate 4 (Vertex.make S754_nan S754_nan S754_nan))) <->
  forall i j, 0 <= i < 2 -> 0 <= j < 2 ->
    is_Some (heightAt (ops := binary32) (fun x _ => x)
               (SFadd prec emax (of_Z i) (of_Z 0))
               (SFadd prec emax (of_Z j) (of_Z 0))).
Proof.
  apply (updateHeights_defined_iff (ops := binary32) (fun x _ => x) 2
           (of_Z 0) (of_Z 0));
    [lia|lia|reflexivity].
Defined.

(** X7.  When the loops of lines 224-238 are defined they keep the
    length of the array and, for every [i] and [j] below [size],
    replace the [y] of the vertex of index [size * i + j] by the
    height computed for [(i, j)], keeping its [x] and its [z]. *)
Theorem updateHeights_writes_heights {F : Type} {ops : FloatOps F}
    (pow : double -> double -> double) (size : Z) (xOffset zOffset : F)
    (vertices vertices' : list (Vertex.t F)) :
  1 <= size -> size * size < 2 ^ 32 ->
  Z.of_nat (length vertices) = size * size ->
  updateHeights pow size xOffset zOffset vertices = Some vertices' ->
  length vertices' = length vertices /\
  forall i j v, 0 <= i < size -> 0 <= j < size ->
    vertices !! Z.to_nat (size * i + j) = Some v ->
    exists h,
      heightAt pow (of_int i + xOffset)%fl (of_int j + zOffset)%fl = Some h /\
      vertices' !! Z.to_nat (size * i + j) =
      Some (Vertex.make (Vertex.x v) h (Vertex.z v)).
Proof.
  intros Hpos Hfits Hlen Hup. split.
  - exact (updateHeights_length pow size Hpos Hfits xOffset zOffset
             vertices vertices' Hlen Hup).
  - intros i j v Hi Hj Hv.
    exact (updateHeights_vertex pow size Hpos Hfits xOffset zOffset
             vertices vertices' i j v Hlen Hup Hi Hj Hv).
Qed.

Lemma updateHeights_writes_heights_witness :
  exists vertices',
    updateHeights (ops := binary32) (fun x _ => x) 2 (of_Z 0) (of_Z 0)
      (replicate 4 (Vertex.make S754_nan S754_nan S754_nan)) =
    Some vertices' /\
    length vertices' =
    length (replicate 4 (Vertex.make S754_nan S754_nan S754_nan)) /\
    forall i j v, 0 <= i < 2 -> 0 <= j < 2 ->
      replicate 4 (Vertex.make S754_nan S754_nan S754_nan)
        !! Z.to_nat (2 * i + j) = Some v ->
      exists h,
        heightAt (ops := binary32) (fun x _ => x)
          (SFadd prec emax (of_Z i) (of_Z 0))
          (SFadd prec emax (of_Z j) (of_Z 0)) = Some h /\
        vertices' !! Z.to_nat (2 * i + j) =
        Some (Vertex.make (Vertex.x v) h (Vertex.z v)).
Proof.
  eexists. split; [vm_compute; reflexivity|].
  apply (updateHeights_writes_heights (ops := binary32) (fun x _ => x) 2
           (of_Z 0) (of_Z 0)
           (replicate 4 (Vertex.make S754_nan S754_nan S754_nan)));
    [lia|lia|reflexivity|vm_compute; reflexivity].
Defined.

(** X8.  What the loops of lines 224-238 write does not depend on the
    heights the array holds: after one update, a second one (with the
    same or other offsets) gives what it would give on the array
    before the first.  In particular an update repeated with the same
    offsets changes nothing. *)
Theorem updateHeights_forgets_heights {F : Type} {ops : FloatOps F}
    (pow : double -> double -> double) (size : Z) (x1 z1 x2 z2 : F)
    (vertices vertices1 : list (Vertex.t F)) :
  1 <= size -> size * size < 2 ^ 32 ->
  Z.of_nat (length vertices) = size * size ->
  updateHeights pow size x1 z1 vertices = Some vertices1 ->
  updateHeights pow size x2 z2 vertices1 =
  updateHeights pow size x2 z2 vertices /\
  updateHeights pow size x1 z1 vertices1 = Some vertices1.
Proof.
  intros Hpos Hfits Hlen Hup.
  pose proof (updateHeights_overwrite pow size Hpos Hfits) as Hover.
  split; [exact (Hover x1 z1 x2 z2 vertices vertices1 Hlen Hup)|].
  rewrite (Hover x1 z1 x1 z1 vertices vertices1 Hlen Hup). exact Hup.
Qed.

Lemma updateHeights_forgets_heights_witness :
  exists vertices1,
    updateHeights (ops := binary32) (fun x _ => x) 2 (of_Z 0) (of_Z 0)
      (replicate 4 (Vertex.make S754_nan S754_nan S754_nan)) =
    Some vertices1 /\
    updateHeights (ops := binary32) (fun x _ => x) 2 (of_Z 3) (of_Z 5)
      vertices1 =
    updateHeights (ops := binary32) (fun x _ => x) 2 (of_Z 3) (of_Z 5)
      (replicate 4 (Vertex.make S754_nan S754_nan S754_nan)) /\
    updateHeights (ops := binary32) (fun x _ => x) 2 (of_Z 0) (of_Z 0)
      vertices1 = Some vertices1.
Proof.
  eexists. split; [vm_compute; reflexivity|].
  apply (updateHeights_forgets_heights (ops := binary32) (fun x _ => x) 2
           (of_Z 0) (of_Z 0) (of_Z 3) (of_Z 5)
           (replicate 4 (Vertex.make S754_nan S754_nan S754_nan)));
    [lia|lia|reflexivity|vm_compute; reflexivity].
Defined.

(** X9.  The mesh built by lines 84-111 and then updated by lines
    224-238: the vertex of index [size * i + j] is
    [(float)i, h, (float)j], where [h] is the height computed for
    [(i, j)]. *)
Theorem mesh_then_heights {F : Type} {ops : FloatOps F}
    (pow : double -> double -> double) (size : Z) (xOffset zOffset : F)
    (fresh vertices vertices' : list (Vertex.t F)) (indices : list Z) :
  1 <= size -> size * size < 2 ^ 32 ->
  Z.of_nat (length fresh) = UInt.mul size size ->
  buildMesh size fresh = Some (vertices, indices) ->
  updateHeights pow size xOffset zOffset vertices = Some vertices' ->
  forall i j, 0 <= i < size -> 0 <= j < size ->
    exists h,
      heightAt pow (of_int i + xOffset)%fl (of_int j + zOffset)%fl = Some h /\
      vertices' !! Z.to_nat (size * i + j) =
      Some (Vertex.make (of_int i) h (of_int j)).
Proof.
  intros Hpos Hfits Hlen Hmesh Hup i j Hi Hj.
  rewrite (buildMesh_grid size Hpos Hfits fresh Hlen) in Hmesh.
  injection Hmesh as <- _.
  pose proof (grid_vertices_length (F := F) size Hpos) as Hg.
  pose proof (grid_vertices_lookup (F := F) size Hpos i j Hi Hj) as Hv.
  exact (updateHeights_vertex pow size Hpos Hfits xOffset zOffset
           _ vertices' i j _ Hg Hup Hi Hj Hv).
Qed.

Lemma mesh_then_heights_witness :
  exists vertices indices vertices' h,
    buildMesh (ops := binary32) 2
      (replicate 4 (Vertex.make S754_nan S754_nan S754_nan)) =
    Some (vertices, indices) /\
    updateHeights (ops := binary32) (fun x _ => x) 2 (of_Z 0) (of_Z 0)
      vertices = Some vertices' /\
    heightAt (ops := binary32) (fun x _ => x)
      (SFadd prec emax (of_Z 1) (of_Z 0))
      (SFadd prec emax (of_Z 1) (of_Z 0)) = Some h /\
    vertices' !! Z.to_nat (2 * 1 + 1) =
    Some (Vertex.make (of_Z 1) h (of_Z 1)).
Proof.
  assert (Hmesh : buildMesh (ops := binary32) 2
                    (replicate 4 (Vertex.make S754_nan S754_nan S754_nan)) =
                  Some (grid_vertices (ops := binary32) 2, grid_indices 2)) by reflexivity.
  assert (Hup : is_Some (updateHeights (ops := binary32) (fun x _ => x) 2
                           (of_Z 0) (of_Z 0) (grid_vertices (ops := binary32) 2)))
    by (vm_compute; eauto).
  destruct Hup as [vertices' Hup].
  destruct (mesh_then_heights (ops := binary32) (fun x _ => x) 2
              (of_Z 0) (of_Z 0)
              (replicate 4 (Vertex.make S754_nan S754_nan S754_nan))
              _ vertices' _
              ltac:(lia) ltac:(lia) eq_refl Hmesh Hup 1 1
              ltac:(lia) ltac:(lia)) as [h [Hh Hv]].
  exists (grid_vertices (ops := binary32) 2), (grid_indices 2), vertices', h.
  repeat split; assumption.
Defined.

(** X10.  The first frame of the program, in binary32: with [mapSize]
    512 and both offsets [0.0f], the mesh is built and the height of
    every one of its 262144 vertices is defined, whatever [pow]
    returns and whatever the array allocated held. *)
Theorem first_frame_defined
    (pow : spec_float -> spec_float -> spec_float)
    (fresh : list (Vertex.t spec_float)) :
  Z.of_nat (length fresh) = UInt.mul mapSize mapSize ->
  exists vertices indices vertices',
    buildMesh (ops := binary32) mapSize fresh = Some (vertices, indices) /\
    updateHeights (ops := binary32) pow mapSize (of_Z 0) (of_Z 0) vertices =
    Some vertices'.
Proof.
  intros Hlen.
  assert (Hpos : 1 <= mapSize) by (unfold mapSize; lia).
  assert (Hfits : mapSize * mapSize < 2 ^ 32) by (unfold mapSize; lia).
  pose proof (grid_vertices_length (ops := binary32) mapSize Hpos) as Hg.
  destruct (proj2 (updateHeights_is_Some (ops := binary32) pow mapSize
                     Hpos Hfits (of_Z 0) (of_Z 0)
                     (grid_vertices (ops := binary32) mapSize) Hg))
    as [vertices' Hup].
  - intros i j Hi Hj. apply first_frame_height; assumption.
  - exists (grid_vertices (ops := binary32) mapSize), (grid_indices mapSize),
      vertices'.
    split; [|exact Hup].
    apply buildMesh_grid; assumption.
Qed.

Lemma first_frame_defined_witness :
  exists vertices indices vertices',
    buildMesh (ops := binary32) mapSize
      (replicate (Z.to_nat 262144) (Vertex.make S754_nan S754_nan S754_nan)) =
    Some (vertices, indices) /\
    updateHeights (ops := binary32) (fun x _ => x) mapSize (of_Z 0) (of_Z 0)
      vertices = Some vertices'.
Proof.
  apply (first_frame_defined (fun x _ => x)).
  rewrite length_replicate. reflexivity.
Defined.

End Heights.

Section Noise.

Import RealModel Binary32.
Local Open Scope R_scope.

(** X11.  In exact arithmetic [noiseValue] is continuous in each of
    its arguments at every point around which it is defined, that is
    at every point strictly between [-2^31] and [2^31], the other
    argument being anywhere the noise is defined: inside the cells,
    the first one included, and across the lines of the lattice,
    where the cell, its four corners and their directions change. *)
Theorem exactNoise_continuous :
  (forall x0 z : R,
      -2147483648 < x0 < 2147483648 -> Int.in_range (Zfloor z) = true ->
      continuity_pt
        (fun t => default 0 (noiseValue (ops := Exact) t z)) x0) /\
  (forall x z0 : R,
      Int.in_range (Zfloor x) = true -> -2147483648 < z0 < 2147483648 ->
      continuity_pt
        (fun t => default 0 (noiseValue (ops := Exact) x t)) z0).
Proof.
  split.
  - intros x0 z Hx Hz. exact (exactNoise_continuous_x x0 z Hx Hz).
  - intros x z0 Hx Hz. exact (exactNoise_continuous_z x z0 Hx Hz).
Qed.

Lemma exactNoise_continuous_witness :
  continuity_pt
    (fun t => default 0 (noiseValue (ops := Exact) t (1 / 2))) 256 /\
  continuity_pt
    (fun t => default 0 (noiseValue (ops := Exact) t (-2147483648)))
    (-2147483648 + 1 / 2) /\
  continuity_pt
    (fun t => default 0 (noiseValue (ops := Exact) (1 / 2) t)) (-1).
Proof.
  split; [|split].
  - apply (proj1 exactNoise_continuous 256 (1 / 2)); [lra|].
    apply in_range_floor. lra.
  - apply (proj1 exactNoise_continuous (-2147483648 + 1 / 2) (-2147483648));
      [lra|].
    apply in_range_floor. lra.
  - apply (proj2 exactNoise_continuous (1 / 2) (-1)); [|lra].
    apply in_range_floor. lra.
Defined.

(** X12.  In exact arithmetic [fade] never decreases, on the whole
    real line, and it increases strictly on [0, 1]: a larger offset
    into the cell never gets a smaller weight. *)
Theorem fade_monotone (s t : R) :
  s <= t ->
  fade (ops := Exact) s <= fade (ops := Exact) t /\
  (0 <= s -> s < t -> t <= 1 -> fade (ops := Exact) s < fade (ops := Exact) t).
Proof.
  intros Hst. split.
  - apply fade_increasing, Hst.
  - intros H0 Hlt H1. apply fade_strictly_increasing; assumption.
Qed.

Lemma fade_monotone_witness :
  1 / 4 <= 3 / 4 /\
  fade (ops := Exact) (1 / 4) <= fade (ops := Exact) (3 / 4) /\
  fade (ops := Exact) (1 / 4) < fade (ops := Exact) (3 / 4).
Proof.
  assert (Hst : 1 / 4 <= 3 / 4) by lra.
  split; [exact Hst|].
  destruct (fade_monotone (1 / 4) (3 / 4) Hst) as [Hle Hlt].
  split; [exact Hle|]. apply Hlt; lra.
Defined.

(** X13.  Wherever [noiseValue] is defined its value is in [0, 1] in
    exact arithmetic, and within [173 * 2^-19] of [0, 1] in binary32
    (with line 344 in binary64, as written), for every pair of
    floats. *)
Theorem noiseValue_unit_interval :
  (forall x z r : R,
      noiseValue (ops := Exact) x z = Some r -> 0 <= r <= 1) /\
  (forall x z r : spec_float,
      valid_binary prec emax x = true -> valid_binary prec emax z = true ->
      noiseValue (ops := binary32) x z = Some r ->
      is_finite r = true /\
      - (173 / 524288) <= B2R r <= 1 + 173 / 524288).
Proof.
  split; [exact noiseValue_unit|].
  intros x z r Hvx Hvz Hr.
  destruct (b32_noiseValue_range x z r Hvx Hvz Hr) as [[_ Hf] Hb].
  split; [exact Hf|]. unfold delta in Hb. lra.
Qed.

Lemma noiseValue_unit_interval_witness :
  (noiseValue (ops := Exact) 0 0 = Some (1 / 2) /\ 0 <= 1 / 2 <= 1) /\
  (noiseValue (ops := binary32) (ratio 3 10) (ratio 7 10) =
     Some (S754_finite false 11565574 (-25)) /\
   is_finite (S754_finite false 11565574 (-25)) = true /\
   - (173 / 524288) <= B2R (S754_finite false 11565574 (-25)) <=
     1 + 173 / 524288).
Proof.
  split.
  - split; [exact noiseValue_origin_exact|].
    exact (proj1 noiseValue_unit_interval 0 0 (1 / 2) noiseValue_origin_exact).
  - assert (Hn : noiseValue (ops := binary32) (ratio 3 10) (ratio 7 10) =
                 Some (S754_finite false 11565574 (-25)))
      by (vm_compute; reflexivity).
    split; [exact Hn|].
    exact (proj2 noiseValue_unit_interval (ratio 3 10) (ratio 7 10) _
             eq_refl eq_refl Hn).
Defined.

(** X14.  In exact arithmetic the first argument of [pow] at line 236,
    the sum of the six octaves, is in [0, 126] wherever the height is
    defined: [pow] is never called with a negative base.  The sum [s]
    is the one passed to [pow] whatever function [pow] is. *)
Theorem heightAt_pow_base (pow : R -> R -> R) (x z h : R) :
  heightAt (ops := Exact) pow x z = Some h ->
  exists s : R,
    0 <= s <= 126 /\
    forall pow' : R -> R -> R,
      heightAt (ops := Exact) pow' x z = Some (pow' s (12 / 10) - 140).
Proof.
  unfold heightAt.
  repeat match goal with
    | |- (noiseValue ?a ?b ≫= _) = Some _ -> _ =>
        let n := fresh "n" in
        let Hn := fresh "Hn" in
        destruct (noiseValue a b) as [n|] eqn:Hn; cbn [mbind option_bind];
        [|discriminate]; pose proof (noiseValue_unit _ _ _ Hn)
    end.
  intros _. eexists. split.
  2:{ intros pow'.
      repeat match goal with
        | Hn : noiseValue _ _ = Some _ |- _ => rewrite Hn; clear Hn
        end.
      cbn [mbind option_bind]. unfold one_point_two. real_ops.
      reflexivity. }
  lra.
Qed.

Lemma heightAt_pow_base_witness :
  heightAt (ops := Exact) (fun b e => b * e) 0 0 =
    Some (63 * (12 / 10) - 140) /\
  exists s : R,
    0 <= s <= 126 /\
    forall pow' : R -> R -> R,
      heightAt (ops := Exact) pow' 0 0 = Some (pow' s (12 / 10) - 140).
Proof.
  split; [exact (heightAt_origin_exact (fun b e => b * e))|].
  exact (heightAt_pow_base (fun b e => b * e) 0 0 _
           (heightAt_origin_exact (fun b e => b * e))).
Defined.

(** X15.  In exact arithmetic the height repeats every 65536 units in
    each direction, as long as the positions stay within the values
    of [int]: 65536 is 256 periods of the coarsest octave and 16384 of
    the finest. *)
Theorem heightAt_period (pow : R -> R -> R) (x z : R) :
  (-2147483648 <= x -> x + 65536 < 2147483648 ->
   heightAt (ops := Exact) pow (x + 65536) z =
   heightAt (ops := Exact) pow x z) /\
  (-2147483648 <= z -> z + 65536 < 2147483648 ->
   heightAt (ops := Exact) pow x (z + 65536) =
   heightAt (ops := Exact) pow x z).
Proof.
  split.
  - apply heightAt_period_x.
  - apply heightAt_period_z.
Qed.

Lemma heightAt_period_witness :
  heightAt (ops := Exact) (fun b e => b * e) (1 / 2 + 65536) (1 / 4) =
  heightAt (ops := Exact) (fun b e => b * e) (1 / 2) (1 / 4) /\
  heightAt (ops := Exact) (fun b e => b * e) (1 / 2) (1 / 4 + 65536) =
  heightAt (ops := Exact) (fun b e => b * e) (1 / 2) (1 / 4).
Proof.
  split.
  - apply (proj1 (heightAt_period (fun b e => b * e) (1 / 2) (1 / 4))); lra.
  - apply (proj2 (heightAt_period (fun b e => b * e) (1 / 2) (1 / 4))); lra.
Defined.

(** X16.  In exact arithmetic the height is defined exactly at the
    positions [(x, z)] with both coordinates in [-2^33, 2^33): the
    finest octave samples the noise at [(x / 4, z / 4)], whose floors
    must be values of [int]. *)
Theorem heightAt_domain (pow : R -> R -> R) (x z : R) :
  is_Some (heightAt (ops := Exact) pow x z) <->
  -8589934592 <= x < 8589934592 /\ -8589934592 <= z < 8589934592.
Proof.
  split.
  - intros [h Hh]. unfold heightAt in Hh.
    repeat match type of Hh with
      | (noiseValue ?a ?b ≫= _) = Some _ =>
          let n := fresh "n" in
          let Hn := fresh "Hn" in
          destruct (noiseValue a b) as [n|] eqn:Hn;
            cbn [mbind option_bind] in Hh; [|discriminate Hh]
      end.
    match goal with
    | Hn : noiseValue (_ / of_int 4)%fl (_ / of_int 4)%fl = Some _ |- _ =>
        pose proof (proj1 (noiseValue_exact_is_Some _ _)
                      (ex_intro _ _ Hn)) as [Hx Hz]
    end.
    revert Hx Hz. real_ops. intros Hx Hz. lra.
  - intros [Hx Hz]. apply heightAt_is_Some.
    intros c Hc. apply noiseValue_exact_is_Some.
    repeat (apply elem_of_cons in Hc as [-> | Hc]);
      [..|inversion Hc]; real_ops; lra.
Qed.

(** X17.  The value computed in binary32 (with line 344 in binary64)
    is within [173 * 2^-19] of the value of the exact formula at the
    same point, for every pair of floats neither of which is strictly
    between -1 and 0: there the fractional part [x - floor x] is
    computed without rounding. *)
Theorem noiseValue_binary32_accuracy (x z r : spec_float) :
  valid_binary prec emax x = true -> valid_binary prec emax z = true ->
  0 <= B2R x \/ B2R x <= -1 -> 0 <= B2R z \/ B2R z <= -1 ->
  noiseValue (ops := binary32) x z = Some r ->
  exists r' : R,
    noiseValue (ops := Exact) (B2R x) (B2R z) = Some r' /\
    is_finite r = true /\
    Rabs (B2R r - r') <= 173 / 524288.
Proof.
  intros Hvx Hvz Hx Hz Hr.
  destruct (b32_noiseValue_near x z r Hvx Hvz Hx Hz Hr)
    as (r' & Hr' & [_ Hf] & Hd).
  exists r'. split; [exact Hr'|]. split; [exact Hf|].
  unfold delta in Hd. lra.
Qed.

Lemma noiseValue_binary32_accuracy_witness :
  exists r' : R,
    noiseValue (ops := Exact)
      (B2R (S754_finite false 10066330 (-25)))
      (B2R (S754_finite false 11744051 (-24))) = Some r' /\
    is_finite (S754_finite false 11565574 (-25)) = true /\
    Rabs (B2R (S754_finite false 11565574 (-25)) - r') <= 173 / 524288.
Proof.
  apply (noiseValue_binary32_accuracy
           (S754_finite false 10066330 (-25))
           (S754_finite false 11744051 (-24))).
  - reflexivity.
  - reflexivity.
  - left. cbn [B2R cond_Zopp].
    pose proof (pow2_pos (-25)). pose proof (IZR_lt 0 10066330 ltac:(lia)).
    nra.
  - left. cbn [B2R cond_Zopp].
    pose proof (pow2_pos (-24)). pose proof (IZR_lt 0 11744051 ltac:(lia)).
    nra.
  - vm_compute. reflexivity.
Defined.

End Noise.

Section Hashes.

(** X18.  The directions are spread evenly over the lattice: along
    every row and along every column of the 256 by 256 cells, each of
    the eight directions is the one of exactly 32 corners. *)
Theorem gradientHash_uniform (c k : Z) :
  0 <= c <= 255 -> 0 <= k <= 7 ->
  length (filter (fun h => h = Some k) (gradientHash c <$> seqZ 0 256)) =
    32%nat /\
  length (filter (fun h => h = Some k)
            ((fun gridX => gradientHash gridX c) <$> seqZ 0 256)) = 32%nat.
Proof.
  intros Hc Hk. split.
  - apply gradientHash_row_count; assumption.
  - apply gradientHash_column_count; assumption.
Qed.

Lemma gradientHash_uniform_witness :
  length (filter (fun h => h = Some 5) (gradientHash 17 <$> seqZ 0 256)) =
    32%nat /\
  length (filter (fun h => h = Some 5)
            ((fun gridX => gradientHash gridX 17) <$> seqZ 0 256)) = 32%nat.
Proof. apply (gradientHash_uniform 17 5); lia. Defined.

End Hashes.

Section CameraAndErrors.

Import RealModel Binary32.

(** X19.  After lines 210-211 the pitch, in binary32, is a finite
    float between [-89.9f] and [89.9f], for every float but NaN, the
    infinities included; a NaN is left as it is. *)
Theorem clampPitch_bounds (pitch : spec_float) :
  valid_binary prec emax pitch = true ->
  (pitch <> S754_nan ->
   is_finite (clampPitch (ops := binary32) pitch) = true /\
   (- B2R (pitchLimit (ops := binary32)) <=
    B2R (clampPitch (ops := binary32) pitch) <=
    B2R (pitchLimit (ops := binary32)))%R) /\
  (pitch = S754_nan -> clampPitch (ops := binary32) pitch = S754_nan).
Proof.
  intros Hv. split.
  - intros Hnan.
    destruct (clampPitch_binary32 pitch Hv Hnan) as [[_ Hf] Hr].
    split; assumption.
  - intros ->. reflexivity.
Qed.

Lemma clampPitch_bounds_witness :
  clampPitch (ops := binary32) (S754_infinity true) =
    S754_finite true 11783373 (-17) /\
  is_finite (clampPitch (ops := binary32) (S754_infinity true)) = true /\
  (- B2R (pitchLimit (ops := binary32)) <=
   B2R (clampPitch (ops := binary32) (S754_infinity true)) <=
   B2R (pitchLimit (ops := binary32)))%R.
Proof.
  split; [reflexivity|].
  apply (proj1 (clampPitch_bounds (S754_infinity true) eq_refl)).
  discriminate.
Defined.

(** X20.  Lines 210-211 keep a pitch that is within the limits, in
    binary32, and applying them twice is applying them once. *)
Theorem clampPitch_keeps_in_range (pitch : spec_float) :
  valid_binary prec emax pitch = true ->
  (is_finite pitch = true ->
   (- B2R (pitchLimit (ops := binary32)) <= B2R pitch <=
    B2R (pitchLimit (ops := binary32)))%R ->
   clampPitch (ops := binary32) pitch = pitch) /\
  clampPitch (ops := binary32) (clampPitch (ops := binary32) pitch) =
  clampPitch (ops := binary32) pitch.
Proof.
  intros Hv. split.
  - intros Hf Hr. apply clampPitch_kept; [split; assumption|exact Hr].
  - apply clampPitch_twice, Hv.
Qed.

Lemma clampPitch_keeps_in_range_witness :
  clampPitch (ops := binary32) (of_Z 45) = of_Z 45 /\
  clampPitch (ops := binary32) (clampPitch (ops := binary32) (of_Z 90)) =
  clampPitch (ops := binary32) (of_Z 90).
Proof.
  split.
  - apply (proj1 (clampPitch_keeps_in_range (of_Z 45) eq_refl));
      [reflexivity|].
    rewrite pitchLimit_binary32.
    change (of_Z 45) with (S754_finite false 11796480 (-18)).
    cbn [B2R cond_Zopp].
    pose proof (pow2_pos (-18)) as H18.
    assert (H17 : powerRZ 2 (-17) = (2 * powerRZ 2 (-18))%R).
    { change (-17)%Z with (1 + -18)%Z. rewrite pow2_add, powerRZ_1.
      reflexivity. }
    rewrite H17. split; nra.
  - apply (proj2 (clampPitch_keeps_in_range (of_Z 90) eq_refl)).
Defined.

(** X21.  [checkErrors] (lines 40-48): when the call number [k] of
    [glGetError], counted from 0, is the first to return 0, the
    function prints the [k] values returned before, in order, makes
    [k + 1] calls and returns. *)
Theorem checkErrors_prints_until_zero (errors : nat -> Z) (k fuel : nat) :
  errors k = 0 -> (forall i, (i < k)%nat -> errors i <> 0) ->
  (k <= fuel)%nat ->
  checkErrors fuel errors = Some (errors <$> seq 0 k, S k).
Proof.
  intros Hk Hbefore Hfuel. unfold checkErrors.
  exact (checkErrors_loop_zero errors k fuel 0%nat [] Hk Hbefore Hfuel).
Qed.

Lemma checkErrors_prints_until_zero_witness :
  checkErrors 5 (fun n => if (n <? 2)%nat then 1280 + Z.of_nat n else 0) =
  Some ([1280; 1281], 3%nat).
Proof.
  apply (checkErrors_prints_until_zero
           (fun n => if (n <? 2)%nat then 1280 + Z.of_nat n else 0) 2 5).
  - reflexivity.
  - intros i Hi. destruct i as [|[|i]]; [discriminate|discriminate|lia].
  - lia.
Defined.

(** X22.  [checkErrors] does not return when [glGetError] never
    returns 0 (as it does without a current context): whatever the
    number of iterations allowed, the loop has not ended. *)
Theorem checkErrors_never_returns (errors : nat -> Z) :
  (forall i, errors i <> 0) ->
  forall fuel, checkErrors fuel errors = None.
Proof.
  intros Hall fuel. unfold checkErrors.
  exact (checkErrors_loop_never errors fuel 0%nat [] Hall).
Qed.

Lemma checkErrors_never_returns_witness :
  checkErrors 1000 (fun _ => 1282) = None.
Proof.
  apply (checkErrors_never_returns (fun _ => 1282)).
  intros i. discriminate.
Defined.

End CameraAndErrors.
